(** * Chemosynthetic ecosystem simulation: a shallow embedding of
      [chemora_ocean.py] and the properties of its update rules.

    Python integers are modelled by [Z], Python floats by IEEE 754
    binary64 values ([spec_float] with precision 53 and maximal exponent
    1024, the arithmetic of the Standard Library's [SpecFloat]), Python
    dictionaries by insertion-ordered association lists, objects by
    references into a heap, exceptions by an error monad, and the
    pseudo-random generator by an arbitrary tape of raw draws.

    Chemical quantities and populations are Python ints, as the script
    creates them; the energy reserve is an int until a float is first
    added to it; the three rates are floats. A behaviour returns [Ok]
    with the new state, or [Raise] with the exception that ends the run:
    [KeyError] for a chemical missing from a dictionary, [OverflowError]
    when an int does not fit a float or an infinity is converted to an
    int, [ValueError] for [int(nan)]. Printed messages are not modelled.
    In the statements below, arithmetic is Python's: a product of an int
    and a float is the float product of the converted int, rounded to
    nearest; what happens after a call or a run is stated for calls and
    runs that return. *)

From Stdlib Require Import ZArith Lia SpecFloat.
From stdpp Require Import base option list strings gmap.

Local Open Scope Z_scope.

(* ===================================================================== *)
(** * Exceptions *)
(* ===================================================================== *)

Inductive exn := KeyError | OverflowError | ValueError.

Inductive result (A : Type) :=
  | Ok (a : A)
  | Raise (e : exn).
Arguments Ok {A} a.
Arguments Raise {A} e.

#[global] Instance result_ret : MRet result := λ A a, Ok a.
#[global] Instance result_bind : MBind result := λ A B f r,
  match r with
  | Ok a => f a
  | Raise e => Raise e
  end.

(** The computation returned normally. *)
Definition succeeds {A : Type} (r : result A) : bool :=
  match r with
  | Ok _ => true
  | Raise _ => false
  end.

(** Monadic left fold: a [for] loop whose body may raise. *)
Fixpoint foldM {A S : Type} (body : A → S → result S) (l : list A) (s : S)
  : result S :=
  match l with
  | [] => Ok s
  | x :: l' => s' ← body x s; foldM body l' s'
  end.

(** [n] iterations of a loop body that may raise ([for _ in range(n)]). *)
Fixpoint iterM {S : Type} (n : nat) (body : S → result S) (s : S) : result S :=
  match n with
  | O => Ok s
  | S n' => s' ← body s; iterM n' body s'
  end.

(* ===================================================================== *)
(** * Python numbers: unbounded integers and binary64 floats *)
(* ===================================================================== *)

Definition prec : Z := 53.
Definition emax : Z := 1024.

Abbreviation float := spec_float (only parsing).

Definition float_add : float → float → float := SFadd prec emax.
Definition float_sub : float → float → float := SFsub prec emax.
Definition float_mul : float → float → float := SFmul prec emax.
Definition float_div : float → float → float := SFdiv prec emax.
Definition float_ltb : float → float → bool := SFltb.

(** The binary64 value nearest to [m * 2^e] (ties to even). *)
Definition float_round (m e : Z) : float := binary_normalize prec emax m e false.

(** [float(z)] for a Python int: correctly rounded, [OverflowError] when
    the rounded value does not fit. *)
Definition float_of_int (z : Z) : result float :=
  match float_round z 0 with
  | S754_infinity _ => Raise OverflowError
  | f => Ok f
  end.

(** A decimal literal [n/d] with [n] and [d] below [2^53]: the nearest
    binary64 value, obtained by one correctly rounded division. *)
Definition float_lit (n d : Z) : float :=
  float_div (float_round n 0) (float_round d 0).

(** The integer [m * 2^e] denotes when [e >= 0], and its quotient by
    [2^(-e)] truncated toward zero otherwise. *)
Definition trunc_scaled (m e : Z) : Z :=
  match e with
  | Zneg k => Z.quot m (2 ^ Zpos k)
  | _ => m * 2 ^ e
  end.

(** [int(f)]: truncation toward zero. *)
Definition int_of_float (f : float) : result Z :=
  match f with
  | S754_nan => Raise ValueError
  | S754_infinity _ => Raise OverflowError
  | S754_zero _ => Ok 0
  | S754_finite s m e => Ok (trunc_scaled (cond_Zopp s (Zpos m)) e)
  end.

(** [math.floor(f)]: rounding toward minus infinity (what the
    specification writes as [floor]). *)
Definition floor_of_float (f : float) : result Z :=
  match f with
  | S754_nan => Raise ValueError
  | S754_infinity _ => Raise OverflowError
  | S754_zero _ => Ok 0
  | S754_finite s m e =>
      Ok (match e with
          | Zneg k => cond_Zopp s (Zpos m) / 2 ^ Zpos k
          | _ => cond_Zopp s (Zpos m) * 2 ^ e
          end)
  end.

(** Exact comparison of a float with an integer (Python compares the
    mathematical values, without converting the integer). *)
Definition float_compare_int (f : float) (z : Z) : option comparison :=
  match f with
  | S754_nan => None
  | S754_infinity s => Some (if s then Lt else Gt)
  | S754_zero _ => Some (0 ?= z)
  | S754_finite s m e =>
      Some (match e with
            | Zneg k => cond_Zopp s (Zpos m) ?= z * 2 ^ Zpos k
            | _ => cond_Zopp s (Zpos m) * 2 ^ e ?= z
            end)
  end.

(** A value of a numeric attribute: [int] or [float]. *)
Inductive pynum :=
  | PInt (z : Z)
  | PFloat (f : float).

Definition to_float (a : pynum) : result float :=
  match a with
  | PInt z => float_of_int z
  | PFloat f => Ok f
  end.

Definition py_add (a b : pynum) : result pynum :=
  match a, b with
  | PInt x, PInt y => Ok (PInt (x + y))
  | _, _ => x ← to_float a; y ← to_float b; Ok (PFloat (float_add x y))
  end.

Definition py_sub (a b : pynum) : result pynum :=
  match a, b with
  | PInt x, PInt y => Ok (PInt (x - y))
  | _, _ => x ← to_float a; y ← to_float b; Ok (PFloat (float_sub x y))
  end.

Definition py_mul (a b : pynum) : result pynum :=
  match a, b with
  | PInt x, PInt y => Ok (PInt (x * y))
  | _, _ => x ← to_float a; y ← to_float b; Ok (PFloat (float_mul x y))
  end.

(** [a >= z] for an integer [z]. *)
Definition py_ge_int (a : pynum) (z : Z) : bool :=
  match a with
  | PInt x => z <=? x
  | PFloat f =>
      match float_compare_int f z with
      | Some Eq | Some Gt => true
      | _ => false
      end
  end.

(** [a < z] for an integer [z]. *)
Definition py_lt_int (a : pynum) (z : Z) : bool :=
  match a with
  | PInt x => x <? z
  | PFloat f =>
      match float_compare_int f z with
      | Some Lt => true
      | _ => false
      end
  end.

(** [int(a)]. *)
Definition py_int (a : pynum) : result Z :=
  match a with
  | PInt x => Ok x
  | PFloat f => int_of_float f
  end.

(** [math.floor(a)]. *)
Definition py_floor (a : pynum) : result Z :=
  match a with
  | PInt x => Ok x
  | PFloat f => floor_of_float f
  end.

(* ===================================================================== *)
(** * Dictionaries with string keys (insertion ordered) *)
(* ===================================================================== *)

Abbreviation dict V := (list (string * V)) (only parsing).

Fixpoint dict_get {V : Type} (d : dict V) (k : string) : result V :=
  match d with
  | [] => Raise KeyError
  | (k', v) :: d' => if decide (k = k') then Ok v else dict_get d' k
  end.

(** [d[k] = v]: overwrite in place, or append a new entry. *)
Fixpoint dict_set {V : Type} (d : dict V) (k : string) (v : V) : dict V :=
  match d with
  | [] => [(k, v)]
  | (k', v') :: d' =>
      if decide (k = k') then (k, v) :: d' else (k', v') :: dict_set d' k v
  end.

Definition dict_keys {V : Type} (d : dict V) : list string := d.*1.
Definition dict_values {V : Type} (d : dict V) : list V := d.*2.

(** [sum(xs)] on integers. *)
Definition sum_list (xs : list Z) : Z := foldr Z.add 0 xs.

(* ===================================================================== *)
(** * Module constants *)
(* ===================================================================== *)

Definition INITIAL_CHEMICALS : dict Z :=
  [("hydrogen"%string, 1000); ("sulfur"%string, 800); ("methane"%string, 500)].

Definition ENERGY_YIELD : dict Z :=
  [("hydrogen"%string, 10); ("sulfur"%string, 8); ("methane"%string, 5)].

(* ===================================================================== *)
(** * Species objects and the heap *)
(* ===================================================================== *)

(** Object identity: a reference into the heap. *)
Abbreviation ref := nat (only parsing).

Record Species := mkSpecies {
  name : string;
  energy_efficiency : float;
  reproduction_rate : float;
  predation_rate : float;
  chemical_affinity : string;
  population : Z;
  energy : pynum;
  symbiosis : option ref
}.

#[global] Instance Species_inhabited : Inhabited Species :=
  populate (mkSpecies "" (S754_zero false) (S754_zero false) (S754_zero false)
                      "" 0 (PInt 0) None).

Abbreviation heap := (gmap ref Species) (only parsing).

Definition set_population (v : Z) (s : Species) : Species :=
  mkSpecies (name s) (energy_efficiency s) (reproduction_rate s)
            (predation_rate s) (chemical_affinity s) v (energy s) (symbiosis s).

Definition set_energy (v : pynum) (s : Species) : Species :=
  mkSpecies (name s) (energy_efficiency s) (reproduction_rate s)
            (predation_rate s) (chemical_affinity s) (population s) v (symbiosis s).

Definition set_energy_efficiency (v : float) (s : Species) : Species :=
  mkSpecies (name s) v (reproduction_rate s)
            (predation_rate s) (chemical_affinity s) (population s) (energy s)
            (symbiosis s).

Definition set_reproduction_rate (v : float) (s : Species) : Species :=
  mkSpecies (name s) (energy_efficiency s) v
            (predation_rate s) (chemical_affinity s) (population s) (energy s)
            (symbiosis s).

Definition set_predation_rate (v : float) (s : Species) : Species :=
  mkSpecies (name s) (energy_efficiency s) (reproduction_rate s)
            v (chemical_affinity s) (population s) (energy s) (symbiosis s).

(* ===================================================================== *)
(** * Species behaviours *)
(* ===================================================================== *)

(** [Species.consume_chemicals(self, environment)]. *)
Definition consume_chemicals (self : ref) (environment : dict Z) (h : heap)
  : result (heap * dict Z) :=
  let chemical := chemical_affinity (h !!! self) in
  avail ← dict_get environment chemical;
  if 0 <? avail then
    yield ← dict_get ENERGY_YIELD chemical;
    energy_gained ←
      py_mul (PInt (Z.min avail (population (h !!! self)) * yield))
             (PFloat (energy_efficiency (h !!! self)));
    let environment' :=
      dict_set environment chemical
               (avail - Z.min avail (population (h !!! self))) in
    e' ← py_add (energy (h !!! self)) energy_gained;
    Ok (<[self := set_energy e' (h !!! self)]> h, environment')
  else Ok (h, environment).

(** [Species.reproduce(self)]. *)
Definition reproduce (self : ref) (h : heap) : result heap :=
  let energy_needed := population (h !!! self) * 2 in
  if py_ge_int (energy (h !!! self)) energy_needed then
    product ← py_mul (PInt (population (h !!! self)))
                     (PFloat (reproduction_rate (h !!! self)));
    offspring ← py_int product;
    let h1 := <[self := set_population (population (h !!! self) + offspring)
                                       (h !!! self)]> h in
    e' ← py_sub (energy (h1 !!! self)) (PInt energy_needed);
    Ok (<[self := set_energy e' (h1 !!! self)]> h1)
  else Ok h.

(** [Species.predation(self, prey)]; [self] and [prey] may be the same
    object, so the prey's population is read again after the predator's
    has been written. *)
Definition predation (self prey : ref) (h : heap) : result heap :=
  if 0 <? population (h !!! prey) then
    product ← py_mul (PInt (population (h !!! prey)))
                     (PFloat (predation_rate (h !!! self)));
    prey_loss ← py_int product;
    let h1 := <[self := set_population (population (h !!! self) + prey_loss `div` 2)
                                       (h !!! self)]> h in
    Ok (<[prey := set_population (population (h1 !!! prey) - prey_loss)
                                 (h1 !!! prey)]> h1)
  else Ok h.

(** [Species.symbiotic_interaction(self)]; the literal [0.1]. *)
Definition symbiotic_interaction (self : ref) (h : heap) : result heap :=
  match symbiosis (h !!! self) with
  | Some partner =>
      product ← py_mul (PInt (population (h !!! partner)))
                       (PFloat (float_lit 1 10));
      gain ← py_int product;
      e' ← py_add (energy (h !!! self)) (PInt gain);
      Ok (<[self := set_energy e' (h !!! self)]> h)
  | None => Ok h
  end.

(* ===================================================================== *)
(** * The pseudo-random generator: an arbitrary tape of raw draws *)
(* ===================================================================== *)

Record rng := mkRng { tape : nat → Z; cursor : nat }.

Definition draw (g : rng) : Z * rng :=
  (tape g (cursor g), mkRng (tape g) (S (cursor g))).

(** [random.randint(a, b)]: an integer of [[a, b]]. *)
Definition randint (a b : Z) (g : rng) : Z * rng :=
  let '(raw, g') := draw g in (a + raw `mod` (b - a + 1), g').

(** [random.random()]: [k / 2^53] for some [0 <= k < 2^53]. *)
Definition random (g : rng) : float * rng :=
  let '(raw, g') := draw g in (float_round (raw `mod` 2 ^ 53) (-53), g').

(** [random.uniform(a, b)], which is [a + (b - a) * random()]. *)
Definition uniform (a b : float) (g : rng) : float * rng :=
  let '(u, g') := random g in
  (float_add a (float_mul (float_sub b a) u), g').

Inductive trait := Energy_efficiency | Reproduction_rate | Predation_rate.

(** [random.choice] over the three trait names. *)
Definition choice_trait (g : rng) : trait * rng :=
  let '(raw, g') := draw g in
  (match raw `mod` 3 with
   | 0 => Energy_efficiency
   | 1 => Reproduction_rate
   | _ => Predation_rate
   end, g').

(** [Species.evolve(self)] (the printed message is not modelled). *)
Definition evolve (self : ref) (hg : heap * rng) : heap * rng :=
  let '(h, g) := hg in
  let '(mutation_chance, g1) := random g in
  if float_ltb mutation_chance (float_lit 1 10) then
    let '(tr, g2) := choice_trait g1 in
    let '(mutation_factor, g3) := uniform (float_lit 9 10) (float_lit 11 10) g2 in
    let s := h !!! self in
    let s' :=
      match tr with
      | Energy_efficiency =>
          set_energy_efficiency (float_mul (energy_efficiency s) mutation_factor) s
      | Reproduction_rate =>
          set_reproduction_rate (float_mul (reproduction_rate s) mutation_factor) s
      | Predation_rate =>
          set_predation_rate (float_mul (predation_rate s) mutation_factor) s
      end in
    (<[self := s']> h, g3)
  else (h, g1).

(* ===================================================================== *)
(** * The environment *)
(* ===================================================================== *)

(** [Environment.replenish_chemicals(self)]: every entry of the
    dictionary, in order, receives its own draw. *)
Fixpoint replenish_chemicals (chemicals : dict Z) (g : rng) : dict Z * rng :=
  match chemicals with
  | [] => ([], g)
  | (chemical, q) :: rest =>
      let '(r, g1) := randint 10 50 g in
      let '(rest', g2) := replenish_chemicals rest g1 in
      ((chemical, q + r) :: rest', g2)
  end.

(* ===================================================================== *)
(** * The simulation loop *)
(* ===================================================================== *)

(** Everything the loop reads and writes: the species objects, the
    dictionary held by the [Environment] object, the generator, and the
    two histories. *)
Record world := mkWorld {
  objects : heap;
  chemicals : dict Z;
  generator : rng;
  population_history : dict (list Z);
  chemical_history : list Z
}.

(** [{species.name: [] for species in species_list}]. *)
Definition init_population_history (species_list : list ref) (h : heap)
  : dict (list Z) :=
  foldl (λ d species, dict_set d (name (h !!! species)) []) [] species_list.

(** Body of the first inner loop (lines 85-97) for one species. *)
Definition species_turn (species : ref) (w : world) : result world :=
  '(h1, env1) ← consume_chemicals species (chemicals w) (objects w);
  h2 ← symbiotic_interaction species h1;
  h3 ← reproduce species h2;
  series ← dict_get (population_history w) (name (h3 !!! species));
  Ok (mkWorld h3 env1 (generator w)
        (dict_set (population_history w) (name (h3 !!! species))
                  (series ++ [population (h3 !!! species)]))
        (chemical_history w)).

(** The predation loop (lines 100-104): [species_list[i]] preys on
    [species_list[i + 1]] for every [i] up to [len - 2]. *)
Fixpoint predation_pass (species_list : list ref) (h : heap) : result heap :=
  match species_list with
  | predator :: ((prey :: _) as rest) =>
      h' ← predation predator prey h; predation_pass rest h'
  | _ => Ok h
  end.

(** The evolve loop (lines 107-108). *)
Definition evolve_pass (species_list : list ref) (hg : heap * rng) : heap * rng :=
  foldl (λ acc species, evolve species acc) hg species_list.

(** One iteration of the generation loop (lines 79-112). *)
Definition generation (species_list : list ref) (w : world) : result world :=
  let total_chemicals := sum_list (dict_values (chemicals w)) in
  let w0 := mkWorld (objects w) (chemicals w) (generator w)
                    (population_history w)
                    (chemical_history w ++ [total_chemicals]) in
  w1 ← foldM species_turn species_list w0;
  h2 ← predation_pass species_list (objects w1);
  let '(h3, g3) := evolve_pass species_list (h2, generator w1) in
  let '(env4, g4) := replenish_chemicals (chemicals w1) g3 in
  Ok (mkWorld h3 env4 g4 (population_history w1) (chemical_history w1)).

(** The state in which the generation loop starts. *)
Definition initial_world (species_list : list ref) (h : heap)
    (environment : dict Z) (g : rng) : world :=
  mkWorld h environment g (init_population_history species_list h) [].

(** The whole loop, with the final state of the mutated objects. *)
Definition run_ecosystem (species_list : list ref) (h : heap)
    (environment : dict Z) (g : rng) (generations : Z) : result world :=
  iterM (Z.to_nat generations) (generation species_list)
        (initial_world species_list h environment g).

(** [simulate_ecosystem(species_list, environment, generations)]. *)
Definition simulate_ecosystem (species_list : list ref) (h : heap)
    (environment : dict Z) (g : rng) (generations : Z)
  : result (dict (list Z) * list Z) :=
  w ← run_ecosystem species_list h environment g generations;
  Ok (population_history w, chemical_history w).

(* ===================================================================== *)
(** * The example set-up of the script (lines 135-140) *)
(* ===================================================================== *)

Definition example_species (populations : Z * Z * Z) : heap :=
  let '(pa, pb, pc) := populations in
  <[0%nat := mkSpecies "Chemosynth A" (float_lit 8 10) (float_lit 5 100)
                       (float_lit 2 100) "hydrogen" pa (PInt 0) None]>
  (<[1%nat := mkSpecies "Chemosynth B" (float_lit 7 10) (float_lit 4 100)
                        (float_lit 3 100) "sulfur" pb (PInt 0) (Some 0%nat)]>
  (<[2%nat := mkSpecies "Chemosynth C" (float_lit 6 10) (float_lit 6 100)
                        (float_lit 4 100) "methane" pc (PInt 0) None]> ∅)).

Definition example_list : list ref := [0%nat; 1%nat; 2%nat].

(** A generator whose raw draws are all [raw]. *)
Definition constant_rng (raw : Z) : rng := mkRng (λ _, raw) 0.

(** A heap with one species, at reference [0]. *)
Definition single_species (s : Species) : heap := <[0%nat := s]> ∅.

(** A heap with two species: a predator at [0] and a prey at [1]. *)
Definition predator_and_prey (predator prey : Species) : heap :=
  <[0%nat := predator]> (<[1%nat := prey]> ∅).

(** "Chemosynth A" with a given population and energy reserve. *)
Definition chemosynth_a (pop : Z) (e : pynum) : Species :=
  mkSpecies "Chemosynth A" (float_lit 8 10) (float_lit 5 100) (float_lit 2 100)
            "hydrogen" pop e None.

(** A species that removes the whole prey population ([predation_rate = 1.0]). *)
Definition voracious (pop : Z) : Species :=
  mkSpecies "Predator" (float_lit 8 10) (float_lit 5 100) (float_round 1 0)
            "hydrogen" pop (PInt 0) None.

(* ===================================================================== *)
(** * Predicates of the data model *)
(* ===================================================================== *)

(** [f] is a binary64 value (every Python float is). *)
Definition float_valid (f : float) : Prop := valid_binary prec emax f = true.

Definition pynum_valid (a : pynum) : Prop :=
  match a with
  | PInt _ => True
  | PFloat f => float_valid f
  end.

(** [f] is a real number: neither an infinity nor a NaN. *)
Definition float_finite (f : float) : bool :=
  match f with
  | S754_zero _ | S754_finite _ _ _ => true
  | _ => false
  end.

(** [f >= z], [f > z] and [f <= z] for an integer [z]. *)
Definition float_ge_int (f : float) (z : Z) : bool :=
  match float_compare_int f z with
  | Some Eq | Some Gt => true
  | _ => false
  end.

Definition float_gt_int (f : float) (z : Z) : bool :=
  match float_compare_int f z with
  | Some Gt => true
  | _ => false
  end.

Definition float_le_int (f : float) (z : Z) : bool :=
  match float_compare_int f z with
  | Some Eq | Some Lt => true
  | _ => false
  end.

(** [f] is not a NaN and its sign bit is clear. *)
Definition sign_clear (f : float) : Prop :=
  match f with
  | S754_zero false | S754_infinity false | S754_finite false _ _ => True
  | _ => False
  end.

(** [m1 * 2^e1 <= m2 * 2^e2], stated on integers by scaling both sides
    to the smaller of the two exponents. *)
Definition mag_le (m1 e1 m2 e2 : Z) : Prop :=
  m1 * 2 ^ (e1 - Z.min e1 e2) ≤ m2 * 2 ^ (e2 - Z.min e1 e2).

(** [r] is a real number with [0 <= r <= 1]. *)
Definition rate_in_unit_interval (r : float) : Prop :=
  float_valid r ∧ float_ge_int r 0 = true ∧ float_le_int r 1 = true.

(** [r] is a real number with [r > 0]. *)
Definition rate_positive (r : float) : Prop :=
  float_valid r ∧ float_finite r = true ∧ float_gt_int r 0 = true.

(** Population and energy reserve are not negative. *)
Definition nonneg_state (s : Species) : Prop :=
  0 ≤ population s ∧ py_ge_int (energy s) 0 = true.

(** The species at [self] is as the data model describes it: population
    and energy are not negative, the predation rate lies in [[0, 1]], the
    reproduction rate and the energy efficiency are positive, and the
    symbiosis partner, if any, has a non-negative population. *)
Record species_ok (h : heap) (self : ref) : Prop := mk_species_ok {
  ok_state : nonneg_state (h !!! self);
  ok_energy_valid : pynum_valid (energy (h !!! self));
  ok_predation_rate : rate_in_unit_interval (predation_rate (h !!! self));
  ok_reproduction_rate : rate_positive (reproduction_rate (h !!! self));
  ok_energy_efficiency : rate_positive (energy_efficiency (h !!! self));
  ok_partner : ∀ partner, symbiosis (h !!! self) = Some partner →
                          0 ≤ population (h !!! partner)
}.

(** Number of occurrences of [n] in a list of names. *)
Definition occurrences (n : string) (names : list string) : nat :=
  length (filter (λ x, x = n) names).

(** Length of the series recorded under [n] (0 when there is none). *)
Definition series_length (history : dict (list Z)) (n : string) : nat :=
  match dict_get history n with
  | Ok series => length series
  | Raise _ => 0%nat
  end.

(** Every object keeps its name. *)
Definition same_names (h h' : heap) : Prop :=
  ∀ r : ref, name (h' !!! r) = name (h !!! r).

(** Every chemical quantity is non-negative. *)
Definition env_nonneg (environment : dict Z) : Prop :=
  Forall (λ q, 0 ≤ q) (dict_values environment).

(** The names of the listed species, in list order. *)
Definition names_of (species_list : list ref) (h : heap) : list string :=
  (λ species, name (h !!! species)) <$> species_list.

(* ===================================================================== *)
(** * Construction of species, the script, and auxiliary notions *)
(* ===================================================================== *)

(** [Species.__init__] (lines 11-19): the initial population is drawn
    from the generator, the energy reserve starts at the int [0]. *)
Definition Species_init (name : string)
    (energy_efficiency reproduction_rate predation_rate : float)
    (chemical_affinity : string) (symbiosis : option ref) (g : rng)
  : Species * rng :=
  let '(initial, g') := randint 50 150 g in
  (mkSpecies name energy_efficiency reproduction_rate predation_rate
             chemical_affinity initial (PInt 0) symbiosis, g').

(** The three species of the script (lines 135-137), built in this
    order on one generator; "Chemosynth B" has "Chemosynth A" as its
    partner. *)
Definition script_species (g : rng) : heap * rng :=
  let '(species_a, g1) :=
    Species_init "Chemosynth A" (float_lit 8 10) (float_lit 5 100)
                 (float_lit 2 100) "hydrogen" None g in
  let '(species_b, g2) :=
    Species_init "Chemosynth B" (float_lit 7 10) (float_lit 4 100)
                 (float_lit 3 100) "sulfur" (Some 0%nat) g1 in
  let '(species_c, g3) :=
    Species_init "Chemosynth C" (float_lit 6 10) (float_lit 6 100)
                 (float_lit 4 100) "methane" None g2 in
  (<[0%nat := species_a]> (<[1%nat := species_b]> (<[2%nat := species_c]> ∅)),
   g3).

(** Lines 139-144 of the script: the simulation of the three species
    on the initial chemicals for 100 generations. *)
Definition script_run (g : rng) : result (dict (list Z) * list Z) :=
  let '(h, g') := script_species g in
  simulate_ecosystem example_list h INITIAL_CHEMICALS g' 100.

(** Sum of the populations of the listed species. *)
Definition total_population (species_list : list ref) (h : heap) : Z :=
  sum_list ((λ species, population (h !!! species)) <$> species_list).

(** Name, chemical and partner of every object are as before. *)
Definition same_identity (h h' : heap) : Prop :=
  ∀ r : ref, name (h' !!! r) = name (h !!! r)
           ∧ chemical_affinity (h' !!! r) = chemical_affinity (h !!! r)
           ∧ symbiosis (h' !!! r) = symbiosis (h !!! r).

#[global] Instance trait_eq_dec : EqDecision trait.
Proof. solve_decision. Defined.

(** The rate a trait names, and its update. *)
Definition rate_of (tr : trait) (s : Species) : float :=
  match tr with
  | Energy_efficiency => energy_efficiency s
  | Reproduction_rate => reproduction_rate s
  | Predation_rate => predation_rate s
  end.

Definition set_rate (tr : trait) (v : float) (s : Species) : Species :=
  match tr with
  | Energy_efficiency => set_energy_efficiency v s
  | Reproduction_rate => set_reproduction_rate v s
  | Predation_rate => set_predation_rate v s
  end.

(** [lo <= f <= hi] for positive binary64 numbers, compared as the
    real numbers they denote. *)
Definition float_between (lo hi f : float) : Prop :=
  match lo, hi, f with
  | S754_finite false ml el, S754_finite false mh eh, S754_finite false m e =>
      mag_le (Zpos ml) el (Zpos m) e ∧ mag_le (Zpos m) e (Zpos mh) eh
  | _, _, _ => False
  end.

(* ===================================================================== *)
(** * Facts about binary64 rounding *)
(* ===================================================================== *)

Section Rounding_facts.

Local Abbreviation fexp := (SpecFloat.fexp prec emax).
Local Abbreviation digits p := (Zpos (digits2_pos p)).

Lemma digits2_pos_bounds (p : positive) :
  2 ^ (digits p - 1) ≤ Zpos p < 2 ^ digits p.
Proof.
  induction p as [p IH | p IH | ]; cbn [digits2_pos].
  - rewrite Pos2Z.inj_succ.
    replace (Z.succ (digits p) - 1) with (Z.succ (digits p - 1)) by lia.
    rewrite !Z.pow_succ_r by lia. lia.
  - rewrite Pos2Z.inj_succ.
    replace (Z.succ (digits p) - 1) with (Z.succ (digits p - 1)) by lia.
    rewrite !Z.pow_succ_r by lia. lia.
  - cbn. lia.
Qed.

Lemma fexp_mono (a b : Z) : a ≤ b → fexp a ≤ fexp b.
Proof. unfold SpecFloat.fexp. lia. Qed.

Lemma fexp_ge_emin (a : Z) : SpecFloat.emin prec emax ≤ fexp a.
Proof. unfold SpecFloat.fexp. lia. Qed.

(** Comparing magnitudes [m * 2^e] through their bit lengths. *)
Lemma digits_le_of_scaled_le (p q : positive) (ep eq K : Z) :
  K ≤ ep → K ≤ eq →
  Zpos p * 2 ^ (ep - K) ≤ Zpos q * 2 ^ (eq - K) →
  digits p + ep ≤ digits q + eq.
Proof.
  intros Hp Hq Hle.
  pose proof (digits2_pos_bounds p) as [Hlo _].
  pose proof (digits2_pos_bounds q) as [_ Hhi].
  assert (H1 : 2 ^ (digits p - 1 + (ep - K)) ≤ Zpos p * 2 ^ (ep - K)).
  { rewrite Z.pow_add_r by lia. apply Z.mul_le_mono_nonneg_r; [|done].
    apply Z.pow_nonneg; lia. }
  assert (H2 : Zpos q * 2 ^ (eq - K) < 2 ^ (digits q + (eq - K))).
  { rewrite Z.pow_add_r by lia. apply Z.mul_lt_mono_pos_r; [|done].
    apply Z.pow_pos_nonneg; lia. }
  assert (H3 : 2 ^ (digits p - 1 + (ep - K)) < 2 ^ (digits q + (eq - K))) by lia.
  apply Z.pow_lt_mono_r_iff in H3; lia.
Qed.

(** The same inequality read at another common scale. *)
Lemma scaled_le_rescale (a b ea eb K K' : Z) :
  K ≤ ea → K ≤ eb → K' ≤ ea → K' ≤ eb →
  a * 2 ^ (ea - K) ≤ b * 2 ^ (eb - K) →
  a * 2 ^ (ea - K') ≤ b * 2 ^ (eb - K').
Proof.
  intros Ha Hb Ha' Hb' Hle.
  destruct (Z.le_ge_cases K K') as [HK | HK].
  - (* dividing both sides by 2^(K' - K) *)
    replace (ea - K) with ((ea - K') + (K' - K)) in Hle by lia.
    replace (eb - K) with ((eb - K') + (K' - K)) in Hle by lia.
    rewrite !Z.pow_add_r, !Z.mul_assoc in Hle by lia.
    apply Z.mul_le_mono_pos_r in Hle; [done|].
    apply Z.pow_pos_nonneg; lia.
  - replace (ea - K') with ((ea - K) + (K - K')) by lia.
    replace (eb - K') with ((eb - K) + (K - K')) by lia.
    rewrite !Z.pow_add_r, !Z.mul_assoc by lia.
    apply Z.mul_le_mono_nonneg_r; [|done].
    apply Z.pow_nonneg; lia.
Qed.

Lemma iter_pos_nat {A : Type} (f : A → A) (n : positive) (x : A) :
  SpecFloat.iter_pos f n x = Nat.iter (Pos.to_nat n) f x.
Proof.
  revert x. induction n as [n IH | n IH | ]; intros x; cbn [SpecFloat.iter_pos].
  - rewrite Pos2Nat.inj_xI, !IH.
    replace (S (2 * Pos.to_nat n)) with (Pos.to_nat n + S (Pos.to_nat n))%nat by lia.
    rewrite Nat.iter_add, Nat.iter_succ_r. done.
  - rewrite Pos2Nat.inj_xO, !IH.
    replace (2 * Pos.to_nat n)%nat with (Pos.to_nat n + Pos.to_nat n)%nat by lia.
    rewrite Nat.iter_add. done.
  - done.
Qed.

Lemma shr_1_spec (mrs : shr_record) :
  0 ≤ shr_m mrs →
  shr_m (shr_1 mrs) = shr_m mrs `div` 2
  ∧ shr_r (shr_1 mrs) = Z.odd (shr_m mrs)
  ∧ shr_s (shr_1 mrs) = shr_r mrs || shr_s mrs.
Proof.
  destruct mrs as [m r s]; cbn [shr_m shr_r shr_s]. intros Hm.
  rewrite <- Z.div2_div.
  destruct m as [ | [p | p | ] | p]; cbn; first [done | lia].
Qed.

(** [k] one-bit shifts divide the mantissa by [2^k]; starting from an
    exact location, the location stays exact when nothing is lost. *)
Lemma shr_iter_spec (m : Z) (k : nat) :
  0 ≤ m →
  let mrs := Nat.iter k shr_1 (Build_shr_record m false false) in
  shr_m mrs = m `div` 2 ^ Z.of_nat k
  ∧ (m `mod` 2 ^ Z.of_nat k = 0 → shr_r mrs = false ∧ shr_s mrs = false).
Proof.
  intros Hm. induction k as [ | k [IHm IHx]]; cbn zeta.
  - cbn. rewrite Z.div_1_r. done.
  - rewrite Nat.iter_succ.
    set (mrs := Nat.iter k shr_1 _) in *.
    assert (Hpos : 0 < 2 ^ Z.of_nat k) by (apply Z.pow_pos_nonneg; lia).
    assert (Hk : 0 ≤ shr_m mrs) by (rewrite IHm; apply Z.div_pos; lia).
    destruct (shr_1_spec mrs Hk) as (Em & Er & Es).
    rewrite Nat2Z.inj_succ, Z.pow_succ_r by lia.
    split.
    + rewrite Em, IHm, Z.div_div by lia. f_equal. lia.
    + intros Hmod.
      apply Z.div_exact in Hmod; [|lia].
      set (q := m `div` (2 * 2 ^ Z.of_nat k)) in *.
      assert (Hdiv : m `div` 2 ^ Z.of_nat k = 2 * q).
      { symmetry. apply Z.div_unique_exact; [lia|]. rewrite Hmod at 1. ring. }
      assert (Hmod' : m `mod` 2 ^ Z.of_nat k = 0).
      { apply Z.div_exact; [lia|]. rewrite Hdiv. rewrite Hmod at 1. ring. }
      destruct (IHx Hmod') as [Hr Hs].
      rewrite Er, Es, Hr, Hs, IHm, Hdiv.
      rewrite Z.odd_mul. done.
Qed.

Lemma round_nearest_even_bounds (mrs : shr_record) :
  let m1 := round_nearest_even (shr_m mrs) (loc_of_shr_record mrs) in
  shr_m mrs ≤ m1 ≤ shr_m mrs + 1
  ∧ (shr_r mrs = false → shr_s mrs = false → m1 = shr_m mrs).
Proof.
  destruct mrs as [m [|] [|]]; cbn; try destruct (Z.even m); split; (lia || done).
Qed.

(** What [shr] does to an exactly located non-negative mantissa. *)
Lemma shr_exact_spec (m e n : Z) :
  0 ≤ m →
  let '(mrs, e') := shr (Build_shr_record m false false) e n in
  e' = e + Z.max n 0
  ∧ shr_m mrs = m `div` 2 ^ Z.max n 0
  ∧ (m `mod` 2 ^ Z.max n 0 = 0 → shr_r mrs = false ∧ shr_s mrs = false).
Proof.
  intros Hm. destruct n as [ | n | n]; cbn [shr].
  - rewrite Z.add_0_r. cbn. rewrite Z.div_1_r. done.
  - rewrite iter_pos_nat.
    destruct (shr_iter_spec m (Pos.to_nat n) Hm) as [E1 E2].
    rewrite positive_nat_Z in E1, E2.
    replace (Z.max (Zpos n) 0) with (Zpos n) by lia. done.
  - replace (Z.max (Zneg n) 0) with 0 by lia.
    rewrite Z.add_0_r. cbn. rewrite Z.div_1_r. done.
Qed.

Lemma shr_fexp_exact_spec (m e : Z) :
  0 ≤ m →
  let n := Z.max (fexp (Zdigits2 m + e) - e) 0 in
  let '(mrs, e') := shr_fexp prec emax m e loc_Exact in
  e' = e + n
  ∧ shr_m mrs = m `div` 2 ^ n
  ∧ (m `mod` 2 ^ n = 0 → shr_r mrs = false ∧ shr_s mrs = false).
Proof.
  intros Hm. unfold shr_fexp. cbn [shr_record_of_loc].
  apply shr_exact_spec. done.
Qed.

Lemma bounded_spec (m : positive) (e : Z) :
  bounded prec emax m e = true →
  fexp (digits m + e) = e ∧ e ≤ emax - prec.
Proof.
  unfold bounded, canonical_mantissa.
  rewrite andb_true_iff, Z.eqb_eq, Z.leb_le. done.
Qed.

(** Rounding to nearest never crosses a representable number: when the
    exact magnitude [p * 2^ex] is at most the binary64 magnitude
    [my * 2^ey], so is its rounded value, which therefore is finite.
    Magnitudes are compared at a common scale [2^K]. *)
Lemma binary_round_aux_upper (s : bool) (p : positive) (ex : Z)
    (my : positive) (ey K : Z) :
  ex ≤ fexp (digits p + ex) →
  bounded prec emax my ey = true →
  K ≤ ex → K ≤ ey →
  Zpos p * 2 ^ (ex - K) ≤ Zpos my * 2 ^ (ey - K) →
  binary_round_aux prec emax s (Zpos p) ex loc_Exact = S754_zero s
  ∨ ∃ m e,
      binary_round_aux prec emax s (Zpos p) ex loc_Exact = S754_finite s m e
      ∧ ex ≤ e
      ∧ Zpos m * 2 ^ (e - K) ≤ Zpos my * 2 ^ (ey - K).
Proof.
  intros Hfine Hbnd HKx HKy Hle.
  destruct (bounded_spec _ _ Hbnd) as [Hcan Hmax].
  pose proof (digits_le_of_scaled_le p my ex ey K HKx HKy Hle) as Hdig.
  unfold binary_round_aux.
  pose proof (shr_fexp_exact_spec (Zpos p) ex ltac:(lia)) as H1.
  cbn [Zdigits2] in H1.
  destruct (shr_fexp prec emax (Zpos p) ex loc_Exact) as [mrs1 e1].
  set (n := Z.max (fexp (digits p + ex) - ex) 0) in H1.
  destruct H1 as (He1 & Hm1 & Hx1).
  assert (Hn : n = fexp (digits p + ex) - ex) by lia.
  assert (He1y : e1 ≤ ey).
  { rewrite He1, Hn, <- Hcan. pose proof (fexp_mono _ _ Hdig). lia. }
  pose proof (round_nearest_even_bounds mrs1) as [Hb Hexact].
  set (m1 := round_nearest_even (shr_m mrs1) (loc_of_shr_record mrs1)) in *.
  assert (H2n : 0 < 2 ^ n) by (apply Z.pow_pos_nonneg; lia).
  assert (Hq0 : 0 ≤ shr_m mrs1) by (rewrite Hm1; apply Z.div_pos; lia).
  (* the bound, read at the scale of the rounded mantissa *)
  set (Ym := Zpos my * 2 ^ (ey - e1)).
  assert (HY : Zpos my * 2 ^ (ey - K) = Ym * 2 ^ (e1 - K)).
  { unfold Ym. rewrite <- Z.mul_assoc, <- Z.pow_add_r by lia. f_equal. f_equal. lia. }
  assert (HpY : Zpos p ≤ 2 ^ n * Ym).
  { rewrite HY in Hle.
    replace (e1 - K) with (n + (ex - K)) in Hle by lia.
    rewrite Z.pow_add_r, Z.mul_assoc in Hle by lia.
    apply Z.mul_le_mono_pos_r in Hle; [lia|].
    apply Z.pow_pos_nonneg; lia. }
  assert (Hm1Y : m1 ≤ Ym).
  { pose proof (Z.div_mod (Zpos p) (2 ^ n) ltac:(lia)) as Hdm.
    pose proof (Z.mod_pos_bound (Zpos p) (2 ^ n) H2n) as Hmb.
    rewrite <- Hm1 in Hdm.
    destruct (decide (Zpos p `mod` 2 ^ n = 0)) as [Hz | Hnz].
    - destruct (Hx1 Hz) as [Hr Hs]. rewrite (Hexact Hr Hs). nia.
    - assert (shr_m mrs1 < Ym) by nia. lia. }
  assert (Hm1K : m1 * 2 ^ (e1 - K) ≤ Zpos my * 2 ^ (ey - K)).
  { rewrite HY. apply Z.mul_le_mono_nonneg_r; [|done]. apply Z.pow_nonneg; lia. }
  pose proof (shr_fexp_exact_spec m1 e1 ltac:(lia)) as H2.
  destruct (shr_fexp prec emax m1 e1 loc_Exact) as [mrs2 e2].
  set (j := Z.max (fexp (Zdigits2 m1 + e1) - e1) 0) in H2.
  destruct H2 as (He2 & Hm2 & _).
  assert (H2j : 0 < 2 ^ j) by (apply Z.pow_pos_nonneg; lia).
  rewrite Hm2.
  destruct (m1 `div` 2 ^ j) as [ | p2 | p2] eqn:Ediv.
  - by left.
  - right.
    assert (Hm1pos : 0 < m1).
    { destruct (decide (m1 = 0)) as [-> | ?]; [|lia]. by rewrite Z.div_0_l in Ediv by lia. }
    destruct m1 as [ | p1 | ]; try lia.
    cbn [Zdigits2] in j.
    assert (Hdig1 : digits p1 + e1 ≤ digits my + ey).
    { apply (digits_le_of_scaled_le p1 my e1 ey K); lia. }
    assert (He2y : e2 ≤ ey).
    { pose proof (fexp_mono _ _ Hdig1). lia. }
    replace (e2 <=? emax - prec) with true by (symmetry; apply Z.leb_le; lia).
    exists p2, e2. split; [done|]. split; [lia|].
    etrans; [|exact Hm1K].
    replace (e2 - K) with (j + (e1 - K)) by lia.
    rewrite Z.pow_add_r, Z.mul_assoc by lia.
    apply Z.mul_le_mono_nonneg_r; [apply Z.pow_nonneg; lia|].
    rewrite <- Ediv. rewrite Z.mul_comm. apply Z.mul_div_le. lia.
  - exfalso.
    assert (0 ≤ m1 `div` 2 ^ j) by (apply Z.div_pos; lia). lia.
Qed.

(** The sign of a rounded magnitude is the sign that was asked for. *)
Lemma binary_round_aux_sign (s : bool) (p : positive) (ex : Z) :
  match binary_round_aux prec emax s (Zpos p) ex loc_Exact with
  | S754_zero s' | S754_infinity s' | S754_finite s' _ _ => s' = s
  | S754_nan => False
  end.
Proof.
  unfold binary_round_aux.
  pose proof (shr_fexp_exact_spec (Zpos p) ex ltac:(lia)) as H1.
  destruct (shr_fexp prec emax (Zpos p) ex loc_Exact) as [mrs1 e1].
  destruct H1 as (_ & Hm1 & _).
  pose proof (round_nearest_even_bounds mrs1) as [Hb _].
  set (m1 := round_nearest_even (shr_m mrs1) (loc_of_shr_record mrs1)) in *.
  assert (Hq0 : 0 ≤ shr_m mrs1).
  { rewrite Hm1. apply Z.div_pos; [lia|]. apply Z.pow_pos_nonneg; lia. }
  pose proof (shr_fexp_exact_spec m1 e1 ltac:(lia)) as H2.
  destruct (shr_fexp prec emax m1 e1 loc_Exact) as [mrs2 e2].
  destruct H2 as (_ & Hm2 & _).
  assert (0 ≤ shr_m mrs2).
  { rewrite Hm2. apply Z.div_pos; [lia|]. apply Z.pow_pos_nonneg; lia. }
  destruct (shr_m mrs2); [done| |lia].
  by destruct (_ <=? _).
Qed.

Lemma mag_le_scale (m1 e1 m2 e2 K : Z) :
  K ≤ e1 → K ≤ e2 →
  mag_le m1 e1 m2 e2 ↔ m1 * 2 ^ (e1 - K) ≤ m2 * 2 ^ (e2 - K).
Proof.
  intros H1 H2. unfold mag_le.
  split; apply scaled_le_rescale; lia.
Qed.

Lemma mag_le_trans (m1 e1 m2 e2 m3 e3 : Z) :
  mag_le m1 e1 m2 e2 → mag_le m2 e2 m3 e3 → mag_le m1 e1 m3 e3.
Proof.
  intros H12 H23.
  set (K := Z.min e1 (Z.min e2 e3)).
  apply (mag_le_scale _ _ _ _ K) in H12; [|lia..].
  apply (mag_le_scale _ _ _ _ K) in H23; [|lia..].
  apply (mag_le_scale _ _ _ _ K); lia.
Qed.

Lemma binary_round_aux_le (s : bool) (p : positive) (ex : Z)
    (my : positive) (ey : Z) :
  ex ≤ fexp (digits p + ex) →
  bounded prec emax my ey = true →
  mag_le (Zpos p) ex (Zpos my) ey →
  binary_round_aux prec emax s (Zpos p) ex loc_Exact = S754_zero s
  ∨ ∃ m e,
      binary_round_aux prec emax s (Zpos p) ex loc_Exact = S754_finite s m e
      ∧ mag_le (Zpos m) e (Zpos my) ey.
Proof.
  intros Hfine Hbnd Hle.
  destruct (binary_round_aux_upper s p ex my ey (Z.min ex ey) Hfine Hbnd)
    as [Hz | (m & e & Hf & Hex & Hme)]; [lia | lia | exact Hle | by left | ].
  right. exists m, e. split; [done|].
  apply (mag_le_scale _ _ _ _ (Z.min ex ey)); [lia | lia | done].
Qed.

(** A mantissa already in canonical position is returned unchanged. *)
Lemma binary_round_aux_canonical (s : bool) (p : positive) (ex : Z) :
  bounded prec emax p ex = true →
  binary_round_aux prec emax s (Zpos p) ex loc_Exact = S754_finite s p ex.
Proof.
  intros Hbnd. destruct (bounded_spec _ _ Hbnd) as [Hcan Hmax].
  unfold binary_round_aux.
  pose proof (shr_fexp_exact_spec (Zpos p) ex ltac:(lia)) as H1.
  cbn [Zdigits2] in H1. rewrite Hcan, Z.sub_diag in H1. cbn [Z.max Z.compare] in H1.
  destruct (shr_fexp prec emax (Zpos p) ex loc_Exact) as [mrs1 e1].
  destruct H1 as (He1 & Hm1 & Hx1).
  rewrite Z.pow_0_r, Z.div_1_r in Hm1. rewrite Z.pow_0_r, Z.mod_1_r in Hx1.
  destruct (Hx1 eq_refl) as [Hr Hs].
  pose proof (round_nearest_even_bounds mrs1) as [_ Hexact].
  rewrite (Hexact Hr Hs), Hm1.
  replace e1 with ex by lia.
  pose proof (shr_fexp_exact_spec (Zpos p) ex ltac:(lia)) as H2.
  cbn [Zdigits2] in H2. rewrite Hcan, Z.sub_diag in H2. cbn [Z.max Z.compare] in H2.
  destruct (shr_fexp prec emax (Zpos p) ex loc_Exact) as [mrs2 e2].
  destruct H2 as (He2 & Hm2 & _).
  rewrite Z.pow_0_r, Z.div_1_r in Hm2. rewrite Hm2.
  replace e2 with ex by lia.
  replace (ex <=? emax - prec) with true by (symmetry; apply Z.leb_le; lia).
  done.
Qed.

Lemma pos_iter_xO_spec (p k : positive) :
  Zpos (Pos.iter xO p k) = Zpos p * 2 ^ Zpos k
  ∧ digits (Pos.iter xO p k) = digits p + Zpos k.
Proof.
  induction k as [ | k [IH1 IH2]] using Pos.peano_ind.
  - cbn [Pos.iter digits2_pos]. rewrite Pos2Z.inj_succ. lia.
  - rewrite Pos.iter_succ. cbn [digits2_pos].
    rewrite Pos2Z.inj_xO, IH1, !Pos2Z.inj_succ, IH2, Z.pow_succ_r by lia. lia.
Qed.

Lemma shl_align_spec (p : positive) (e e' : Z) :
  let '(m1, e1) := shl_align p e e' in
  e1 = Z.min e e'
  ∧ Zpos m1 = Zpos p * 2 ^ (e - e1)
  ∧ digits m1 + e1 = digits p + e.
Proof.
  unfold shl_align. destruct (e' - e) as [ | d | d] eqn:Ed.
  - replace (e - e) with 0 by lia. repeat split; lia.
  - replace (e - e) with 0 by lia. repeat split; lia.
  - destruct (pos_iter_xO_spec p d) as [H1 H2].
    replace (e - e') with (Zpos d) by lia. repeat split; lia.
Qed.

(** [binary_round] first brings the mantissa to (at least) the precision
    of the format, keeping its value. *)
Lemma binary_round_unfold (s : bool) (p : positive) (e : Z) :
  ∃ m1 e1,
    binary_round prec emax s p e
    = binary_round_aux prec emax s (Zpos m1) e1 loc_Exact
    ∧ e1 = Z.min e (fexp (digits p + e))
    ∧ Zpos m1 = Zpos p * 2 ^ (e - e1)
    ∧ digits m1 + e1 = digits p + e.
Proof.
  unfold binary_round.
  pose proof (shl_align_spec p e (fexp (digits p + e))) as H.
  destruct (shl_align p e (fexp (digits p + e))) as [m1 e1].
  exists m1, e1. tauto.
Qed.

Lemma binary_round_le (s : bool) (p : positive) (e : Z)
    (my : positive) (ey : Z) :
  bounded prec emax my ey = true →
  mag_le (Zpos p) e (Zpos my) ey →
  binary_round prec emax s p e = S754_zero s
  ∨ ∃ m e',
      binary_round prec emax s p e = S754_finite s m e'
      ∧ mag_le (Zpos m) e' (Zpos my) ey.
Proof.
  intros Hbnd Hle.
  destruct (binary_round_unfold s p e) as (m1 & e1 & -> & He1 & Hm1 & Hd1).
  apply binary_round_aux_le; [rewrite Hd1; lia | done | ].
  apply (mag_le_scale _ _ _ _ (Z.min e1 ey)); [lia | lia | ].
  apply (mag_le_scale _ _ _ _ (Z.min e1 ey)) in Hle; [ | lia | lia].
  rewrite Hm1, <- Z.mul_assoc, <- Z.pow_add_r by lia.
  replace (e - e1 + (e1 - Z.min e1 ey)) with (e - Z.min e1 ey) by lia. done.
Qed.

Lemma binary_round_sign (s : bool) (p : positive) (e : Z) :
  match binary_round prec emax s p e with
  | S754_zero s' | S754_infinity s' | S754_finite s' _ _ => s' = s
  | S754_nan => False
  end.
Proof.
  destruct (binary_round_unfold s p e) as (m1 & e1 & -> & _).
  apply binary_round_aux_sign.
Qed.

End Rounding_facts.

(* ===================================================================== *)
(** * Facts about Python arithmetic *)
(* ===================================================================== *)

Section Arithmetic_facts.

Lemma two_pow_pos (e : Z) : 0 ≤ e → 0 < 2 ^ e.
Proof. intros. apply Z.pow_pos_nonneg; lia. Qed.

Lemma sign_clear_of_match (f : float) :
  match f with
  | S754_zero s' | S754_infinity s' | S754_finite s' _ _ => s' = false
  | S754_nan => False
  end → sign_clear f.
Proof. destruct f as [[|] | [|] | | [|] ? ?]; cbn; done. Qed.

Lemma float_compare_int_pos_0 (m : positive) (e : Z) :
  float_compare_int (S754_finite false m e) 0 = Some Gt.
Proof.
  unfold float_compare_int. cbn [cond_Zopp]. f_equal.
  destruct e as [ | e | e].
  - done.
  - apply Z.compare_gt_iff. pose proof (two_pow_pos (Zpos e)). nia.
  - done.
Qed.

Lemma float_compare_int_neg_lt (m : positive) (e z : Z) :
  0 ≤ z → float_compare_int (S754_finite true m e) z = Some Lt.
Proof.
  intros Hz. unfold float_compare_int. cbn [cond_Zopp Z.opp]. f_equal.
  destruct e as [ | e | e]; apply Z.compare_lt_iff.
  - lia.
  - pose proof (two_pow_pos (Zpos e)). nia.
  - pose proof (two_pow_pos (Zpos e)). nia.
Qed.

Lemma sign_clear_ge_0 (f : float) : sign_clear f → float_ge_int f 0 = true.
Proof.
  destruct f as [[|] | [|] | | [|] m e]; intros H; try (by destruct H); try done.
  unfold float_ge_int. by rewrite float_compare_int_pos_0.
Qed.

(** A float that is [>= 0] is a zero or has its sign bit clear. *)
Lemma float_ge_0_cases (f : float) :
  float_ge_int f 0 = true → (∃ s, f = S754_zero s) ∨ sign_clear f.
Proof.
  destruct f as [s | [|] | | [|] m e]; intros H; try done.
  - left. by exists s.
  - by right.
  - unfold float_ge_int in H. by rewrite float_compare_int_neg_lt in H.
  - by right.
Qed.

Lemma float_round_sign_clear (z e : Z) : 0 ≤ z → sign_clear (float_round z e).
Proof.
  intros Hz. unfold float_round, binary_normalize.
  destruct z as [ | p | p]; [done | | lia].
  apply sign_clear_of_match, binary_round_sign.
Qed.

(** [float(z)] never yields an infinity or a NaN. *)
Lemma float_of_int_finite (z : Z) (f : float) :
  float_of_int z = Ok f → float_finite f = true.
Proof.
  unfold float_of_int, float_round, binary_normalize.
  destruct z as [ | p | p].
  - by intros [= <-].
  - pose proof (binary_round_sign false p 0) as Hs.
    destruct (binary_round prec emax false p 0); try done; by intros [= <-].
  - pose proof (binary_round_sign true p 0) as Hs.
    destruct (binary_round prec emax true p 0); try done; by intros [= <-].
Qed.

Lemma float_of_int_sign_clear (z : Z) (f : float) :
  0 ≤ z → float_of_int z = Ok f → sign_clear f.
Proof.
  intros Hz. unfold float_of_int.
  pose proof (float_round_sign_clear z 0 Hz) as Hs.
  destruct (float_round z 0); try done; by intros [= <-].
Qed.

Lemma float_of_int_0 : float_of_int 0 = Ok (S754_zero false).
Proof. done. Qed.

(** Products of non-negative real operands are non-negative. *)
Lemma float_mul_ge_0 (x y : float) :
  float_finite x = true → float_finite y = true →
  float_ge_int x 0 = true → float_ge_int y 0 = true →
  float_ge_int (float_mul x y) 0 = true.
Proof.
  intros Hfx Hfy Hx Hy.
  destruct (float_ge_0_cases x Hx) as [[sx ->] | Hsx];
    destruct (float_ge_0_cases y Hy) as [[sy ->] | Hsy].
  - done.
  - destruct y as [? | ? | | sy my ey]; done.
  - destruct x as [? | ? | | sx mx ex]; done.
  - destruct x as [[|] | ? | | [|] mx ex]; try done;
      destruct y as [[|] | ? | | [|] my ey]; try done.
    apply sign_clear_ge_0, sign_clear_of_match.
    apply (binary_round_aux_sign false).
Qed.

Lemma float_add_ge_0 (x y : float) :
  float_ge_int x 0 = true → float_ge_int y 0 = true →
  float_ge_int (float_add x y) 0 = true.
Proof.
  intros Hx Hy.
  destruct (float_ge_0_cases x Hx) as [[sx ->] | Hsx];
    destruct (float_ge_0_cases y Hy) as [[sy ->] | Hsy].
  - by destruct sx, sy.
  - destruct y as [[|] | [|] | | [|] my ey]; try done; by destruct sx.
  - destruct x as [[|] | [|] | | [|] mx ex]; try done; by destruct sy.
  - destruct x as [[|] | [|] | | [|] mx ex]; try done;
      destruct y as [[|] | [|] | | [|] my ey]; try done.
    unfold float_add, SFadd. cbn [cond_Zopp].
    apply sign_clear_ge_0, sign_clear_of_match.
    cbn [Z.add binary_normalize]. apply binary_round_sign.
Qed.

Lemma trunc_scaled_nonneg (m e : Z) : 0 ≤ m → 0 ≤ trunc_scaled m e.
Proof.
  intros Hm. unfold trunc_scaled. destruct e as [ | e | e].
  - lia.
  - pose proof (two_pow_pos (Zpos e)). nia.
  - apply Z.quot_pos; [done|]. apply two_pow_pos. lia.
Qed.

Lemma int_of_float_nonneg (f : float) (z : Z) :
  float_ge_int f 0 = true → int_of_float f = Ok z → 0 ≤ z.
Proof.
  intros Hf. destruct (float_ge_0_cases f Hf) as [[s ->] | Hs].
  - by intros [= <-].
  - destruct f as [[|] | [|] | | [|] m e]; try done.
    + by intros [= <-].
    + intros [= <-]. by apply trunc_scaled_nonneg.
Qed.

(** On a non-negative float, truncation toward zero is the floor. *)
Lemma floor_of_float_int_of_float (f : float) :
  float_ge_int f 0 = true → floor_of_float f = int_of_float f.
Proof.
  intros Hf. destruct (float_ge_0_cases f Hf) as [[s ->] | Hs]; [done|].
  destruct f as [[|] | [|] | | [|] m e]; try done.
  unfold floor_of_float, int_of_float, trunc_scaled. cbn [cond_Zopp].
  destruct e as [ | e | e]; try done.
  rewrite Z.quot_div_nonneg; [done | lia | by apply two_pow_pos].
Qed.

(** The value of a finite float, compared with an integer. *)
Lemma mag_le_int_r (m e z : Z) :
  mag_le z 0 m e ↔
  match e with
  | Zneg k => z * 2 ^ Zpos k ≤ m
  | _ => z ≤ m * 2 ^ e
  end.
Proof.
  unfold mag_le. destruct e as [ | e | e].
  - replace (Z.min 0 0) with 0 by lia. rewrite Z.sub_0_r, Z.pow_0_r. lia.
  - replace (Z.min 0 (Zpos e)) with 0 by lia. rewrite !Z.sub_0_r, Z.pow_0_r. lia.
  - replace (Z.min 0 (Zneg e)) with (Zneg e) by lia.
    rewrite Z.sub_diag, Z.pow_0_r. replace (0 - Zneg e) with (Zpos e) by lia. lia.
Qed.

Lemma mag_le_int_l (m e z : Z) :
  mag_le m e z 0 ↔
  match e with
  | Zneg k => m ≤ z * 2 ^ Zpos k
  | _ => m * 2 ^ e ≤ z
  end.
Proof.
  unfold mag_le. destruct e as [ | e | e].
  - replace (Z.min 0 0) with 0 by lia. rewrite Z.sub_0_r, Z.pow_0_r. lia.
  - replace (Z.min (Zpos e) 0) with 0 by lia. rewrite !Z.sub_0_r, Z.pow_0_r. lia.
  - replace (Z.min (Zneg e) 0) with (Zneg e) by lia.
    rewrite Z.sub_diag, Z.pow_0_r. replace (0 - Zneg e) with (Zpos e) by lia. lia.
Qed.

Lemma float_ge_int_mag_le (m : positive) (e z : Z) :
  float_ge_int (S754_finite false m e) z = true → mag_le z 0 (Zpos m) e.
Proof.
  intros H. apply mag_le_int_r.
  unfold float_ge_int, float_compare_int in H. cbn [cond_Zopp] in H.
  destruct e as [ | e | e].
  - destruct (Z.compare_spec (Zpos m * 2 ^ 0) z); (done || lia).
  - destruct (Z.compare_spec (Zpos m * 2 ^ Zpos e) z); (done || lia).
  - destruct (Z.compare_spec (Zpos m) (z * 2 ^ Zpos e)); (done || lia).
Qed.

Lemma float_le_int_mag_le (m : positive) (e z : Z) :
  float_le_int (S754_finite false m e) z = true → mag_le (Zpos m) e z 0.
Proof.
  intros H. apply mag_le_int_l.
  unfold float_le_int, float_compare_int in H. cbn [cond_Zopp] in H.
  destruct e as [ | e | e].
  - destruct (Z.compare_spec (Zpos m * 2 ^ 0) z); (done || lia).
  - destruct (Z.compare_spec (Zpos m * 2 ^ Zpos e) z); (done || lia).
  - destruct (Z.compare_spec (Zpos m) (z * 2 ^ Zpos e)); (done || lia).
Qed.

Lemma trunc_scaled_le (m : positive) (e z : Z) :
  mag_le (Zpos m) e z 0 → trunc_scaled (Zpos m) e ≤ z.
Proof.
  intros H. apply mag_le_int_l in H.
  unfold trunc_scaled. destruct e as [ | e | e]; [done | done | ].
  pose proof (two_pow_pos (Zpos e) ltac:(lia)).
  rewrite Z.quot_div_nonneg by lia.
  apply Z.div_le_upper_bound; lia.
Qed.

(** Subtracting a smaller float from a larger one leaves the sign clear. *)
Lemma float_sub_finite_sign_clear (mf : positive) (ef : Z) (mg : positive) (eg : Z) :
  mag_le (Zpos mg) eg (Zpos mf) ef →
  sign_clear (float_sub (S754_finite false mf ef) (S754_finite false mg eg)).
Proof.
  intros Hle. unfold float_sub, SFsub. cbn [cond_Zopp].
  pose proof (shl_align_spec mf ef (Z.min ef eg)) as Ha.
  destruct (shl_align mf ef (Z.min ef eg)) as [a ea].
  pose proof (shl_align_spec mg eg (Z.min ef eg)) as Hb.
  destruct (shl_align mg eg (Z.min ef eg)) as [b eb].
  cbn [fst]. destruct Ha as (Hea & Hma & _), Hb as (Heb & Hmb & _).
  assert (Hd : 0 ≤ Zpos a - Zpos b).
  { unfold mag_le in Hle. rewrite Hma, Hmb, Hea, Heb.
    replace (Z.min ef (Z.min ef eg)) with (Z.min eg ef) by lia.
    replace (Z.min eg (Z.min ef eg)) with (Z.min eg ef) by lia. lia. }
  destruct (Zpos a - Zpos b) as [ | d | d]; [done | | lia].
  apply sign_clear_of_match, binary_round_sign.
Qed.

(** Line 35 of the source: when [energy >= energy_needed] holds, the
    float difference [energy - energy_needed] is not negative. *)
Lemma float_sub_int_ge_0 (f g : float) (z : Z) :
  float_valid f → 0 ≤ z →
  float_ge_int f z = true →
  float_of_int z = Ok g →
  float_ge_int (float_sub f g) 0 = true.
Proof.
  intros Hv Hz Hge Hg.
  pose proof (float_of_int_finite _ _ Hg) as Hfin.
  pose proof (float_of_int_sign_clear _ _ Hz Hg) as Hsc.
  destruct f as [s | s | | s mf ef]; try done.
  - (* a zero is at least [z] only when [z = 0] *)
    assert (z = 0) as ->.
    { unfold float_ge_int, float_compare_int in Hge.
      destruct (Z.compare_spec 0 z); (done || lia). }
    rewrite float_of_int_0 in Hg. injection Hg as <-. by destruct s.
  - destruct s; [done|]. by destruct g as [[|] | | | [|] ? ?].
  - destruct s.
    { unfold float_ge_int in Hge. by rewrite float_compare_int_neg_lt in Hge. }
    apply float_ge_int_mag_le in Hge.
    destruct z as [ | p | p]; [ | | lia].
    + rewrite float_of_int_0 in Hg. injection Hg as <-.
      by apply sign_clear_ge_0.
    + unfold float_of_int, float_round, binary_normalize in Hg.
      destruct (binary_round_le false p 0 mf ef Hv Hge)
        as [E | (mg & eg & E & Hle)]; rewrite E in Hg; injection Hg as <-.
      * by apply sign_clear_ge_0.
      * by apply sign_clear_ge_0, float_sub_finite_sign_clear.
Qed.

Lemma bounded_intro (m : positive) (e : Z) :
  SpecFloat.fexp prec emax (Zpos (digits2_pos m) + e) = e → e ≤ emax - prec →
  bounded prec emax m e = true.
Proof.
  intros Hc He. unfold bounded, canonical_mantissa.
  rewrite andb_true_iff, Z.eqb_eq, Z.leb_le. done.
Qed.

(** Integers up to [2^53] convert to a float that is not above them (the
    conversion is in fact exact). *)
Lemma float_of_int_small (z : Z) :
  0 < z ≤ 2 ^ 53 →
  ∃ m e, float_of_int z = Ok (S754_finite false m e)
         ∧ bounded prec emax m e = true
         ∧ mag_le (Zpos m) e z 0.
Proof.
  intros [Hlo Hhi].
  destruct (decide (z = 2 ^ 53)) as [-> | Hne].
  { exists 4503599627370496%positive, 1. repeat split; done. }
  destruct z as [ | p | p]; try lia.
  pose proof (digits2_pos_bounds p) as [Hd1 Hd2].
  assert (Hd : Zpos (digits2_pos p) ≤ 53).
  { assert (H : 2 ^ (Zpos (digits2_pos p) - 1) < 2 ^ 53) by lia.
    apply Z.pow_lt_mono_r_iff in H; lia. }
  destruct (binary_round_unfold false p 0) as (m1 & e1 & Hr & He1 & Hm1 & Hdig).
  assert (He1' : e1 = Zpos (digits2_pos p) - 53).
  { rewrite He1. unfold SpecFloat.fexp, SpecFloat.emin, prec, emax. lia. }
  assert (Hb : bounded prec emax m1 e1 = true).
  { apply bounded_intro.
    - rewrite Hdig, He1'. unfold SpecFloat.fexp, SpecFloat.emin, prec, emax. lia.
    - unfold prec, emax. lia. }
  exists m1, e1. split; [|split; [done|]].
  - unfold float_of_int, float_round, binary_normalize.
    by rewrite Hr, (binary_round_aux_canonical false m1 e1 Hb).
  - apply (mag_le_scale _ _ _ _ e1); [lia | lia | ].
    rewrite Z.sub_diag, Z.pow_0_r, Hm1. lia.
Qed.

Lemma digits_mul_lower (a b : positive) :
  Zpos (digits2_pos a) + Zpos (digits2_pos b) - 1 ≤ Zpos (digits2_pos (a * b)).
Proof.
  pose proof (digits2_pos_bounds a) as [Ha _].
  pose proof (digits2_pos_bounds b) as [Hb _].
  pose proof (digits2_pos_bounds (a * b)) as [_ Hab].
  assert (H : 2 ^ (Zpos (digits2_pos a) - 1 + (Zpos (digits2_pos b) - 1))
              < 2 ^ Zpos (digits2_pos (a * b))).
  { rewrite Z.pow_add_r by lia. rewrite Pos2Z.inj_mul in Hab.
    pose proof (two_pow_pos (Zpos (digits2_pos a) - 1) ltac:(lia)).
    pose proof (two_pow_pos (Zpos (digits2_pos b) - 1) ltac:(lia)).
    nia. }
  apply Z.pow_lt_mono_r_iff in H; lia.
Qed.

(** Multiplying a binary64 value by a rate of at most one does not
    increase it, rounding included. *)
Lemma float_mul_rate_le (mp : positive) (ep : Z) (mr : positive) (er : Z) :
  bounded prec emax mp ep = true →
  bounded prec emax mr er = true →
  float_le_int (S754_finite false mr er) 1 = true →
  float_mul (S754_finite false mp ep) (S754_finite false mr er) = S754_zero false
  ∨ ∃ m e,
      float_mul (S754_finite false mp ep) (S754_finite false mr er)
      = S754_finite false m e
      ∧ mag_le (Zpos m) e (Zpos mp) ep.
Proof.
  intros Hbp Hbr Hle.
  destruct (bounded_spec _ _ Hbp) as [Hcp Hmp].
  destruct (bounded_spec _ _ Hbr) as [Hcr Hmr].
  unfold float_mul, SFmul. cbn [xorb].
  apply binary_round_aux_le; [ | done | ].
  - pose proof (digits_mul_lower mp mr).
    pose proof (Pos2Z.is_pos (digits2_pos mp)).
    pose proof (Pos2Z.is_pos (digits2_pos mr)).
    unfold SpecFloat.fexp, SpecFloat.emin, prec, emax in *. lia.
  - apply float_le_int_mag_le, mag_le_int_l in Hle.
    destruct er as [ | er | er].
    + apply (mag_le_scale _ _ _ _ ep); [lia | lia | ].
      rewrite Z.add_0_r, Z.sub_diag, Z.pow_0_r in *. rewrite Pos2Z.inj_mul. nia.
    + apply (mag_le_scale _ _ _ _ ep); [lia | lia | ].
      replace (ep + Zpos er - ep) with (Zpos er) by lia.
      rewrite Z.sub_diag, Z.pow_0_r. rewrite Pos2Z.inj_mul. nia.
    + apply (mag_le_scale _ _ _ _ (ep + Zneg er)); [lia | lia | ].
      replace (ep - (ep + Zneg er)) with (Zpos er) by lia.
      rewrite Z.sub_diag, Z.pow_0_r. rewrite Pos2Z.inj_mul. nia.
Qed.

(** Lines 40-42 of the source, for a population that converts exactly:
    the loss is between [0] and the population. *)
Lemma prey_loss_bounds (z : Z) (r : float) (product : pynum) (loss : Z) :
  0 < z ≤ 2 ^ 53 →
  float_valid r →
  float_ge_int r 0 = true → float_le_int r 1 = true →
  py_mul (PInt z) (PFloat r) = Ok product →
  py_int product = Ok loss →
  0 ≤ loss ≤ z.
Proof.
  intros Hz Hv Hge Hle Hmul Hint.
  destruct (float_of_int_small z Hz) as (mp & ep & Hconv & Hbp & Hpz).
  unfold py_mul, to_float in Hmul. rewrite Hconv in Hmul.
  injection Hmul as <-. cbn [py_int] in Hint.
  destruct r as [s | s | | s mr er]; try done.
  - injection Hint as <-. lia.
  - destruct s.
    { unfold float_ge_int in Hge. by rewrite float_compare_int_neg_lt in Hge. }
    change (binary_round_aux _ _ _ _ _ _)
      with (float_mul (S754_finite false mp ep) (S754_finite false mr er)) in Hint.
    destruct (float_mul_rate_le mp ep mr er Hbp Hv Hle)
      as [E | (m & e & E & Hme)]; rewrite E in Hint; injection Hint as <-.
    + lia.
    + split; [by apply trunc_scaled_nonneg|].
      apply trunc_scaled_le. by eapply mag_le_trans.
Qed.

(** Integers of magnitude up to [2^1023] convert without
    [OverflowError]. *)
Lemma float_of_int_defined (z : Z) :
  - 2 ^ 1023 ≤ z ≤ 2 ^ 1023 → succeeds (float_of_int z) = true.
Proof.
  intros Hz.
  assert (Hb : bounded prec emax 4503599627370496 971 = true) by (by vm_compute).
  assert (Hpow : 4503599627370496 * 2 ^ 971 = 2 ^ 1023) by (by vm_compute).
  unfold float_of_int, float_round, binary_normalize.
  destruct z as [ | p | p]; [done | | ].
  - destruct (binary_round_le false p 0 4503599627370496 971 Hb)
      as [-> | (m & e & -> & _)]; [|done..].
    apply mag_le_int_r. lia.
  - destruct (binary_round_le true p 0 4503599627370496 971 Hb)
      as [-> | (m & e & -> & _)]; [|done..].
    apply mag_le_int_r. lia.
Qed.

End Arithmetic_facts.

(* ===================================================================== *)
(** * Facts about the error monad, dictionaries and the heap *)
(* ===================================================================== *)

Section Basic_facts.

Lemma bind_Ok {A B : Type} (m : result A) (f : A → result B) (b : B) :
  m ≫= f = Ok b ↔ ∃ a, m = Ok a ∧ f a = Ok b.
Proof.
  destruct m as [a | e]; cbn.
  - split; [intros H; by exists a | by intros (a' & [= <-] & H)].
  - split; [done | by intros (a' & ? & _)].
Qed.

Lemma dict_get_set_eq {V : Type} (d : dict V) (k : string) (v v' : V) :
  dict_get d k = Ok v → dict_get (dict_set d k v') k = Ok v'.
Proof.
  induction d as [ | [k0 v0] d IH]; cbn; [done|].
  destruct (decide (k = k0)) as [-> | Hne]; cbn.
  - intros _. by rewrite decide_True.
  - intros H. rewrite decide_False by done. by apply IH.
Qed.

Lemma dict_get_set_ne {V : Type} (d : dict V) (k k' : string) (v' : V) :
  k ≠ k' → dict_get (dict_set d k v') k' = dict_get d k'.
Proof.
  intros Hne. induction d as [ | [k0 v0] d IH]; cbn.
  - by rewrite decide_False.
  - destruct (decide (k = k0)) as [-> | Hne0]; cbn.
    + by rewrite !decide_False.
    + by rewrite IH.
Qed.

(** Overwriting an existing key keeps the keys and their order. *)
Lemma dict_keys_set_present {V : Type} (d : dict V) (k : string) (v v' : V) :
  dict_get d k = Ok v → dict_keys (dict_set d k v') = dict_keys d.
Proof.
  unfold dict_keys. induction d as [ | [k0 v0] d IH]; cbn; [done|].
  destruct (decide (k = k0)) as [-> | Hne]; cbn; [done|].
  intros H. by rewrite IH.
Qed.

Lemma dict_get_is_elem {V : Type} (d : dict V) (k : string) (v : V) :
  dict_get d k = Ok v → (k, v) ∈ d.
Proof.
  induction d as [ | [k0 v0] d IH]; cbn; [done|].
  destruct (decide (k = k0)) as [-> | Hne].
  - intros [= ->]. left.
  - intros H. right. by apply IH.
Qed.

Lemma dict_get_key_elem {V : Type} (d : dict V) (k : string) :
  k ∈ dict_keys d → ∃ v, dict_get d k = Ok v.
Proof.
  unfold dict_keys. induction d as [ | [k0 v0] d IH]; cbn.
  - by intros ?%elem_of_nil.
  - destruct (decide (k = k0)) as [-> | Hne]; [by eexists|].
    intros [? | ?]%elem_of_cons; [done | by apply IH].
Qed.

(** Every yield of the table is positive. *)
Lemma ENERGY_YIELD_pos (chemical : string) (yield : Z) :
  dict_get ENERGY_YIELD chemical = Ok yield → 0 < yield.
Proof.
  unfold ENERGY_YIELD. cbn.
  repeat (case_decide; [intros [= <-]; lia|]). done.
Qed.

Lemma float_gt_int_ge (f : float) (z : Z) :
  float_gt_int f z = true → float_ge_int f z = true.
Proof.
  unfold float_gt_int, float_ge_int.
  by destruct (float_compare_int f z) as [[]|].
Qed.

Lemma py_lt_int_not_ge (a : pynum) (z : Z) :
  py_lt_int a z = true → py_ge_int a z = false.
Proof.
  destruct a as [x | f]; cbn.
  - intros H%Z.ltb_lt. apply Z.leb_gt. lia.
  - by destruct (float_compare_int f z) as [[]|].
Qed.

Lemma to_float_ge_0 (a : pynum) (f : float) :
  py_ge_int a 0 = true → to_float a = Ok f → float_ge_int f 0 = true.
Proof.
  destruct a as [x | f']; cbn.
  - intros H%Z.leb_le Hf. by eapply sign_clear_ge_0, float_of_int_sign_clear.
  - by intros H [= <-].
Qed.

Lemma py_add_ge_0 (a b c : pynum) :
  py_ge_int a 0 = true → py_ge_int b 0 = true →
  py_add a b = Ok c → py_ge_int c 0 = true.
Proof.
  intros Ha Hb. unfold py_add.
  destruct a as [x | fa], b as [y | fb].
  - intros [= <-]. cbn in *. apply Z.leb_le. apply Z.leb_le in Ha, Hb. lia.
  - intros (f & Hf & [= <-])%bind_Ok. cbn.
    apply float_add_ge_0; [by eapply (to_float_ge_0 (PInt x)) | done].
  - cbn [to_float mbind result_bind].
    intros (f & Hf & [= <-])%bind_Ok. cbn.
    apply float_add_ge_0; [done | by eapply (to_float_ge_0 (PInt y))].
  - intros [= <-]. cbn. by apply float_add_ge_0.
Qed.

(** An integer times a non-negative real: non-negative, or a NaN when
    the float is an infinity and the integer is [0]. *)
Lemma py_mul_int_float_ge_0 (z : Z) (r : float) (c : pynum) :
  0 ≤ z → float_finite r = true → float_ge_int r 0 = true →
  py_mul (PInt z) (PFloat r) = Ok c → py_ge_int c 0 = true.
Proof.
  intros Hz Hfin Hr. unfold py_mul.
  intros (f & Hf & [= <-])%bind_Ok. cbn.
  apply float_mul_ge_0; [by eapply float_of_int_finite | done | | done].
  by eapply sign_clear_ge_0, float_of_int_sign_clear.
Qed.

Lemma py_int_nonneg (a : pynum) (z : Z) :
  py_ge_int a 0 = true → py_int a = Ok z → 0 ≤ z.
Proof.
  destruct a as [x | f]; cbn.
  - intros H%Z.leb_le [= <-]. done.
  - apply int_of_float_nonneg.
Qed.

Lemma py_sub_int_ge_0 (a c : pynum) (z : Z) :
  pynum_valid a → 0 ≤ z → py_ge_int a z = true →
  py_sub a (PInt z) = Ok c → py_ge_int c 0 = true.
Proof.
  intros Hv Hz Hge. unfold py_sub. destruct a as [x | f].
  - intros [= <-]. cbn in *. apply Z.leb_le. apply Z.leb_le in Hge. lia.
  - cbn [to_float mbind result_bind].
    intros (g & Hg & [= <-])%bind_Ok. cbn in *.
    by eapply float_sub_int_ge_0.
Qed.

End Basic_facts.

(* ===================================================================== *)
(** * The species behaviours *)
(* ===================================================================== *)

Section Behaviours.

Implicit Types (h : heap) (self prey predator : ref).

(** C1. For a species with a non-negative population and an environment
    holding a quantity [avail] for its chemical affinity: when
    [avail <= 0], [consume_chemicals] changes nothing; otherwise, with
    [consumed = min(avail, population)], the energy becomes the old energy
    plus [consumed * yield(affinity) * energy_efficiency] (evaluated as
    Python evaluates it), the quantity for the affinity becomes
    [avail - consumed], which is not negative, and the population is
    unchanged. *)
Theorem consume_chemicals_spec h self (environment : dict Z) (avail : Z) :
  0 ≤ population (h !!! self) →
  dict_get environment (chemical_affinity (h !!! self)) = Ok avail →
  (avail ≤ 0 → consume_chemicals self environment h = Ok (h, environment))
  ∧ (0 < avail →
     ∀ yield gained e',
       let consumed := Z.min avail (population (h !!! self)) in
       dict_get ENERGY_YIELD (chemical_affinity (h !!! self)) = Ok yield →
       py_mul (PInt (consumed * yield)) (PFloat (energy_efficiency (h !!! self)))
         = Ok gained →
       py_add (energy (h !!! self)) gained = Ok e' →
       ∃ h' environment',
         consume_chemicals self environment h = Ok (h', environment')
         ∧ energy (h' !!! self) = e'
         ∧ dict_get environment' (chemical_affinity (h !!! self))
           = Ok (avail - consumed)
         ∧ 0 ≤ avail - consumed
         ∧ population (h' !!! self) = population (h !!! self)).
Proof.
  intros Hpop Havail. unfold consume_chemicals. rewrite Havail.
  cbn [mbind result_bind]. split.
  - intros Hle. by rewrite (proj2 (Z.ltb_ge 0 avail) Hle).
  - intros Hlt yield gained e' Hyield Hgain Hadd.
    rewrite (proj2 (Z.ltb_lt 0 avail) Hlt), Hyield.
    cbn [mbind result_bind]. rewrite Hgain.
    cbn [mbind result_bind]. rewrite Hadd. cbn [mbind result_bind].
    eexists _, _. split; [done|].
    rewrite lookup_total_insert_eq.
    repeat split; [by eapply dict_get_set_eq | lia].
Qed.

(** The end-to-end scenario of C1: hydrogen 1000, population 100,
    efficiency 0.8: energy 800.0 and hydrogen 900 afterwards. *)
Lemma consume_chemicals_spec_witness :
  ∃ h' environment',
    consume_chemicals 0%nat [("hydrogen"%string, 1000)]
                      (single_species (chemosynth_a 100 (PInt 0)))
    = Ok (h', environment')
    ∧ energy (h' !!! 0%nat) = PFloat (float_round 800 0)
    ∧ dict_get environment' "hydrogen" = Ok 900
    ∧ population (h' !!! 0%nat) = 100.
Proof.
  destruct (consume_chemicals_spec (single_species (chemosynth_a 100 (PInt 0)))
              0%nat [("hydrogen"%string, 1000)] 1000) as [_ H].
  - by vm_compute.
  - by vm_compute.
  - destruct (H ltac:(lia) 10 (PFloat (float_round 800 0)) (PFloat (float_round 800 0)))
      as (h' & env' & Hrun & He & Henv & _ & Hp).
    + by vm_compute.
    + by vm_compute.
    + by vm_compute.
    + exists h', env'. repeat split; done.
Defined.

(** C2. For a species with a non-negative population (and, as the data
    model has it, a non-negative reproduction rate): [reproduce] changes
    nothing when [energy < 2 * population]; when
    [energy >= 2 * population] (equality included) it adds
    [floor(population * reproduction_rate)] to the population and
    subtracts [2 * population], taken before the call, from the energy. *)
Theorem reproduce_spec h self :
  let pop := population (h !!! self) in
  let e := energy (h !!! self) in
  0 ≤ pop →
  float_ge_int (reproduction_rate (h !!! self)) 0 = true →
  (py_lt_int e (2 * pop) = true → reproduce self h = Ok h)
  ∧ (py_ge_int e (2 * pop) = true →
     ∀ product offspring e',
       py_mul (PInt pop) (PFloat (reproduction_rate (h !!! self))) = Ok product →
       py_floor product = Ok offspring →
       py_sub e (PInt (2 * pop)) = Ok e' →
       ∃ h', reproduce self h = Ok h'
             ∧ population (h' !!! self) = pop + offspring
             ∧ energy (h' !!! self) = e').
Proof.
  intros pop e Hpop Hrate. unfold reproduce. fold pop e.
  replace (pop * 2) with (2 * pop) by lia. split.
  - intros Hlt. by rewrite (py_lt_int_not_ge _ _ Hlt).
  - intros Hge product offspring e' Hmul Hfloor Hsub.
    rewrite Hge, Hmul. cbn [mbind result_bind].
    assert (Hint : py_int product = Ok offspring).
    { unfold py_mul in Hmul. apply bind_Ok in Hmul as (x & Hx & [= <-]).
      cbn [py_floor] in Hfloor. cbn [py_int].
      rewrite <- Hfloor. symmetry. apply floor_of_float_int_of_float.
      pose proof (float_of_int_sign_clear _ _ Hpop Hx) as Hsx.
      pose proof (float_of_int_finite _ _ Hx) as Hfx.
      destruct (float_ge_0_cases _ Hrate) as [[s ->] | Hsr].
      - destruct x as [[|] | ? | | [|] ? ?]; done.
      - destruct (reproduction_rate (h !!! self)) as [[|] | [|] | | [|] mr er];
          try done; destruct x as [[|] | ? | | [|] mx ex]; try done.
        apply sign_clear_ge_0, sign_clear_of_match.
        apply (binary_round_aux_sign false). }
    rewrite Hint. cbn [mbind result_bind].
    rewrite !lookup_total_insert_eq. cbn [energy set_population].
    fold e. rewrite Hsub. cbn [mbind result_bind].
    eexists. split; [done|].
    by rewrite lookup_total_insert_eq.
Qed.

(** The end-to-end scenario of C2: population 100, energy 200, rate
    0.05: population 105 and energy 0 afterwards. *)
Lemma reproduce_spec_witness :
  ∃ h', reproduce 0%nat (single_species (chemosynth_a 100 (PInt 200))) = Ok h'
        ∧ population (h' !!! 0%nat) = 105
        ∧ energy (h' !!! 0%nat) = PInt 0.
Proof.
  destruct (reproduce_spec (single_species (chemosynth_a 100 (PInt 200))) 0%nat)
    as [_ H].
  - by vm_compute.
  - by vm_compute.
  - destruct (H ltac:(by vm_compute) (PFloat (float_round 5 0)) 5 (PInt 0))
      as (h' & Hrun & Hp & He).
    + by vm_compute.
    + by vm_compute.
    + by vm_compute.
    + exists h'. repeat split; done.
Defined.

(** C3. For two distinct species objects, a prey with a non-negative
    population and (as the data model has it) a non-negative predation
    rate: when the prey's population is positive, with
    [prey_loss = floor(prey.population * predator.predation_rate)], the
    predator's population grows by [floor(prey_loss / 2)], the prey's
    shrinks by [prey_loss], and neither energy changes; when the prey's
    population is [0], nothing changes. *)
Theorem predation_spec h predator prey :
  predator ≠ prey →
  0 ≤ population (h !!! prey) →
  float_ge_int (predation_rate (h !!! predator)) 0 = true →
  (0 < population (h !!! prey) →
   ∀ product prey_loss,
     py_mul (PInt (population (h !!! prey)))
            (PFloat (predation_rate (h !!! predator))) = Ok product →
     py_floor product = Ok prey_loss →
     ∃ h', predation predator prey h = Ok h'
           ∧ population (h' !!! predator)
             = population (h !!! predator) + prey_loss `div` 2
           ∧ population (h' !!! prey) = population (h !!! prey) - prey_loss
           ∧ energy (h' !!! predator) = energy (h !!! predator)
           ∧ energy (h' !!! prey) = energy (h !!! prey))
  ∧ (population (h !!! prey) = 0 → predation predator prey h = Ok h).
Proof.
  intros Hne Hpop Hrate. unfold predation. split.
  - intros Hpos product prey_loss Hmul Hfloor.
    rewrite (proj2 (Z.ltb_lt 0 _) Hpos), Hmul. cbn [mbind result_bind].
    assert (Hint : py_int product = Ok prey_loss).
    { unfold py_mul in Hmul. apply bind_Ok in Hmul as (x & Hx & [= <-]).
      cbn [py_floor] in Hfloor. cbn [py_int].
      rewrite <- Hfloor. symmetry. apply floor_of_float_int_of_float.
      pose proof (float_of_int_sign_clear _ _ Hpop Hx) as Hsx.
      pose proof (float_of_int_finite _ _ Hx) as Hfx.
      destruct (float_ge_0_cases _ Hrate) as [[s ->] | Hsr].
      - destruct x as [[|] | ? | | [|] ? ?]; done.
      - destruct (predation_rate (h !!! predator)) as [[|] | [|] | | [|] mr er];
          try done; destruct x as [[|] | ? | | [|] mx ex]; try done.
        apply sign_clear_ge_0, sign_clear_of_match.
        apply (binary_round_aux_sign false). }
    rewrite Hint. cbn [mbind result_bind].
    eexists. split; [done|].
    rewrite !lookup_total_insert_eq.
    rewrite !(lookup_total_insert_ne _ prey predator) by done.
    rewrite !lookup_total_insert_eq.
    rewrite !(lookup_total_insert_ne _ predator prey) by done.
    done.
  - intros ->. done.
Qed.

(** The end-to-end scenario of C3: rate 0.02 and a prey of 200: the
    predator gains 2 and the prey is left with 196. *)
Lemma predation_spec_witness :
  ∃ h', predation 0%nat 1%nat
          (predator_and_prey (chemosynth_a 100 (PInt 0)) (chemosynth_a 200 (PInt 0)))
        = Ok h'
        ∧ population (h' !!! 0%nat) = 102
        ∧ population (h' !!! 1%nat) = 196.
Proof.
  destruct (predation_spec
              (predator_and_prey (chemosynth_a 100 (PInt 0)) (chemosynth_a 200 (PInt 0)))
              0%nat 1%nat) as [H _].
  - done.
  - by vm_compute.
  - by vm_compute.
  - destruct (H ltac:(by vm_compute) (PFloat (float_round 4 0)) 4)
      as (h' & Hrun & Hp & Hq & _).
    + by vm_compute.
    + by vm_compute.
    + exists h'. repeat split; done.
Defined.

(** [evolve] touches the three traits only. *)
Lemma evolve_frame self h (g : rng) h' (g' : rng) (r : ref) :
  evolve self (h, g) = (h', g') →
  population (h' !!! r) = population (h !!! r)
  ∧ energy (h' !!! r) = energy (h !!! r)
  ∧ name (h' !!! r) = name (h !!! r).
Proof.
  unfold evolve.
  destruct (random g) as [chance g1].
  destruct (float_ltb chance (float_lit 1 10)); [|by intros [= <- <-]].
  destruct (choice_trait g1) as [tr g2].
  destruct (uniform (float_lit 9 10) (float_lit 11 10) g2) as [factor g3].
  intros [= <- <-].
  destruct (decide (self = r)) as [-> | Hne].
  - rewrite lookup_total_insert_eq. by destruct tr.
  - by rewrite lookup_total_insert_ne.
Qed.

Lemma consume_chemicals_nonneg h self (environment : dict Z) h' environment' :
  species_ok h self →
  consume_chemicals self environment h = Ok (h', environment') →
  nonneg_state (h' !!! self).
Proof.
  intros [[Hpop Hen] _ _ _ (_ & Hfin & Hgt) _]. unfold consume_chemicals.
  intros (avail & Havail & H)%bind_Ok.
  destruct (0 <? avail) eqn:Hlt; [|by injection H as <- <-].
  apply Z.ltb_lt in Hlt.
  apply bind_Ok in H as (yield & Hyield & H).
  apply bind_Ok in H as (gained & Hgain & H).
  apply bind_Ok in H as (e' & Hadd & [= <- <-]).
  rewrite lookup_total_insert_eq. split; [done|]. cbn [energy set_energy].
  apply (py_add_ge_0 _ _ _ Hen) in Hadd; [done|].
  eapply py_mul_int_float_ge_0; [ | done | by apply float_gt_int_ge | done].
  pose proof (ENERGY_YIELD_pos _ _ Hyield). nia.
Qed.

Lemma symbiotic_interaction_nonneg h self h' :
  species_ok h self →
  symbiotic_interaction self h = Ok h' →
  nonneg_state (h' !!! self).
Proof.
  intros [[Hpop Hen] _ _ _ _ Hpartner]. unfold symbiotic_interaction.
  destruct (symbiosis (h !!! self)) as [partner | ]; [|by intros [= <-]].
  intros (product & Hmul & H)%bind_Ok.
  apply bind_Ok in H as (gain & Hint & H).
  apply bind_Ok in H as (e' & Hadd & [= <-]).
  rewrite lookup_total_insert_eq. split; [done|]. cbn [energy set_energy].
  apply (py_add_ge_0 _ _ _ Hen) in Hadd; [done|].
  cbn [py_ge_int]. apply Z.leb_le.
  apply (py_int_nonneg product); [|done].
  eapply py_mul_int_float_ge_0; [by apply Hpartner | | | done]; done.
Qed.

Lemma reproduce_nonneg h self h' :
  species_ok h self →
  reproduce self h = Ok h' →
  nonneg_state (h' !!! self).
Proof.
  intros [[Hpop Hen] Hvalid _ (_ & Hfin & Hgt) _ _]. unfold reproduce.
  destruct (py_ge_int (energy (h !!! self)) (population (h !!! self) * 2)) eqn:Hge;
    [|by intros [= <-]].
  intros (product & Hmul & H)%bind_Ok.
  apply bind_Ok in H as (offspring & Hint & H).
  apply bind_Ok in H as (e' & Hsub & [= <-]).
  rewrite !lookup_total_insert_eq in *. cbn [energy population set_energy set_population] in *.
  assert (0 ≤ offspring).
  { apply (py_int_nonneg product); [|done].
    eapply py_mul_int_float_ge_0; [done | done | by apply float_gt_int_ge | done]. }
  split; cbn [energy population set_energy set_population]; [lia|].
  eapply py_sub_int_ge_0; [exact Hvalid | | exact Hge | exact Hsub]. lia.
Qed.

Lemma prey_loss_nonneg (pop : Z) (r : float) (product : pynum) (prey_loss : Z) :
  0 ≤ pop → rate_in_unit_interval r →
  py_mul (PInt pop) (PFloat r) = Ok product →
  py_int product = Ok prey_loss →
  0 ≤ prey_loss.
Proof.
  intros Hpop (Hv & Hge & Hle) Hmul Hint.
  apply (py_int_nonneg product); [|done].
  eapply py_mul_int_float_ge_0; [done | | done | done].
  destruct r as [? | [|] | | ? ? ?]; done.
Qed.

Lemma predation_predator_nonneg h self prey h' :
  species_ok h self → prey ≠ self →
  predation self prey h = Ok h' →
  nonneg_state (h' !!! self).
Proof.
  intros [[Hpop Hen] _ Hrate _ _ _] Hne. unfold predation.
  destruct (0 <? population (h !!! prey)) eqn:Hlt; [|by intros [= <-]].
  apply Z.ltb_lt in Hlt.
  intros (product & Hmul & H)%bind_Ok.
  apply bind_Ok in H as (prey_loss & Hint & [= <-]).
  rewrite lookup_total_insert_ne, lookup_total_insert_eq by done.
  assert (Hp0 : 0 ≤ population (h !!! prey)) by lia.
  pose proof (prey_loss_nonneg _ _ _ _ Hp0 Hrate Hmul Hint).
  split; [|done]. cbn [population set_population].
  pose proof (Z.div_pos prey_loss 2). lia.
Qed.

Lemma predation_prey_nonneg h predator self h' :
  species_ok h self →
  rate_in_unit_interval (predation_rate (h !!! predator)) →
  population (h !!! self) ≤ 2 ^ 53 →
  predation predator self h = Ok h' →
  nonneg_state (h' !!! self).
Proof.
  intros [[Hpop Hen] _ _ _ _ _] Hrate Hsmall. unfold predation.
  destruct (0 <? population (h !!! self)) eqn:Hlt; [|by intros [= <-]].
  apply Z.ltb_lt in Hlt.
  intros (product & Hmul & H)%bind_Ok.
  apply bind_Ok in H as (prey_loss & Hint & [= <-]).
  destruct Hrate as (Hv & Hge & Hle).
  assert (Hp0 : 0 < population (h !!! self) ≤ 2 ^ 53) by lia.
  pose proof (prey_loss_bounds _ _ _ _ Hp0 Hv Hge Hle Hmul Hint) as Hloss.
  rewrite lookup_total_insert_eq.
  destruct (decide (predator = self)) as [-> | Hne].
  - rewrite lookup_total_insert_eq.
    split; cbn [population energy set_population]; [|done].
    pose proof (Z.div_pos prey_loss 2). lia.
  - rewrite lookup_total_insert_ne by done.
    split; cbn [population energy set_population]; [lia|done].
Qed.

(** ** The calls return on inputs of ordinary size *)

Lemma ENERGY_YIELD_le (chemical : string) (yield : Z) :
  dict_get ENERGY_YIELD chemical = Ok yield → yield ≤ 10.
Proof.
  unfold ENERGY_YIELD. cbn.
  repeat (case_decide; [intros [= <-]; lia|]). done.
Qed.

Lemma to_float_defined (a : pynum) :
  (∀ z, a = PInt z → - 2 ^ 1023 ≤ z ≤ 2 ^ 1023) → succeeds (to_float a) = true.
Proof.
  destruct a as [z | f]; [|done]. intros H. apply float_of_int_defined. by apply H.
Qed.

Lemma two_pow_53_bounds : 0 < 2 ^ 53 ∧ 2 * 2 ^ 53 ≤ 2 ^ 1023.
Proof. split; [by apply two_pow_pos | by vm_compute]. Qed.

Lemma succeeds_Ok {A : Type} (r : result A) :
  succeeds r = true → ∃ a, r = Ok a.
Proof. destruct r as [a | e]; [by exists a | done]. Qed.

(** The product and its truncation at lines 33, 40 and 47 are defined
    for a population up to [2^53] and a rate of [[0, 1]]. *)
Lemma prey_loss_defined (z : Z) (r : float) :
  0 ≤ z ≤ 2 ^ 53 → rate_in_unit_interval r →
  ∃ product loss, py_mul (PInt z) (PFloat r) = Ok product
                  ∧ py_int product = Ok loss.
Proof.
  intros Hz (Hv & Hge & Hle). unfold py_mul, to_float.
  destruct (decide (z = 0)) as [-> | Hnz].
  { rewrite float_of_int_0. cbn [mbind result_bind py_int].
    destruct r as [s | [|] | | s mr er]; try done; by eexists _, _. }
  destruct (float_of_int_small z ltac:(lia)) as (mp & ep & -> & Hbp & _).
  cbn [mbind result_bind py_int].
  destruct r as [s | [|] | | s mr er]; try done.
  - by eexists _, _.
  - destruct s.
    { unfold float_ge_int in Hge. by rewrite float_compare_int_neg_lt in Hge. }
    destruct (float_mul_rate_le mp ep mr er Hbp Hv Hle)
      as [E | (m & e & E & _)]; rewrite E; by eexists _, _.
Qed.

Lemma consume_chemicals_returns h self (environment : dict Z) (avail yield : Z) :
  dict_get environment (chemical_affinity (h !!! self)) = Ok avail →
  dict_get ENERGY_YIELD (chemical_affinity (h !!! self)) = Ok yield →
  0 ≤ population (h !!! self) → avail ≤ 2 ^ 1000 →
  (∀ z, energy (h !!! self) = PInt z → - 2 ^ 1023 ≤ z ≤ 2 ^ 1023) →
  succeeds (consume_chemicals self environment h) = true.
Proof.
  intros Havail Hyield Hpop Hbound Henergy. unfold consume_chemicals.
  rewrite Havail. cbn [mbind result_bind].
  destruct (0 <? avail) eqn:Hlt; [|done]. apply Z.ltb_lt in Hlt.
  rewrite Hyield. cbn [mbind result_bind].
  pose proof (ENERGY_YIELD_pos _ _ Hyield). pose proof (ENERGY_YIELD_le _ _ Hyield).
  set (consumed := Z.min avail (population (h !!! self))).
  assert (Hc : - 2 ^ 1023 ≤ consumed * yield ≤ 2 ^ 1023).
  { assert (0 ≤ consumed ≤ 2 ^ 1000) by (unfold consumed; lia).
    assert (2 ^ 1023 = 2 ^ 1000 * 2 ^ 23) as -> by (by rewrite <- Z.pow_add_r).
    nia. }
  unfold py_mul, to_float.
  destruct (succeeds_Ok _ (float_of_int_defined _ Hc)) as [x ->].
  cbn [mbind result_bind]. unfold py_add.
  destruct (energy (h !!! self)) as [z | f] eqn:He; [|done].
  destruct (succeeds_Ok _ (to_float_defined (PInt z) ltac:(by intros ? [= <-]; apply Henergy)))
    as [y Hy].
  cbn [to_float] in *. by rewrite Hy.
Qed.

Lemma symbiotic_interaction_returns h self :
  (∀ partner, symbiosis (h !!! self) = Some partner →
              0 ≤ population (h !!! partner) ≤ 2 ^ 53) →
  succeeds (symbiotic_interaction self h) = true.
Proof.
  intros Hpartner. unfold symbiotic_interaction.
  destruct (symbiosis (h !!! self)) as [partner | ]; [|done].
  specialize (Hpartner partner eq_refl).
  destruct (prey_loss_defined (population (h !!! partner)) (float_lit 1 10) Hpartner)
    as (product & gain & Hmul & Hint); [by repeat split|].
  rewrite Hmul. cbn [mbind result_bind]. rewrite Hint. cbn [mbind result_bind].
  assert (0 ≤ gain ≤ 2 ^ 53).
  { destruct (decide (population (h !!! partner) = 0)) as [E | Hnz].
    - rewrite E in Hmul. vm_compute in Hmul. injection Hmul as <-.
      vm_compute in Hint. injection Hint as <-. lia.
    - assert (Hp : 0 < population (h !!! partner) ≤ 2 ^ 53) by lia.
      pose proof (prey_loss_bounds _ (float_lit 1 10) product gain Hp
                    eq_refl eq_refl eq_refl Hmul Hint). lia. }
  unfold py_add. destruct (energy (h !!! self)) as [z | f]; [done|].
  cbn [to_float mbind result_bind].
  destruct two_pow_53_bounds as [? ?].
  assert (Hb : - 2 ^ 1023 ≤ gain ≤ 2 ^ 1023) by lia.
  destruct (succeeds_Ok _ (float_of_int_defined _ Hb)) as [y ->].
  done.
Qed.

Lemma reproduce_returns h self :
  0 ≤ population (h !!! self) ≤ 2 ^ 53 →
  rate_in_unit_interval (reproduction_rate (h !!! self)) →
  succeeds (reproduce self h) = true.
Proof.
  intros Hpop Hrate. unfold reproduce.
  destruct (py_ge_int (energy (h !!! self)) (population (h !!! self) * 2)); [|done].
  destruct (prey_loss_defined _ _ Hpop Hrate) as (product & offspring & -> & Hint).
  cbn [mbind result_bind]. rewrite Hint. cbn [mbind result_bind].
  rewrite !lookup_total_insert_eq. cbn [energy set_population].
  unfold py_sub. destruct (energy (h !!! self)) as [z | f]; [done|].
  cbn [to_float mbind result_bind].
  destruct two_pow_53_bounds as [? ?].
  assert (Hb : - 2 ^ 1023 ≤ population (h !!! self) * 2 ≤ 2 ^ 1023) by lia.
  destruct (succeeds_Ok _ (float_of_int_defined _ Hb)) as [y ->].
  done.
Qed.

Lemma predation_returns h self prey :
  population (h !!! prey) ≤ 2 ^ 53 →
  rate_in_unit_interval (predation_rate (h !!! self)) →
  succeeds (predation self prey h) = true.
Proof.
  intros Hpop Hrate. unfold predation.
  destruct (0 <? population (h !!! prey)) eqn:Hlt; [|done]. apply Z.ltb_lt in Hlt.
  assert (Hb : 0 ≤ population (h !!! prey) ≤ 2 ^ 53) by lia.
  destruct (prey_loss_defined _ _ Hb Hrate) as (product & prey_loss & -> & Hint).
  cbn [mbind result_bind]. by rewrite Hint.
Qed.

(** C4, as the code has it. For a species as the data model describes it
    (population and energy not negative, predation rate in [[0, 1]],
    reproduction rate and energy efficiency positive reals, partner with
    a non-negative population): after a call of [consume_chemicals],
    [symbiotic_interaction], [reproduce], [evolve], or [predation] as the
    predator, its population and energy are not negative; after
    [predation] as the prey they are not negative provided the prey's
    population is at most [2^53], the range in which its conversion to a
    float is exact. *)
Theorem behaviours_preserve_nonneg h self :
  species_ok h self →
  (∀ environment h' environment',
     consume_chemicals self environment h = Ok (h', environment') →
     nonneg_state (h' !!! self))
  ∧ (∀ h', symbiotic_interaction self h = Ok h' → nonneg_state (h' !!! self))
  ∧ (∀ h', reproduce self h = Ok h' → nonneg_state (h' !!! self))
  ∧ (∀ g h' g', evolve self (h, g) = (h', g') → nonneg_state (h' !!! self))
  ∧ (∀ prey h', prey ≠ self → predation self prey h = Ok h' →
                nonneg_state (h' !!! self))
  ∧ (∀ predator h',
       rate_in_unit_interval (predation_rate (h !!! predator)) →
       population (h !!! self) ≤ 2 ^ 53 →
       predation predator self h = Ok h' →
       nonneg_state (h' !!! self)).
Proof.
  intros Hok. split; [|split; [|split; [|split; [|split]]]].
  - intros environment h' environment'. by apply consume_chemicals_nonneg.
  - intros h'. by apply symbiotic_interaction_nonneg.
  - intros h'. by apply reproduce_nonneg.
  - intros g h' g' Hev.
    destruct (evolve_frame _ _ _ _ _ self Hev) as (Hp & He & _).
    unfold nonneg_state. rewrite Hp, He. apply Hok.
  - intros prey h' Hne. by apply predation_predator_nonneg.
  - intros predator h'. by apply predation_prey_nonneg.
Qed.

(** Closes [species_ok] on a concrete heap by evaluation. *)
Ltac species_ok_by_eval :=
  split;
  [ split; by vm_compute
  | by vm_compute
  | repeat split; by vm_compute
  | repeat split; by vm_compute
  | repeat split; by vm_compute
  | let partner := fresh "partner" in
    let H := fresh "H" in
    intros partner H; vm_compute in H; first [discriminate H | injection H as <-; by vm_compute] ].

(** The product under [int(...)] is the rounded float product: with a
    rate of [0.29] (the float just below 29/100) a population of 100
    yields [int(28.999999999999996) = 28]. *)
Example int_of_rounded_product :
  (product ← py_mul (PInt 100) (PFloat (float_lit 29 100)); py_int product)
  = Ok 28.
Proof. by vm_compute. Qed.

(** Integers above [2^53] need not convert exactly:
    [float(2^53 + 3)] is [2^53 + 4]. *)
Example float_of_int_rounds_up :
  (f ← float_of_int (2 ^ 53 + 3); int_of_float f) = Ok (2 ^ 53 + 4).
Proof. by vm_compute. Qed.

(** C4 on the scenario of C3: the prey of 200 satisfies the data model
    and is left with a non-negative population and energy. *)
Lemma behaviours_preserve_nonneg_witness :
  let h := predator_and_prey (chemosynth_a 100 (PInt 0)) (chemosynth_a 200 (PInt 0)) in
  species_ok h 1%nat
  ∧ ∀ h', predation 0%nat 1%nat h = Ok h' → nonneg_state (h' !!! 1%nat).
Proof.
  intros h.
  assert (Hok : species_ok h 1%nat) by species_ok_by_eval.
  split; [exact Hok|].
  intros h'.
  apply (behaviours_preserve_nonneg h 1%nat Hok).
  - repeat split; by vm_compute.
  - by vm_compute.
Defined.

(** C4 as the specification states it fails: a predator with
    [predation_rate = 1.0] and a prey of [2^53 + 3] individuals both
    satisfy the data model, the prey's population converts to the float
    [2^53 + 4], and the prey is left with a population of [-1]. *)
Lemma predation_prey_negative :
  ¬ (∀ h predator prey h',
       species_ok h predator → species_ok h prey →
       predation predator prey h = Ok h' →
       nonneg_state (h' !!! prey)).
Proof.
  intros Hclaim.
  set (h := predator_and_prey (voracious 10) (chemosynth_a (2 ^ 53 + 3) (PInt 0))).
  assert (Hp : species_ok h 0%nat) by species_ok_by_eval.
  assert (Hq : species_ok h 1%nat) by species_ok_by_eval.
  destruct (predation 0%nat 1%nat h) as [h' | e] eqn:Hrun; [|by vm_compute in Hrun].
  destruct (Hclaim h 0%nat 1%nat h' Hp Hq Hrun) as [Hneg _].
  assert (Hval : population (h' !!! 1%nat) = -1).
  { vm_compute in Hrun. injection Hrun as <-. by vm_compute. }
  lia.
Qed.

End Behaviours.

(* ===================================================================== *)
(** * Frame properties of the behaviours *)
(* ===================================================================== *)

Section Frames.

Implicit Types (h : heap) (self prey predator r : ref).

Lemma same_names_refl h : same_names h h.
Proof. done. Qed.

Lemma same_names_trans h1 h2 h3 :
  same_names h1 h2 → same_names h2 h3 → same_names h1 h3.
Proof. intros H12 H23 r. by rewrite H23. Qed.

Lemma same_names_insert h self (s : Species) :
  name s = name (h !!! self) → same_names h (<[self := s]> h).
Proof.
  intros Hs r. destruct (decide (self = r)) as [-> | Hne].
  - by rewrite lookup_total_insert_eq.
  - by rewrite lookup_total_insert_ne.
Qed.

(** [consume_chemicals] writes the energy of [self] and nothing else on
    the heap. *)
Lemma consume_chemicals_frame h self (environment : dict Z) h' environment' :
  consume_chemicals self environment h = Ok (h', environment') →
  same_names h h'
  ∧ (∀ r, population (h' !!! r) = population (h !!! r))
  ∧ (∀ r, r ≠ self → h' !!! r = h !!! r).
Proof.
  unfold consume_chemicals.
  intros (avail & Havail & H)%bind_Ok.
  destruct (0 <? avail); [|by injection H as <- <-].
  apply bind_Ok in H as (yield & Hyield & H).
  apply bind_Ok in H as (gained & Hgain & H).
  apply bind_Ok in H as (e' & Hadd & [= <- <-]).
  split; [by apply same_names_insert|]. split.
  - intros r. destruct (decide (self = r)) as [-> | Hne].
    + by rewrite lookup_total_insert_eq.
    + by rewrite lookup_total_insert_ne.
  - intros r Hne. by rewrite lookup_total_insert_ne.
Qed.

Lemma symbiotic_interaction_frame h self h' :
  symbiotic_interaction self h = Ok h' →
  same_names h h'
  ∧ (∀ r, population (h' !!! r) = population (h !!! r))
  ∧ (∀ r, r ≠ self → h' !!! r = h !!! r).
Proof.
  unfold symbiotic_interaction.
  destruct (symbiosis (h !!! self)) as [partner | ]; [|by intros [= <-]].
  intros (product & Hmul & H)%bind_Ok.
  apply bind_Ok in H as (gain & Hint & H).
  apply bind_Ok in H as (e' & Hadd & [= <-]).
  split; [by apply same_names_insert|]. split.
  - intros r. destruct (decide (self = r)) as [-> | Hne].
    + by rewrite lookup_total_insert_eq.
    + by rewrite lookup_total_insert_ne.
  - intros r Hne. by rewrite lookup_total_insert_ne.
Qed.

Lemma reproduce_frame h self h' :
  reproduce self h = Ok h' →
  same_names h h' ∧ (∀ r, r ≠ self → h' !!! r = h !!! r).
Proof.
  unfold reproduce.
  destruct (py_ge_int (energy (h !!! self)) (population (h !!! self) * 2));
    [|by intros [= <-]].
  intros (product & Hmul & H)%bind_Ok.
  apply bind_Ok in H as (offspring & Hint & H).
  apply bind_Ok in H as (e' & Hsub & [= <-]).
  split.
  - eapply same_names_trans; apply same_names_insert; [done|].
    by rewrite lookup_total_insert_eq.
  - intros r Hne. by rewrite !lookup_total_insert_ne.
Qed.

Lemma predation_frame h self prey h' :
  predation self prey h = Ok h' → same_names h h'.
Proof.
  unfold predation.
  destruct (0 <? population (h !!! prey)); [|by intros [= <-]].
  intros (product & Hmul & H)%bind_Ok.
  apply bind_Ok in H as (prey_loss & Hint & [= <-]).
  eapply same_names_trans; apply same_names_insert; done.
Qed.

Lemma predation_pass_frame (species_list : list ref) h h' :
  predation_pass species_list h = Ok h' → same_names h h'.
Proof.
  revert h. induction species_list as [ | a [ | b l] IH]; intros h.
  - by intros [= <-].
  - by intros [= <-].
  - cbn [predation_pass]. intros (h1 & H1 & H2)%bind_Ok.
    eapply same_names_trans; [by eapply predation_frame | by apply IH].
Qed.

Lemma evolve_pass_frame (species_list : list ref) h (g : rng) h' (g' : rng) :
  evolve_pass species_list (h, g) = (h', g') → same_names h h'.
Proof.
  unfold evolve_pass. revert h g.
  induction species_list as [ | a l IH]; intros h g; cbn [foldl].
  - by intros [= <- <-].
  - destruct (evolve a (h, g)) as [h1 g1] eqn:Hev. intros H.
    eapply same_names_trans; [|by eapply IH].
    intros r. by destruct (evolve_frame _ _ _ _ _ r Hev) as (_ & _ & ?).
Qed.

End Frames.

(* ===================================================================== *)
(** * Bookkeeping of the histories *)
(* ===================================================================== *)

Section Histories.

Implicit Types (h : heap) (w : world) (species_list : list ref).

Lemma occurrences_cons (n x : string) (names : list string) :
  occurrences n (x :: names)
  = ((if decide (x = n) then 1 else 0) + occurrences n names)%nat.
Proof.
  unfold occurrences. rewrite filter_cons. by case_decide.
Qed.

Lemma occurrences_elem (n : string) (names : list string) :
  n ∈ names → (0 < occurrences n names)%nat.
Proof.
  induction names as [ | x names IH]; [by intros ?%elem_of_nil|].
  rewrite occurrences_cons. intros [-> | Hin]%elem_of_cons.
  - rewrite decide_True by done. lia.
  - apply IH in Hin. lia.
Qed.

Lemma occurrences_NoDup (n : string) (names : list string) :
  NoDup names → n ∈ names → occurrences n names = 1%nat.
Proof.
  induction 1 as [ | x names Hx Hnd IH]; [by intros ?%elem_of_nil|].
  rewrite occurrences_cons. intros [-> | Hin]%elem_of_cons.
  - rewrite decide_True by done.
    destruct (occurrences x names) eqn:E; [done|].
    exfalso. apply Hx. unfold occurrences in E.
    destruct (filter (λ y, y = x) names) as [ | y l] eqn:F; [done|].
    assert (Hy : y ∈ filter (λ y, y = x) names) by (rewrite F; left).
    apply list_elem_of_filter in Hy as [-> Hy]. done.
  - rewrite decide_False by (intros ->; done). by apply IH.
Qed.

(** When every name occurs once, the names are pairwise distinct. *)
Lemma NoDup_occurrences (names : list string) :
  (∀ n, n ∈ names → occurrences n names = 1%nat) → NoDup names.
Proof.
  induction names as [ | x names IH]; intros H; [constructor|].
  constructor.
  - intros Hin. pose proof (H x ltac:(left)) as Hx.
    rewrite occurrences_cons, decide_True in Hx by done.
    apply occurrences_elem in Hin. lia.
  - apply IH. intros n Hn. pose proof (H n ltac:(by right)) as Hocc.
    rewrite occurrences_cons in Hocc. case_decide; [|done].
    apply occurrences_elem in Hn. lia.
Qed.

Lemma dict_keys_set {V : Type} (d : dict V) (k : string) (v : V) :
  dict_keys (dict_set d k v)
  = if decide (k ∈ dict_keys d) then dict_keys d else dict_keys d ++ [k].
Proof.
  unfold dict_keys. induction d as [ | [k0 v0] d IH]; cbn.
  - rewrite decide_False; [done | by intros ?%elem_of_nil].
  - destruct (decide (k = k0)) as [-> | Hne]; cbn.
    + rewrite decide_True; [done | left].
    + rewrite IH. destruct (decide (k ∈ d.*1)) as [Hin | Hnin].
      * rewrite decide_True; [done | by right].
      * rewrite decide_False; [done|].
        by intros [? | ?]%elem_of_cons.
Qed.

Lemma dict_get_None_keys {V : Type} (d : dict V) (k : string) (e : exn) :
  dict_get d k = Raise e → k ∉ dict_keys d.
Proof.
  unfold dict_keys. induction d as [ | [k0 v0] d IH]; cbn.
  - intros _ ?%elem_of_nil. done.
  - destruct (decide (k = k0)) as [-> | Hne]; [done|].
    intros H [? | ?]%elem_of_cons; [done | by apply IH].
Qed.

Lemma series_length_set (history : dict (list Z)) (k n : string)
    (old new : list Z) :
  dict_get history k = Ok old →
  series_length (dict_set history k new) n
  = if decide (n = k) then length new else series_length history n.
Proof.
  intros Hget. unfold series_length. case_decide as Hn; subst.
  - by rewrite (dict_get_set_eq _ _ _ _ Hget).
  - by rewrite dict_get_set_ne.
Qed.

(** The initial history: one empty series per distinct name. *)
Lemma init_population_history_spec species_list h :
  let history := init_population_history species_list h in
  NoDup (dict_keys history)
  ∧ (∀ n, n ∈ dict_keys history ↔ n ∈ names_of species_list h)
  ∧ (∀ n series, dict_get history n = Ok series → series = []).
Proof.
  unfold init_population_history, names_of.
  assert (Hgen : ∀ l (d : dict (list Z)),
    NoDup (dict_keys d) →
    (∀ n series, dict_get d n = Ok series → series = []) →
    let d' := foldl (λ d species, dict_set d (name (h !!! species)) []) d l in
    NoDup (dict_keys d')
    ∧ (∀ n, n ∈ dict_keys d' ↔ n ∈ dict_keys d ∨ n ∈ (λ species, name (h !!! species)) <$> l)
    ∧ (∀ n series, dict_get d' n = Ok series → series = [])).
  { induction l as [ | a l IH]; intros d Hnd Hvals; cbn [foldl fmap list_fmap].
    - split; [done|]. split; [|done].
      intros n. split; [by left | by intros [? | ?%elem_of_nil]].
    - destruct (IH (dict_set d (name (h !!! a)) [])) as (H1 & H2 & H3).
      + rewrite dict_keys_set. case_decide; [done|].
        apply NoDup_app. split; [done|]. split; [|apply NoDup_singleton].
        intros x Hx ->%list_elem_of_singleton. done.
      + intros n series.
        destruct (decide (name (h !!! a) = n)) as [<- | Hne].
        * destruct (dict_get d (name (h !!! a))) as [old | e] eqn:Hold.
          -- rewrite (dict_get_set_eq _ _ _ _ Hold). by intros [= <-].
          -- clear Hvals IH.
             induction d as [ | [k0 v0] d IHd]; cbn in *.
             ++ rewrite decide_True by done. by intros [= <-].
             ++ destruct (decide (name (h !!! a) = k0)); [done|].
                cbn. rewrite decide_False by done. apply IHd; [|done].
                by apply NoDup_cons in Hnd as [_ ?].
        * rewrite dict_get_set_ne by done. apply Hvals.
      + split; [done|]. split; [|done].
        intros n. rewrite H2, dict_keys_set, elem_of_cons.
        case_decide as Hin.
        * split; [intros [? | ?]; tauto|].
          intros [? | [-> | ?]]; tauto.
        * rewrite elem_of_app, list_elem_of_singleton. tauto. }
  destruct (Hgen species_list []) as (H1 & H2 & H3).
  - constructor.
  - done.
  - split; [done|]. split; [|done].
    intros n. rewrite H2. split; [|by right].
    by intros [?%elem_of_nil | ?].
Qed.

Lemma series_length_init species_list h (n : string) :
  series_length (init_population_history species_list h) n = 0%nat.
Proof.
  unfold series_length.
  destruct (dict_get _ n) as [series | e] eqn:Hget; [|done].
  destruct (init_population_history_spec species_list h) as (_ & _ & Hvals).
  by rewrite (Hvals _ _ Hget).
Qed.

Lemma names_of_same_names species_list h h' :
  same_names h h' → names_of species_list h' = names_of species_list h.
Proof.
  intros Hn. unfold names_of. apply list_fmap_ext. intros _ r _. apply Hn.
Qed.

(** One species' turn, step by step (lines 85-97 of the source). *)
Lemma species_turn_spec (species : ref) w w' :
  species_turn species w = Ok w' →
  ∃ h1 env1 h2 h3 series,
    consume_chemicals species (chemicals w) (objects w) = Ok (h1, env1)
    ∧ symbiotic_interaction species h1 = Ok h2
    ∧ reproduce species h2 = Ok h3
    ∧ dict_get (population_history w) (name (h3 !!! species)) = Ok series
    ∧ w' = mkWorld h3 env1 (generator w)
             (dict_set (population_history w) (name (h3 !!! species))
                       (series ++ [population (h3 !!! species)]))
             (chemical_history w).
Proof.
  unfold species_turn.
  intros ([h1 env1] & H1 & H)%bind_Ok.
  apply bind_Ok in H as (h2 & H2 & H).
  apply bind_Ok in H as (h3 & H3 & H).
  apply bind_Ok in H as (series & H4 & [= <-]).
  by exists h1, env1, h2, h3, series.
Qed.

Lemma species_turn_names (species : ref) w w' :
  species_turn species w = Ok w' → same_names (objects w) (objects w').
Proof.
  intros (h1 & env1 & h2 & h3 & series & H1 & H2 & H3 & _ & ->)%species_turn_spec.
  cbn [objects].
  apply consume_chemicals_frame in H1 as (N1 & _).
  apply symbiotic_interaction_frame in H2 as (N2 & _).
  apply reproduce_frame in H3 as (N3 & _).
  eauto using same_names_trans.
Qed.

Lemma species_turn_history (species : ref) w w' :
  species_turn species w = Ok w' →
  chemical_history w' = chemical_history w
  ∧ generator w' = generator w
  ∧ dict_keys (population_history w') = dict_keys (population_history w)
  ∧ ∀ n, series_length (population_history w') n
         = (series_length (population_history w) n
            + if decide (name (objects w !!! species) = n) then 1 else 0)%nat.
Proof.
  intros Hturn. pose proof (species_turn_names _ _ _ Hturn) as Hnames.
  apply species_turn_spec in Hturn
    as (h1 & env1 & h2 & h3 & series & H1 & H2 & H3 & Hget & ->).
  cbn [objects chemical_history generator population_history] in *.
  rewrite Hnames in *.
  split; [done|]. split; [done|]. split.
  - by eapply dict_keys_set_present.
  - intros n. rewrite (series_length_set _ _ _ _ _ Hget).
    destruct (decide (n = name (objects w !!! species))) as [-> | Hne].
    + rewrite decide_True by done. unfold series_length. rewrite Hget.
      rewrite length_app. cbn. lia.
    + rewrite decide_False by done. lia.
Qed.

Lemma first_pass_history species_list w w' :
  foldM species_turn species_list w = Ok w' →
  same_names (objects w) (objects w')
  ∧ chemical_history w' = chemical_history w
  ∧ generator w' = generator w
  ∧ dict_keys (population_history w') = dict_keys (population_history w)
  ∧ ∀ n, series_length (population_history w') n
         = (series_length (population_history w) n
            + occurrences n (names_of species_list (objects w)))%nat.
Proof.
  revert w. induction species_list as [ | a l IH]; intros w; cbn [foldM].
  - intros [= <-]. repeat split; done.
  - intros (w1 & Hturn & Hrest)%bind_Ok.
    pose proof (species_turn_names _ _ _ Hturn) as Hn1.
    destruct (species_turn_history _ _ _ Hturn) as (Hc1 & Hg1 & Hk1 & Hs1).
    destruct (IH _ Hrest) as (Hn2 & Hc2 & Hg2 & Hk2 & Hs2).
    split; [by eapply same_names_trans|].
    split; [congruence|]. split; [congruence|]. split; [congruence|].
    intros n. rewrite Hs2, Hs1, (names_of_same_names _ _ _ Hn1).
    cbn [names_of fmap list_fmap]. rewrite occurrences_cons.
    unfold names_of. lia.
Qed.

Lemma species_turn_frame (species : ref) w w' :
  species_turn species w = Ok w' →
  (∀ r, r ≠ species → objects w' !!! r = objects w !!! r)
  ∧ (∀ n, n ≠ name (objects w !!! species) →
          dict_get (population_history w') n = dict_get (population_history w) n).
Proof.
  intros Hturn. pose proof (species_turn_names _ _ _ Hturn) as Hnames.
  apply species_turn_spec in Hturn
    as (h1 & env1 & h2 & h3 & series & H1 & H2 & H3 & Hget & ->).
  cbn [objects population_history] in *.
  apply consume_chemicals_frame in H1 as (_ & _ & F1).
  apply symbiotic_interaction_frame in H2 as (_ & _ & F2).
  apply reproduce_frame in H3 as (_ & F3).
  split.
  - intros r Hr. by rewrite F3, F2, F1.
  - intros n Hn. rewrite Hnames. rewrite dict_get_set_ne; [done|]. congruence.
Qed.

Lemma first_pass_frame species_list w w' :
  foldM species_turn species_list w = Ok w' →
  (∀ r, r ∉ species_list → objects w' !!! r = objects w !!! r)
  ∧ (∀ n, n ∉ names_of species_list (objects w) →
          dict_get (population_history w') n = dict_get (population_history w) n).
Proof.
  revert w. induction species_list as [ | a l IH]; intros w; cbn [foldM].
  - by intros [= <-].
  - intros (w1 & Hturn & Hrest)%bind_Ok.
    pose proof (species_turn_names _ _ _ Hturn) as Hn1.
    destruct (species_turn_frame _ _ _ Hturn) as [F1 D1].
    destruct (IH _ Hrest) as [F2 D2].
    rewrite (names_of_same_names _ _ _ Hn1) in D2.
    split.
    + intros r Hr. apply not_elem_of_cons in Hr as [Hra Hrl].
      by rewrite F2, F1.
    + intros n Hn. cbn [names_of fmap list_fmap] in Hn.
      apply not_elem_of_cons in Hn as [Hna Hnl].
      by rewrite D2, D1.
Qed.

(** With pairwise distinct objects and names, the value the first pass
    appends for a species is its population when the pass is over. *)
Lemma first_pass_records species_list w w' :
  NoDup species_list →
  NoDup (names_of species_list (objects w)) →
  foldM species_turn species_list w = Ok w' →
  ∀ species, species ∈ species_list →
    ∃ series,
      dict_get (population_history w) (name (objects w !!! species)) = Ok series
      ∧ dict_get (population_history w') (name (objects w !!! species))
        = Ok (series ++ [population (objects w' !!! species)]).
Proof.
  revert w. induction species_list as [ | a l IH]; intros w Hnd Hnames; cbn [foldM].
  - intros _ species ?%elem_of_nil. done.
  - intros (w1 & Hturn & Hrest)%bind_Ok species Hin.
    apply NoDup_cons in Hnd as [Ha Hnd].
    cbn [names_of fmap list_fmap] in Hnames.
    apply NoDup_cons in Hnames as [Hna Hnames].
    pose proof (species_turn_names _ _ _ Hturn) as Hn1.
    destruct (first_pass_frame _ _ _ Hrest) as [F2 D2].
    rewrite (names_of_same_names _ _ _ Hn1) in D2.
    apply elem_of_cons in Hin as [-> | Hin].
    + apply species_turn_spec in Hturn
        as (h1 & env1 & h2 & h3 & series & H1 & H2 & H3 & Hget & ->).
      cbn [objects population_history] in *.
      rewrite Hn1 in Hget. exists series. split; [done|].
      rewrite (D2 _ Hna), (F2 _ Ha). cbn [objects population_history].
      rewrite Hn1. by apply (dict_get_set_eq _ _ series).
    + destruct (IH w1 Hnd) with (species := species) as (series & G1 & G2);
        [by rewrite (names_of_same_names _ _ _ Hn1) | done | done | ].
      rewrite Hn1 in G1, G2.
      destruct (species_turn_frame _ _ _ Hturn) as [_ D1].
      assert (Hne : name (objects w !!! species) ≠ name (objects w !!! a)).
      { intros Heq. apply Hna. rewrite <- Heq.
        apply list_elem_of_fmap. by exists species. }
      exists series. split; [|done]. by rewrite <- (D1 _ Hne).
Qed.

(** One generation, step by step (lines 79-112 of the source). *)
Lemma generation_spec species_list w w' :
  generation species_list w = Ok w' →
  ∃ w1 h2 h3 g3 env4 g4,
    foldM species_turn species_list
      (mkWorld (objects w) (chemicals w) (generator w) (population_history w)
               (chemical_history w ++ [sum_list (dict_values (chemicals w))]))
    = Ok w1
    ∧ predation_pass species_list (objects w1) = Ok h2
    ∧ evolve_pass species_list (h2, generator w1) = (h3, g3)
    ∧ replenish_chemicals (chemicals w1) g3 = (env4, g4)
    ∧ w' = mkWorld h3 env4 g4 (population_history w1) (chemical_history w1).
Proof.
  unfold generation.
  intros (w1 & H1 & H)%bind_Ok.
  apply bind_Ok in H as (h2 & H2 & H).
  destruct (evolve_pass species_list (h2, generator w1)) as [h3 g3] eqn:H3.
  destruct (replenish_chemicals (chemicals w1) g3) as [env4 g4] eqn:H4.
  injection H as <-.
  by exists w1, h2, h3, g3, env4, g4.
Qed.

Lemma generation_history species_list w w' :
  generation species_list w = Ok w' →
  same_names (objects w) (objects w')
  ∧ chemical_history w'
    = chemical_history w ++ [sum_list (dict_values (chemicals w))]
  ∧ dict_keys (population_history w') = dict_keys (population_history w)
  ∧ ∀ n, series_length (population_history w') n
         = (series_length (population_history w) n
            + occurrences n (names_of species_list (objects w)))%nat.
Proof.
  intros (w1 & h2 & h3 & g3 & env4 & g4 & H1 & H2 & H3 & H4 & ->)%generation_spec.
  destruct (first_pass_history _ _ _ H1) as (N1 & C1 & _ & K1 & S1).
  cbn [objects chemical_history population_history] in *.
  split; [|done].
  eapply same_names_trans; [exact N1|].
  eapply same_names_trans; [by eapply predation_pass_frame|].
  by eapply evolve_pass_frame.
Qed.

Lemma iterM_add {S : Type} (k j : nat) (body : S → result S) (s : S) :
  iterM (k + j) body s = iterM k body s ≫= iterM j body.
Proof.
  revert s. induction k as [ | k IH]; intros s; cbn [iterM Nat.add]; [done|].
  destruct (body s) as [s' | e]; cbn [mbind result_bind]; [apply IH | done].
Qed.

Lemma generations_history species_list (k : nat) w w' :
  iterM k (generation species_list) w = Ok w' →
  same_names (objects w) (objects w')
  ∧ (∃ recorded, chemical_history w' = chemical_history w ++ recorded
                 ∧ length recorded = k)
  ∧ dict_keys (population_history w') = dict_keys (population_history w)
  ∧ ∀ n, series_length (population_history w') n
         = (series_length (population_history w) n
            + occurrences n (names_of species_list (objects w)) * k)%nat.
Proof.
  revert w. induction k as [ | k IH]; intros w; cbn [iterM].
  - intros [= <-]. split; [done|]. split; [exists []; by rewrite app_nil_r|].
    split; [done|]. intros n. lia.
  - intros (w1 & Hgen & Hrest)%bind_Ok.
    destruct (generation_history _ _ _ Hgen) as (N1 & C1 & K1 & S1).
    destruct (IH _ Hrest) as (N2 & (rec & C2 & L2) & K2 & S2).
    split; [by eapply same_names_trans|]. split.
    + exists (sum_list (dict_values (chemicals w)) :: rec).
      rewrite C2, C1, <- app_assoc. cbn. by rewrite L2.
    + split; [congruence|]. intros n.
      rewrite S2, S1, (names_of_same_names _ _ _ N1). lia.
Qed.

(** A generation never fails on an empty species list. *)
Lemma generation_no_species w :
  ∃ w', generation [] w = Ok w'
        ∧ population_history w' = population_history w.
Proof.
  unfold generation.
  cbn [foldM predation_pass evolve_pass foldl mbind result_bind].
  cbn [objects chemicals generator population_history chemical_history].
  destruct (replenish_chemicals (chemicals w) (generator w)) as [env4 g4].
  by eexists.
Qed.

Lemma generations_no_species (k : nat) w :
  ∃ w', iterM k (generation []) w = Ok w'
        ∧ population_history w' = population_history w.
Proof.
  revert w. induction k as [ | k IH]; intros w; cbn [iterM].
  - by exists w.
  - destruct (generation_no_species w) as (w1 & -> & H1).
    cbn [mbind result_bind].
    destruct (IH w1) as (w' & Hrun & Hph).
    exists w'. split; [done | congruence].
Qed.

End Histories.

(* ===================================================================== *)
(** * The environment *)
(* ===================================================================== *)

Section Environment_facts.

Lemma randint_range (a b : Z) (g : rng) :
  a ≤ b → a ≤ (randint a b g).1 ≤ b.
Proof.
  intros Hab. unfold randint, draw. cbn [fst].
  pose proof (Z.mod_pos_bound (tape g (cursor g)) (b - a + 1) ltac:(lia)). lia.
Qed.

(** Entry by entry: same key, quantity raised by a draw of [[10, 50]]. *)
Lemma replenish_chemicals_pointwise (chemicals : dict Z) (g : rng) :
  Forall2 (λ before after,
             before.1 = after.1 ∧ 10 ≤ after.2 - before.2 ≤ 50)
          chemicals (replenish_chemicals chemicals g).1.
Proof.
  revert g. induction chemicals as [ | [k q] rest IH]; intros g.
  - constructor.
  - cbn [replenish_chemicals].
    pose proof (randint_range 10 50 g ltac:(lia)) as Hr.
    destruct (randint 10 50 g) as [r g1]. cbn [fst] in Hr.
    specialize (IH g1).
    destruct (replenish_chemicals rest g1) as [rest' g2].
    cbn [fst] in *. constructor; [|done]. cbn. split; [done | lia].
Qed.

(** C8. Whatever the random draws, [replenish_chemicals] adds to every
    chemical quantity an integer between 10 and 50, and the keys of the
    mapping (and their order) are unchanged. *)
Theorem replenish_chemicals_spec (chemicals : dict Z) (g : rng) :
  let chemicals' := (replenish_chemicals chemicals g).1 in
  dict_keys chemicals' = dict_keys chemicals
  ∧ Forall2 (λ before after,
               before.1 = after.1 ∧ 10 ≤ after.2 - before.2 ≤ 50)
            chemicals chemicals'
  ∧ ∀ chemical q, dict_get chemicals chemical = Ok q →
      ∃ r, 10 ≤ r ≤ 50 ∧ dict_get chemicals' chemical = Ok (q + r).
Proof.
  cbn zeta. pose proof (replenish_chemicals_pointwise chemicals g) as Hall.
  split; [|split; [exact Hall|]].
  - unfold dict_keys. induction Hall as [ | [k q] [k' q'] rest rest' [Hk _] _ IH].
    + done.
    + cbn in *. by rewrite Hk, IH.
  - induction Hall as [ | [k q] [k' q'] rest rest' [Hk Hq] _ IH];
      intros chemical q0; cbn [dict_get]; [done|].
    cbn in Hk, Hq. subst k'.
    destruct (decide (chemical = k)) as [-> | Hne].
    + intros [= <-]. exists (q' - q). split; [lia | f_equal; lia].
    + apply IH.
Qed.

(** C8 on the initial chemicals, every raw draw being 7: each quantity
    grows by 17. *)
Lemma replenish_chemicals_spec_witness :
  ∃ r, 10 ≤ r ≤ 50
       ∧ dict_get (replenish_chemicals INITIAL_CHEMICALS (constant_rng 7)).1 "sulfur"
         = Ok (800 + r).
Proof.
  destruct (replenish_chemicals_spec INITIAL_CHEMICALS (constant_rng 7))
    as (_ & _ & H).
  apply (H "sulfur"%string 800). by vm_compute.
Defined.

Lemma env_nonneg_set (environment : dict Z) (chemical : string) (q : Z) :
  env_nonneg environment → 0 ≤ q → env_nonneg (dict_set environment chemical q).
Proof.
  unfold env_nonneg, dict_values. intros Henv Hq.
  induction environment as [ | [k0 q0] rest IH]; cbn.
  - by repeat constructor.
  - apply Forall_cons in Henv as [H0 Hrest].
    case_decide; cbn; constructor; auto.
Qed.

Lemma consume_chemicals_env_nonneg (h : heap) (self : ref)
    (environment : dict Z) (h' : heap) (environment' : dict Z) :
  env_nonneg environment →
  consume_chemicals self environment h = Ok (h', environment') →
  env_nonneg environment'.
Proof.
  intros Henv. unfold consume_chemicals.
  intros (avail & Havail & H)%bind_Ok.
  destruct (0 <? avail) eqn:Hlt; [|by injection H as <- <-].
  apply Z.ltb_lt in Hlt.
  apply bind_Ok in H as (yield & Hyield & H).
  apply bind_Ok in H as (gained & Hgain & H).
  apply bind_Ok in H as (e' & Hadd & [= <- <-]).
  apply env_nonneg_set; [done | lia].
Qed.

Lemma replenish_chemicals_env_nonneg (environment : dict Z) (g : rng) :
  env_nonneg environment → env_nonneg (replenish_chemicals environment g).1.
Proof.
  unfold env_nonneg, dict_values. intros Henv.
  pose proof (replenish_chemicals_pointwise environment g) as Hall.
  revert Henv Hall. generalize (replenish_chemicals environment g).1.
  induction environment as [ | [k q] rest IH]; intros env' Henv Hall.
  - apply Forall2_nil_inv_l in Hall as ->. constructor.
  - apply Forall2_cons_inv_l in Hall as ([k' q'] & rest' & [_ Hq] & Hall & ->).
    apply Forall_cons in Henv as [H0 Hrest]. cbn in *.
    constructor; [lia | by apply IH].
Qed.

Lemma first_pass_env_nonneg (species_list : list ref) (w w' : world) :
  env_nonneg (chemicals w) →
  foldM species_turn species_list w = Ok w' →
  env_nonneg (chemicals w').
Proof.
  revert w. induction species_list as [ | a l IH]; intros w Henv; cbn [foldM].
  - by intros [= <-].
  - intros (w1 & Hturn & Hrest)%bind_Ok.
    apply (IH w1); [|done].
    apply species_turn_spec in Hturn
      as (h1 & env1 & h2 & h3 & series & H1 & _ & _ & _ & ->).
    cbn [chemicals]. by eapply consume_chemicals_env_nonneg.
Qed.

Lemma generation_env_nonneg (species_list : list ref) (w w' : world) :
  env_nonneg (chemicals w) →
  generation species_list w = Ok w' →
  env_nonneg (chemicals w').
Proof.
  intros Henv (w1 & h2 & h3 & g3 & env4 & g4 & H1 & H2 & H3 & H4 & ->)%generation_spec.
  cbn [chemicals].
  apply first_pass_env_nonneg in H1; [|done].
  pose proof (replenish_chemicals_env_nonneg _ g3 H1) as Hr.
  by rewrite H4 in Hr.
Qed.

Lemma generations_env_nonneg (species_list : list ref) (k : nat) (w w' : world) :
  env_nonneg (chemicals w) →
  iterM k (generation species_list) w = Ok w' →
  env_nonneg (chemicals w').
Proof.
  revert w. induction k as [ | k IH]; intros w Henv; cbn [iterM].
  - by intros [= <-].
  - intros (w1 & Hgen & Hrest)%bind_Ok.
    apply (IH w1); [|done]. by eapply generation_env_nonneg.
Qed.

(** C9. When every chemical quantity is non-negative and every listed
    species has a non-negative population, every chemical quantity is
    still non-negative after a call of [consume_chemicals], after a
    call of [replenish_chemicals], and at the end of the simulation loop,
    whatever the number of generations. *)
Theorem chemicals_stay_nonneg :
  (∀ (h : heap) (self : ref) (environment : dict Z) h' environment',
     env_nonneg environment → 0 ≤ population (h !!! self) →
     consume_chemicals self environment h = Ok (h', environment') →
     env_nonneg environment')
  ∧ (∀ (environment : dict Z) (g : rng),
       env_nonneg environment →
       env_nonneg (replenish_chemicals environment g).1)
  ∧ (∀ (species_list : list ref) (h : heap) (environment : dict Z) (g : rng)
       (generations : Z) (w : world),
       env_nonneg environment →
       (∀ species, species ∈ species_list → 0 ≤ population (h !!! species)) →
       run_ecosystem species_list h environment g generations = Ok w →
       env_nonneg (chemicals w)).
Proof.
  split; [|split].
  - intros h self environment h' environment' Henv _.
    by apply consume_chemicals_env_nonneg.
  - apply replenish_chemicals_env_nonneg.
  - intros species_list h environment g generations w Henv _.
    unfold run_ecosystem. by apply generations_env_nonneg.
Qed.

(** C9 on the example set-up of the script, run for three generations. *)
Lemma chemicals_stay_nonneg_witness :
  ∃ w, run_ecosystem example_list (example_species (100, 120, 80))
         INITIAL_CHEMICALS (constant_rng 7) 3 = Ok w
       ∧ env_nonneg (chemicals w).
Proof.
  assert (Hok : succeeds (run_ecosystem example_list (example_species (100, 120, 80))
                            INITIAL_CHEMICALS (constant_rng 7) 3) = true)
    by (by vm_compute).
  destruct (run_ecosystem example_list (example_species (100, 120, 80))
              INITIAL_CHEMICALS (constant_rng 7) 3) as [w | e] eqn:Hrun;
    [|discriminate Hok].
  exists w. split; [reflexivity|].
  destruct chemicals_stay_nonneg as (_ & _ & H).
  apply (H example_list (example_species (100, 120, 80)) INITIAL_CHEMICALS
           (constant_rng 7) 3 w).
  - unfold env_nonneg. repeat constructor; by vm_compute.
  - intros species Hin. unfold example_list in Hin.
    apply elem_of_cons in Hin as [-> | Hin]; [by vm_compute|].
    apply elem_of_cons in Hin as [-> | Hin]; [by vm_compute|].
    apply elem_of_cons in Hin as [-> | Hin]; [by vm_compute|].
    apply elem_of_nil in Hin. destruct Hin.
  - exact Hrun.
Defined.

End Environment_facts.

(* ===================================================================== *)
(** * The simulation loop *)
(* ===================================================================== *)

Section Simulation.

Implicit Types (h : heap) (w : world) (species_list : list ref) (g : rng).

Lemma simulate_ecosystem_Ok species_list h (environment : dict Z) g
    (generations : Z) (ph : dict (list Z)) (ch : list Z) :
  simulate_ecosystem species_list h environment g generations = Ok (ph, ch) ↔
  ∃ w, run_ecosystem species_list h environment g generations = Ok w
       ∧ ph = population_history w ∧ ch = chemical_history w.
Proof.
  unfold simulate_ecosystem. rewrite bind_Ok. split.
  - intros (w & Hrun & [= <- <-]). by exists w.
  - intros (w & Hrun & -> & ->). by exists w.
Qed.

(** What a completed run has recorded. *)
Lemma run_ecosystem_history species_list h (environment : dict Z) g
    (generations : Z) w :
  run_ecosystem species_list h environment g generations = Ok w →
  length (chemical_history w) = Z.to_nat generations
  ∧ NoDup (dict_keys (population_history w))
  ∧ ∀ species, species ∈ species_list →
      ∃ series,
        dict_get (population_history w) (name (h !!! species)) = Ok series
        ∧ length series
          = (occurrences (name (h !!! species)) (names_of species_list h)
             * Z.to_nat generations)%nat.
Proof.
  unfold run_ecosystem, initial_world. intros Hrun.
  apply generations_history in Hrun as (_ & (rec & Hch & Hlen) & Hkeys & Hseries).
  cbn [objects chemical_history population_history] in *.
  destruct (init_population_history_spec species_list h) as (Hnd & Hin & _).
  split; [by rewrite Hch|]. split; [by rewrite Hkeys|].
  intros species Hs.
  assert (Hkey : name (h !!! species) ∈ dict_keys (population_history w)).
  { rewrite Hkeys. apply Hin. unfold names_of.
    apply list_elem_of_fmap. by exists species. }
  apply dict_get_key_elem in Hkey as [series Hget].
  exists series. split; [done|].
  specialize (Hseries (name (h !!! species))).
  unfold series_length at 1 in Hseries. rewrite Hget in Hseries.
  by rewrite Hseries, series_length_init.
Qed.

(** C5, as the code has it. For a generation count [G >= 0], a run that
    completes returns a chemical history of length [G], and, when the
    names of the listed species are pairwise distinct, a population
    history whose series has length [G] for every listed species; with
    [G = 0] the run always completes and every series is empty; with an
    empty species list the run always completes, with an empty
    population history and a chemical history of length [G]. *)
Theorem simulate_history_lengths species_list h (environment : dict Z) g
    (generations : Z) :
  0 ≤ generations →
  (∀ ph ch,
     simulate_ecosystem species_list h environment g generations = Ok (ph, ch) →
     length ch = Z.to_nat generations
     ∧ (NoDup (names_of species_list h) →
        ∀ species, species ∈ species_list →
          ∃ series, dict_get ph (name (h !!! species)) = Ok series
                    ∧ length series = Z.to_nat generations))
  ∧ (generations = 0 →
     ∃ ph, simulate_ecosystem species_list h environment g generations = Ok (ph, [])
           ∧ ∀ species, species ∈ species_list →
               dict_get ph (name (h !!! species)) = Ok [])
  ∧ (species_list = [] →
     ∃ ch, simulate_ecosystem species_list h environment g generations = Ok ([], ch)
           ∧ length ch = Z.to_nat generations).
Proof.
  intros HG. split; [|split].
  - intros ph ch (w & Hrun & -> & ->)%simulate_ecosystem_Ok.
    destruct (run_ecosystem_history _ _ _ _ _ _ Hrun) as (Hlen & _ & Hseries).
    split; [done|]. intros Hnd species Hs.
    destruct (Hseries species Hs) as (series & Hget & Hl).
    exists series. split; [done|].
    rewrite Hl, occurrences_NoDup; [lia | done | ].
    unfold names_of. apply list_elem_of_fmap. by exists species.
  - intros ->. exists (init_population_history species_list h).
    split; [done|]. intros species Hs.
    destruct (init_population_history_spec species_list h) as (_ & Hin & Hvals).
    assert (Hkey : name (h !!! species)
                   ∈ dict_keys (init_population_history species_list h)).
    { apply Hin. unfold names_of. apply list_elem_of_fmap. by exists species. }
    apply dict_get_key_elem in Hkey as [series Hget].
    by rewrite Hget, (Hvals _ _ Hget).
  - intros ->.
    destruct (generations_no_species (Z.to_nat generations)
                (initial_world [] h environment g)) as (w & Hrun & Hph).
    exists (chemical_history w). split.
    + apply simulate_ecosystem_Ok. exists w. by split.
    + by destruct (run_ecosystem_history [] h environment g generations w Hrun).
Qed.

(** C5 on the example set-up of the script, run for three generations. *)
Lemma simulate_history_lengths_witness :
  ∃ ph ch,
    simulate_ecosystem example_list (example_species (100, 120, 80))
                       INITIAL_CHEMICALS (constant_rng 7) 3 = Ok (ph, ch)
    ∧ length ch = 3%nat
    ∧ ∃ series, dict_get ph "Chemosynth B" = Ok series ∧ length series = 3%nat.
Proof.
  assert (Hok : succeeds (simulate_ecosystem example_list
                            (example_species (100, 120, 80))
                            INITIAL_CHEMICALS (constant_rng 7) 3) = true)
    by (by vm_compute).
  destruct (simulate_history_lengths example_list (example_species (100, 120, 80))
              INITIAL_CHEMICALS (constant_rng 7) 3 ltac:(lia)) as (H & _ & _).
  destruct (simulate_ecosystem example_list (example_species (100, 120, 80))
              INITIAL_CHEMICALS (constant_rng 7) 3) as [[ph ch] | e];
    [|discriminate Hok].
  destruct (H ph ch eq_refl) as [Hch Hseries].
  exists ph, ch. split; [reflexivity|]. split; [exact Hch|].
  apply (Hseries ltac:(apply (bool_decide_unpack _); by vm_compute) 1%nat).
  apply (bool_decide_unpack _). by vm_compute.
Defined.

(** C5 as the specification states it fails: two listed species that
    share a name share one series, which has length 2 after a single
    generation. *)
Lemma shared_name_series_too_long :
  ¬ (∀ species_list h (environment : dict Z) g (generations : Z)
       (ph : dict (list Z)) (ch : list Z),
       0 ≤ generations →
       simulate_ecosystem species_list h environment g generations = Ok (ph, ch) →
       length ch = Z.to_nat generations
       ∧ ∀ species, species ∈ species_list →
           ∃ series, dict_get ph (name (h !!! species)) = Ok series
                     ∧ length series = Z.to_nat generations).
Proof.
  intros Hclaim.
  specialize (Hclaim [0%nat; 1%nat]
                (predator_and_prey (chemosynth_a 100 (PInt 0)) (chemosynth_a 200 (PInt 0)))
                INITIAL_CHEMICALS (constant_rng 7) 1
                [("Chemosynth A"%string, [105; 210])] [2300]
                ltac:(lia) ltac:(by vm_compute)) as [_ Hseries].
  destruct (Hseries 0%nat ltac:(left)) as (series & Hget & Hlen).
  vm_compute in Hget. injection Hget as <-. done.
Qed.

(** A run does not complete when a listed species depends on a chemical
    that the environment does not hold: the lookup raises [KeyError]. *)
Example unknown_affinity_raises :
  simulate_ecosystem [0%nat]
    (single_species (mkSpecies "Chemosynth D" (float_lit 8 10) (float_lit 5 100)
                               (float_lit 2 100) "oxygen" 100 (PInt 0) None))
    INITIAL_CHEMICALS (constant_rng 7) 1
  = Raise KeyError.
Proof. by vm_compute. Qed.

(** C10. The population history is keyed by name: it has one entry per
    name, and after a run of [G] generations the series of a name shared
    by [k] listed species has length [k * G]; so, for [G > 0], every
    listed species has a series of length [G] only when the names are
    pairwise distinct. *)
Theorem history_keyed_by_name species_list h (environment : dict Z) g
    (generations : Z) (ph : dict (list Z)) (ch : list Z) :
  0 ≤ generations →
  simulate_ecosystem species_list h environment g generations = Ok (ph, ch) →
  NoDup (dict_keys ph)
  ∧ (∀ species, species ∈ species_list →
       ∃ series,
         dict_get ph (name (h !!! species)) = Ok series
         ∧ length series
           = (occurrences (name (h !!! species)) (names_of species_list h)
              * Z.to_nat generations)%nat)
  ∧ (0 < generations →
     (∀ species, species ∈ species_list →
        ∃ series, dict_get ph (name (h !!! species)) = Ok series
                  ∧ length series = Z.to_nat generations) →
     NoDup (names_of species_list h)).
Proof.
  intros HG (w & Hrun & -> & ->)%simulate_ecosystem_Ok.
  destruct (run_ecosystem_history _ _ _ _ _ _ Hrun) as (Hlen & Hnd & Hseries).
  split; [done|]. split; [done|].
  intros Hpos Hall. apply NoDup_occurrences. intros n Hn.
  unfold names_of in Hn. apply list_elem_of_fmap in Hn as (species & -> & Hs).
  destruct (Hseries species Hs) as (series & Hget & Hl).
  destruct (Hall species Hs) as (series' & Hget' & Hl').
  rewrite Hget in Hget'. injection Hget' as <-.
  rewrite Hl' in Hl. fold (names_of species_list h) in Hl. nia.
Qed.

(** C10 on two species named alike, run for three generations: their
    common series has length [2 * 3]. *)
Lemma history_keyed_by_name_witness :
  ∃ ph ch series,
    simulate_ecosystem [0%nat; 1%nat]
      (predator_and_prey (chemosynth_a 100 (PInt 0)) (chemosynth_a 200 (PInt 0)))
      INITIAL_CHEMICALS (constant_rng 7) 3 = Ok (ph, ch)
    ∧ dict_keys ph = ["Chemosynth A"%string]
    ∧ dict_get ph "Chemosynth A" = Ok series
    ∧ length series = 6%nat.
Proof.
  set (h := predator_and_prey (chemosynth_a 100 (PInt 0)) (chemosynth_a 200 (PInt 0))).
  assert (Hok : succeeds (simulate_ecosystem [0%nat; 1%nat] h
                            INITIAL_CHEMICALS (constant_rng 7) 3) = true)
    by (by vm_compute).
  assert (Hkeys : ∀ ph ch,
            simulate_ecosystem [0%nat; 1%nat] h INITIAL_CHEMICALS (constant_rng 7) 3
            = Ok (ph, ch) → dict_keys ph = ["Chemosynth A"%string]).
  { intros ph ch. by vm_compute; intros [= <- _]. }
  pose proof (history_keyed_by_name [0%nat; 1%nat] h INITIAL_CHEMICALS
                (constant_rng 7) 3) as H.
  destruct (simulate_ecosystem [0%nat; 1%nat] h INITIAL_CHEMICALS (constant_rng 7) 3)
    as [[ph ch] | e]; [|discriminate Hok].
  destruct (H ph ch ltac:(lia) eq_refl) as (_ & Hseries & _).
  destruct (Hseries 0%nat ltac:(left)) as (series & Hget & Hlen).
  exists ph, ch, series. split; [reflexivity|]. split; [by eapply Hkeys|].
  split; [exact Hget | exact Hlen].
Defined.

Lemma evolve_pass_population species_list h g h' (g' : rng) (r : ref) :
  evolve_pass species_list (h, g) = (h', g') →
  population (h' !!! r) = population (h !!! r).
Proof.
  unfold evolve_pass. revert h g.
  induction species_list as [ | a l IH]; intros h g; cbn [foldl].
  - by intros [= <- <-].
  - destruct (evolve a (h, g)) as [h1 g1] eqn:Hev. intros H.
    rewrite (IH _ _ H). by destruct (evolve_frame _ _ _ _ _ r Hev) as (? & _).
Qed.

(** C6. In a generation, the value appended to a species' series is its
    population right after its own [reproduce] call; the population
    history of the generation is complete when the first pass ends,
    before the predation pass runs on the objects that pass has left,
    and is not touched afterwards, while the populations at the end of
    the generation (from which the next generation starts) are those the
    predation pass has left. With pairwise distinct objects and names,
    the value recorded for a species is therefore its population at the
    start of the predation pass. *)
Theorem recorded_population_timing species_list w w' :
  generation species_list w = Ok w' →
  (∀ species wa wb,
     species_turn species wa = Ok wb →
     ∃ h1 env1 h2 series,
       consume_chemicals species (chemicals wa) (objects wa) = Ok (h1, env1)
       ∧ symbiotic_interaction species h1 = Ok h2
       ∧ reproduce species h2 = Ok (objects wb)
       ∧ dict_get (population_history wa) (name (objects wb !!! species))
         = Ok series
       ∧ population_history wb
         = dict_set (population_history wa) (name (objects wb !!! species))
                    (series ++ [population (objects wb !!! species)]))
  ∧ ∃ w1 h2,
      foldM species_turn species_list
        (mkWorld (objects w) (chemicals w) (generator w) (population_history w)
                 (chemical_history w ++ [sum_list (dict_values (chemicals w))]))
      = Ok w1
      ∧ predation_pass species_list (objects w1) = Ok h2
      ∧ population_history w' = population_history w1
      ∧ (∀ r, population (objects w' !!! r) = population (h2 !!! r))
      ∧ (NoDup species_list →
         NoDup (names_of species_list (objects w)) →
         ∀ species, species ∈ species_list →
           ∃ series,
             dict_get (population_history w) (name (objects w !!! species))
             = Ok series
             ∧ dict_get (population_history w') (name (objects w !!! species))
               = Ok (series ++ [population (objects w1 !!! species)])).
Proof.
  intros Hgen. split.
  - intros species wa wb
      (h1 & env1 & h2 & h3 & series & H1 & H2 & H3 & Hget & ->)%species_turn_spec.
    by exists h1, env1, h2, series.
  - apply generation_spec in Hgen
      as (w1 & h2 & h3 & g3 & env4 & g4 & H1 & H2 & H3 & H4 & ->).
    exists w1, h2. cbn [objects population_history].
    split; [done|]. split; [done|]. split; [done|]. split.
    + intros r. by eapply evolve_pass_population.
    + intros Hnd Hnames species Hs.
      destruct (λ Hn, first_pass_records species_list _ w1 Hnd Hn H1 species Hs)
        as (series & G1 & G2); [exact Hnames|].
      by exists series.
Qed.

(** C6 on the first generation of the example set-up: the value recorded
    for "Chemosynth B" is its population when the first pass ends, and
    the predation pass then changes that population. *)
Lemma recorded_population_timing_witness :
  let w := initial_world example_list (example_species (100, 120, 80))
                         INITIAL_CHEMICALS (constant_rng 7) in
  ∃ w' w1 series,
    generation example_list w = Ok w'
    ∧ population_history w' = population_history w1
    ∧ dict_get (population_history w') "Chemosynth B"
      = Ok (series ++ [population (objects w1 !!! 1%nat)]).
Proof.
  intros w.
  assert (Hok : succeeds (generation example_list w) = true) by (by vm_compute).
  destruct (generation example_list w) as [w' | e] eqn:Hgen; [|discriminate Hok].
  destruct (recorded_population_timing example_list w w' Hgen)
    as (_ & w1 & h2 & _ & _ & Hph & _ & Hrec).
  destruct (Hrec ltac:(apply (bool_decide_unpack _); by vm_compute)
                 ltac:(apply (bool_decide_unpack _); by vm_compute)
                 1%nat ltac:(apply (bool_decide_unpack _); by vm_compute))
    as (series & _ & Hget).
  exists w', w1, series. split; [reflexivity|]. split; [exact Hph | exact Hget].
Defined.

(** In that generation "Chemosynth B" is recorded with 124 individuals
    and ends the generation, after predation, with 123. *)
Example recorded_before_predation :
  let w := initial_world example_list (example_species (100, 120, 80))
                         INITIAL_CHEMICALS (constant_rng 7) in
  (w' ← generation example_list w;
   series ← dict_get (population_history w') "Chemosynth B";
   Ok (series, population (objects w' !!! 1%nat)))
  = Ok ([124], 123).
Proof. by vm_compute. Qed.

(** C7. The value a generation appends to the chemical history is the
    sum of the chemical quantities with which that generation starts;
    so in a completed run the entry of index [k] is the sum of the
    quantities after [k] generations, and the first entry is the sum of
    the initial quantities. *)
Theorem chemical_history_snapshot species_list h (environment : dict Z) g
    (generations : Z) w :
  run_ecosystem species_list h environment g generations = Ok w →
  (∀ w0 w1, generation species_list w0 = Ok w1 →
            chemical_history w1
            = chemical_history w0 ++ [sum_list (dict_values (chemicals w0))])
  ∧ (∀ k : nat, (k < Z.to_nat generations)%nat →
       ∃ wk, run_ecosystem species_list h environment g (Z.of_nat k) = Ok wk
             ∧ chemical_history w !! k
               = Some (sum_list (dict_values (chemicals wk))))
  ∧ (0 < generations →
     chemical_history w !! 0%nat = Some (sum_list (dict_values environment))).
Proof.
  intros Hrun.
  assert (Hsteps : ∀ k : nat, (k < Z.to_nat generations)%nat →
    ∃ wk, run_ecosystem species_list h environment g (Z.of_nat k) = Ok wk
          ∧ chemical_history w !! k
            = Some (sum_list (dict_values (chemicals wk)))).
  { intros k Hk. unfold run_ecosystem in *. rewrite Nat2Z.id.
    replace (Z.to_nat generations) with (k + S (Z.to_nat generations - S k))%nat
      in Hrun by lia.
    rewrite iterM_add in Hrun.
    apply bind_Ok in Hrun as (wk & Hk1 & Hrest). cbn [iterM] in Hrest.
    apply bind_Ok in Hrest as (w1 & Hgen & Hrest).
    exists wk. split; [done|].
    apply generations_history in Hk1 as (_ & (rec & Hc1 & Hl1) & _).
    apply generation_history in Hgen as (_ & Hc2 & _).
    apply generations_history in Hrest as (_ & (rec' & Hc3 & _) & _).
    cbn [initial_world chemical_history] in Hc1.
    rewrite Hc3, Hc2, Hc1, <- app_assoc. cbn [app].
    rewrite <- Hl1. apply list_lookup_middle. done. }
  split; [|split; [done|]].
  - intros w0 w1 Hgen. by apply generation_history in Hgen as (_ & ? & _).
  - intros Hpos. destruct (Hsteps 0%nat ltac:(lia)) as (w0 & H0 & Hget).
    unfold run_ecosystem in H0. cbn in H0. by injection H0 as <-.
Qed.

(** C7 on the example set-up of the script: the first entry is
    [1000 + 800 + 500]. *)
Lemma chemical_history_snapshot_witness :
  ∃ w, run_ecosystem example_list (example_species (100, 120, 80))
         INITIAL_CHEMICALS (constant_rng 7) 3 = Ok w
       ∧ chemical_history w !! 0%nat = Some 2300.
Proof.
  assert (Hok : succeeds (run_ecosystem example_list (example_species (100, 120, 80))
                            INITIAL_CHEMICALS (constant_rng 7) 3) = true)
    by (by vm_compute).
  destruct (run_ecosystem example_list (example_species (100, 120, 80))
              INITIAL_CHEMICALS (constant_rng 7) 3) as [w | e] eqn:Hrun;
    [|discriminate Hok].
  exists w. split; [reflexivity|].
  destruct (chemical_history_snapshot _ _ _ _ _ _ Hrun) as (_ & _ & H).
  apply H. lia.
Defined.

End Simulation.

(* ===================================================================== *)
(** * Error and edge behaviour of the species behaviours *)
(* ===================================================================== *)

Section Errors_and_balances.

Implicit Types (h : heap) (self prey r : ref).

Lemma dict_get_absent {V : Type} (d : dict V) (k : string) :
  k ∉ dict_keys d → dict_get d k = Raise KeyError.
Proof.
  unfold dict_keys. induction d as [ | [k0 v0] d IH]; cbn; [done|].
  intros Hk. apply not_elem_of_cons in Hk as [Hne Hk].
  rewrite decide_False by done. by apply IH.
Qed.

Lemma dict_get_Ok_key {V : Type} (d : dict V) (k : string) (v : V) :
  dict_get d k = Ok v → k ∈ dict_keys d.
Proof.
  intros H%dict_get_is_elem. unfold dict_keys.
  apply list_elem_of_fmap. by exists (k, v).
Qed.

Lemma dict_get_raises {V : Type} (d : dict V) (k : string) (e : exn) :
  dict_get d k = Raise e → e = KeyError.
Proof.
  induction d as [ | [k0 v0] d IH]; cbn; [by intros [= <-]|].
  by case_decide.
Qed.

Lemma to_float_raises (a : pynum) (e : exn) :
  to_float a = Raise e → e = OverflowError.
Proof.
  destruct a as [z | f]; cbn; [|done].
  unfold float_of_int. by destruct (float_round z 0); intros [= <-].
Qed.

Lemma py_mul_raises (a b : pynum) (e : exn) :
  py_mul a b = Raise e → e = OverflowError.
Proof.
  unfold py_mul. destruct a as [x | fa], b as [y | fb]; [done | | | done].
  - destruct (to_float (PInt x)) as [f | e'] eqn:Hf; [done|].
    cbn. intros [= <-]. by eapply to_float_raises.
  - cbn [to_float mbind result_bind].
    destruct (float_of_int y) as [f | e'] eqn:Hf; [done|].
    cbn. intros [= <-]. by eapply (to_float_raises (PInt y)).
Qed.

Lemma py_add_raises (a b : pynum) (e : exn) :
  py_add a b = Raise e → e = OverflowError.
Proof.
  unfold py_add. destruct a as [x | fa], b as [y | fb]; [done | | | done].
  - destruct (to_float (PInt x)) as [f | e'] eqn:Hf; [done|].
    cbn. intros [= <-]. by eapply to_float_raises.
  - cbn [to_float mbind result_bind].
    destruct (float_of_int y) as [f | e'] eqn:Hf; [done|].
    cbn. intros [= <-]. by eapply (to_float_raises (PInt y)).
Qed.

(** What [consume_chemicals] raises, step by step. *)
Lemma consume_chemicals_raise_cases h self (environment : dict Z) (e : exn) :
  consume_chemicals self environment h = Raise e →
  let chemical := chemical_affinity (h !!! self) in
  (e = KeyError ∧ chemical ∉ dict_keys environment)
  ∨ (∃ avail, dict_get environment chemical = Ok avail ∧ 0 < avail
              ∧ ((e = KeyError ∧ chemical ∉ dict_keys ENERGY_YIELD)
                 ∨ (e = OverflowError ∧ chemical ∈ dict_keys ENERGY_YIELD))).
Proof.
  unfold consume_chemicals. intros H.
  set (chemical := chemical_affinity (h !!! self)) in *.
  destruct (dict_get environment chemical) as [avail | e1] eqn:Havail.
  - right. exists avail. split; [done|].
    cbn [mbind result_bind] in H.
    destruct (0 <? avail) eqn:Hlt; [|done].
    apply Z.ltb_lt in Hlt. split; [done|].
    destruct (dict_get ENERGY_YIELD chemical) as [yield | e2] eqn:Hyield.
    + right. cbn [mbind result_bind] in H.
      split; [|by eapply dict_get_Ok_key].
      destruct (py_mul _ _) as [gained | e3] eqn:Hmul.
      * cbn [mbind result_bind] in H.
        destruct (py_add _ _) as [e' | e4] eqn:Hadd; [done|].
        injection H as <-. by eapply py_add_raises.
      * injection H as <-. by eapply py_mul_raises.
    + left. injection H as <-.
      split; [by eapply dict_get_raises | by eapply dict_get_None_keys].
  - left. injection H as <-.
    split; [by eapply dict_get_raises | by eapply dict_get_None_keys].
Qed.

(** X1. [consume_chemicals] raises [KeyError] exactly when the species'
    chemical is not a key of the environment, or when a positive quantity
    of it is available and the chemical is not a key of [ENERGY_YIELD];
    it never raises [ValueError] (its only other failure is the
    [OverflowError] of an int too large for a float). *)
Theorem consume_chemicals_KeyError h self (environment : dict Z) :
  (consume_chemicals self environment h = Raise KeyError ↔
     chemical_affinity (h !!! self) ∉ dict_keys environment
     ∨ ∃ avail, dict_get environment (chemical_affinity (h !!! self)) = Ok avail
                ∧ 0 < avail
                ∧ chemical_affinity (h !!! self) ∉ dict_keys ENERGY_YIELD)
  ∧ consume_chemicals self environment h ≠ Raise ValueError.
Proof.
  split; [split|].
  - intros H. apply consume_chemicals_raise_cases in H
      as [[_ H] | (avail & Hget & Hpos & [[_ H] | [H _]])]; [by left | | done].
    right. by exists avail.
  - unfold consume_chemicals.
    intros [H | (avail & Hget & Hpos & H)].
    + by rewrite (dict_get_absent _ _ H).
    + rewrite Hget. cbn [mbind result_bind].
      rewrite (proj2 (Z.ltb_lt 0 avail) Hpos).
      by rewrite (dict_get_absent _ _ H).
  - intros H. apply consume_chemicals_raise_cases in H
      as [[H _] | (avail & _ & _ & [[H _] | [H _]])]; done.
Qed.

(** X1 on a species that feeds on a chemical the environment does not
    hold. *)
Lemma consume_chemicals_KeyError_witness :
  consume_chemicals 0%nat INITIAL_CHEMICALS
    (single_species (mkSpecies "Ferro" (float_lit 8 10) (float_lit 5 100)
                               (float_lit 2 100) "iron" 100 (PInt 0) None))
  = Raise KeyError.
Proof.
  apply (consume_chemicals_KeyError
           (single_species (mkSpecies "Ferro" (float_lit 8 10) (float_lit 5 100)
                                      (float_lit 2 100) "iron" 100 (PInt 0) None))
           0%nat INITIAL_CHEMICALS).
  left. apply (bool_decide_unpack _). by vm_compute.
Defined.

Lemma sum_list_dict_set (d : dict Z) (k : string) (old v : Z) :
  dict_get d k = Ok old →
  sum_list (dict_values (dict_set d k v)) = sum_list (dict_values d) - old + v.
Proof.
  unfold dict_values, sum_list.
  induction d as [ | [k0 v0] d IH]; cbn; [done|].
  destruct (decide (k = k0)) as [-> | Hne]; cbn.
  - intros [= ->]. lia.
  - intros H. rewrite IH by done. lia.
Qed.

(** X2. A call of [consume_chemicals] that returns lowers the total of
    the chemical quantities by exactly the amount consumed (the smaller
    of the available quantity and the population, or nothing when no
    positive quantity is available); the keys of the environment and
    their order, and the quantity of every other chemical, are
    unchanged; on the heap only the energy of [self] is written. *)
Theorem consume_chemicals_total h self (environment : dict Z) h' environment' :
  consume_chemicals self environment h = Ok (h', environment') →
  ∃ avail,
    dict_get environment (chemical_affinity (h !!! self)) = Ok avail
    ∧ sum_list (dict_values environment')
      = sum_list (dict_values environment)
        - (if 0 <? avail then Z.min avail (population (h !!! self)) else 0)
    ∧ dict_keys environment' = dict_keys environment
    ∧ (∀ k, k ≠ chemical_affinity (h !!! self) →
            dict_get environment' k = dict_get environment k)
    ∧ (∃ e', h' = <[self := set_energy e' (h !!! self)]> h ∨ h' = h).
Proof.
  unfold consume_chemicals.
  intros (avail & Havail & H)%bind_Ok. exists avail. split; [done|].
  destruct (0 <? avail) eqn:Hlt.
  - apply bind_Ok in H as (yield & Hyield & H).
    apply bind_Ok in H as (gained & Hgain & H).
    apply bind_Ok in H as (e' & Hadd & [= <- <-]).
    split; [rewrite (sum_list_dict_set _ _ _ _ Havail); lia|].
    split; [by eapply dict_keys_set_present|].
    split; [intros k Hk; by apply dict_get_set_ne|].
    exists e'. by left.
  - injection H as <- <-.
    split; [lia|]. split; [done|]. split; [done|].
    exists (energy (h !!! self)). by right.
Qed.

(** X2 on the scenario of the specification: population 100 and 1000
    units of hydrogen leave a total of [2300 - 100]. *)
Lemma consume_chemicals_total_witness :
  ∃ h' environment',
    consume_chemicals 0%nat INITIAL_CHEMICALS
                      (single_species (chemosynth_a 100 (PInt 0)))
    = Ok (h', environment')
    ∧ sum_list (dict_values environment') = 2200.
Proof.
  assert (Hok : succeeds (consume_chemicals 0%nat INITIAL_CHEMICALS
                            (single_species (chemosynth_a 100 (PInt 0)))) = true)
    by (by vm_compute).
  destruct (consume_chemicals 0%nat INITIAL_CHEMICALS
              (single_species (chemosynth_a 100 (PInt 0))))
    as [[h' environment'] | e] eqn:Hrun; [|discriminate Hok].
  exists h', environment'. split; [reflexivity|].
  destruct (consume_chemicals_total _ _ _ _ _ Hrun) as (avail & Hget & -> & _).
  assert (E : avail = 1000).
  { assert (Hc : dict_get INITIAL_CHEMICALS
                   (chemical_affinity
                      (single_species (chemosynth_a 100 (PInt 0)) !!! 0%nat))
                 = Ok 1000) by (by vm_compute).
    rewrite Hc in Hget. by injection Hget. }
  rewrite E. by vm_compute.
Defined.

(** The number under [int(...)] in [reproduce], [predation]: an int
    times a float that is not negative is not negative. *)
Lemma int_of_product_nonneg (z : Z) (r : float) (product : pynum) (n : Z) :
  0 ≤ z → float_ge_int r 0 = true →
  py_mul (PInt z) (PFloat r) = Ok product →
  py_int product = Ok n →
  0 ≤ n.
Proof.
  intros Hz Hr Hmul Hint.
  destruct (float_finite r) eqn:Hfin.
  - apply (py_int_nonneg product); [|done].
    by eapply py_mul_int_float_ge_0.
  - exfalso. unfold py_mul in Hmul.
    apply bind_Ok in Hmul as (f & Hf & [= <-]).
    cbn [to_float] in Hf.
    pose proof (float_of_int_finite _ _ Hf) as Hff.
    destruct r as [s | [|] | | s m e]; try done.
    destruct f as [s | s | | s m e]; try done.
Qed.


(** X3. [reproduce] never lowers a non-negative population when the
    reproduction rate is not negative, and when moreover the population
    is at most [2^53] and the rate at most one, the population at most
    doubles. *)
Theorem reproduce_population_bounds h self h' :
  0 ≤ population (h !!! self) →
  float_ge_int (reproduction_rate (h !!! self)) 0 = true →
  reproduce self h = Ok h' →
  population (h !!! self) ≤ population (h' !!! self)
  ∧ (population (h !!! self) ≤ 2 ^ 53 →
     float_valid (reproduction_rate (h !!! self)) →
     float_le_int (reproduction_rate (h !!! self)) 1 = true →
     population (h' !!! self) ≤ 2 * population (h !!! self)).
Proof.
  intros Hpop Hge. unfold reproduce.
  destruct (py_ge_int (energy (h !!! self)) (population (h !!! self) * 2));
    [|intros [= <-]; lia].
  intros (product & Hmul & H)%bind_Ok.
  apply bind_Ok in H as (offspring & Hint & H).
  apply bind_Ok in H as (e' & Hsub & [= <-]).
  rewrite !lookup_total_insert_eq. cbn [population set_energy set_population].
  pose proof (int_of_product_nonneg _ _ _ _ Hpop Hge Hmul Hint) as H0.
  split; [lia|]. intros Hsmall Hv Hle.
  destruct (decide (population (h !!! self) = 0)) as [E | Hnz].
  - rewrite E in Hmul. unfold py_mul, to_float in Hmul.
    rewrite float_of_int_0 in Hmul. injection Hmul as <-.
    destruct (reproduction_rate (h !!! self)) as [s | s | | s m e];
      cbn in Hint; try done; injection Hint as <-; lia.
  - assert (Hp : 0 < population (h !!! self) ≤ 2 ^ 53) by lia.
    pose proof (prey_loss_bounds _ _ _ _ Hp Hv Hge Hle Hmul Hint). lia.
Qed.

(** X3 on the scenario of the specification: population 100, energy
    200, rate 0.05. *)
Lemma reproduce_population_bounds_witness :
  ∃ h', reproduce 0%nat (single_species (chemosynth_a 100 (PInt 200))) = Ok h'
        ∧ 100 ≤ population (h' !!! 0%nat) ≤ 200.
Proof.
  assert (Hok : succeeds (reproduce 0%nat
                            (single_species (chemosynth_a 100 (PInt 200)))) = true)
    by (by vm_compute).
  destruct (reproduce 0%nat (single_species (chemosynth_a 100 (PInt 200))))
    as [h' | e] eqn:Hrun; [|discriminate Hok].
  exists h'. split; [reflexivity|].
  destruct (reproduce_population_bounds
              (single_species (chemosynth_a 100 (PInt 200))) 0%nat h')
    as [Hlo Hhi].
  - by vm_compute.
  - by vm_compute.
  - exact Hrun.
  - split; [exact Hlo|].
    apply Hhi; [by vm_compute | by vm_compute | by vm_compute].
Defined.

(** X4. A species whose population is [0] stays at [0] through
    [reproduce], whatever its energy and its reproduction rate, and
    consumes nothing: [consume_chemicals] leaves every chemical quantity
    as it was. *)
Theorem extinct_species_stays_extinct h self :
  population (h !!! self) = 0 →
  (∀ h', reproduce self h = Ok h' → population (h' !!! self) = 0)
  ∧ (∀ (environment : dict Z) h' environment',
       consume_chemicals self environment h = Ok (h', environment') →
       environment' = environment).
Proof.
  intros Hpop. split.
  - intros h'. unfold reproduce. rewrite Hpop.
    destruct (py_ge_int (energy (h !!! self)) (0 * 2));
      [|intros [= <-]; done].
    intros (product & Hmul & H)%bind_Ok.
    apply bind_Ok in H as (offspring & Hint & H).
    apply bind_Ok in H as (e' & Hsub & [= <-]).
    rewrite !lookup_total_insert_eq. cbn [population set_energy set_population].
    unfold py_mul, to_float in Hmul.
    rewrite float_of_int_0 in Hmul. injection Hmul as <-.
    destruct (reproduction_rate (h !!! self)) as [s | s | | s m e];
      cbn in Hint; try done; by injection Hint as <-.
  - intros environment h' environment'. unfold consume_chemicals. rewrite Hpop.
    intros (avail & Havail & H)%bind_Ok.
    destruct (0 <? avail) eqn:Hlt; [|by injection H as <- <-].
    apply Z.ltb_lt in Hlt.
    apply bind_Ok in H as (yield & Hyield & H).
    apply bind_Ok in H as (gained & Hgain & H).
    apply bind_Ok in H as (e' & Hadd & [= <- <-]).
    replace (avail - Z.min avail 0) with avail by lia.
    clear -Havail. induction environment as [ | [k0 v0] d IH]; cbn in *; [done|].
    destruct (decide (chemical_affinity (h !!! self) = k0)) as [-> | Hne].
    + by injection Havail as ->.
    + by rewrite IH.
Qed.

(** X4 on "Chemosynth A" with population 0 and energy 10. *)
Lemma extinct_species_stays_extinct_witness :
  ∃ h', reproduce 0%nat (single_species (chemosynth_a 0 (PInt 10))) = Ok h'
        ∧ population (h' !!! 0%nat) = 0.
Proof.
  assert (Hok : succeeds (reproduce 0%nat
                            (single_species (chemosynth_a 0 (PInt 10)))) = true)
    by (by vm_compute).
  destruct (reproduce 0%nat (single_species (chemosynth_a 0 (PInt 10))))
    as [h' | e] eqn:Hrun; [|discriminate Hok].
  exists h'. split; [reflexivity|].
  apply (extinct_species_stays_extinct
           (single_species (chemosynth_a 0 (PInt 10))) 0%nat);
    [by vm_compute | exact Hrun].
Defined.

Lemma predation_population_step h self prey h' :
  float_ge_int (predation_rate (h !!! self)) 0 = true →
  predation self prey h = Ok h' →
  population (h' !!! prey) ≤ population (h !!! prey)
  ∧ (self ≠ prey →
     population (h !!! self) ≤ population (h' !!! self)
     ∧ population (h' !!! self) + population (h' !!! prey)
       ≤ population (h !!! self) + population (h !!! prey))
  ∧ (∀ r, r ≠ self → r ≠ prey → h' !!! r = h !!! r).
Proof.
  intros Hge. unfold predation.
  destruct (0 <? population (h !!! prey)) eqn:Hlt;
    [|intros [= <-]; repeat split; lia].
  apply Z.ltb_lt in Hlt.
  intros (product & Hmul & H)%bind_Ok.
  apply bind_Ok in H as (prey_loss & Hint & [= <-]).
  assert (Hp0 : 0 ≤ population (h !!! prey)) by lia.
  pose proof (int_of_product_nonneg _ _ _ _ Hp0 Hge Hmul Hint) as H0.
  pose proof (Z.div_pos prey_loss 2 H0 ltac:(lia)) as Hhalf.
  assert (Hle : prey_loss `div` 2 ≤ prey_loss).
  { apply Z.div_le_upper_bound; lia. }
  rewrite lookup_total_insert_eq. cbn [population set_population].
  split; [|split].
  - destruct (decide (self = prey)) as [-> | Hne].
    + rewrite lookup_total_insert_eq. cbn [population set_population]. lia.
    + rewrite lookup_total_insert_ne by done. lia.
  - intros Hne.
    rewrite (lookup_total_insert_ne _ prey self) by done.
    rewrite lookup_total_insert_eq.
    rewrite (lookup_total_insert_ne _ self prey) by done.
    cbn [population set_population]. lia.
  - intros r Hr1 Hr2. by rewrite !lookup_total_insert_ne.
Qed.

(** X5. [predation] by a predator whose rate is not negative never
    creates individuals: the prey does not grow, a distinct predator does
    not shrink, their combined population does not grow, and every other
    object of the heap is unchanged. *)
Theorem predation_population_balance h self prey h' :
  float_ge_int (predation_rate (h !!! self)) 0 = true →
  predation self prey h = Ok h' →
  population (h' !!! prey) ≤ population (h !!! prey)
  ∧ (self ≠ prey →
     population (h !!! self) ≤ population (h' !!! self)
     ∧ population (h' !!! self) + population (h' !!! prey)
       ≤ population (h !!! self) + population (h !!! prey))
  ∧ (∀ r, r ≠ self → r ≠ prey → h' !!! r = h !!! r).
Proof.
  intros Hge. unfold predation.
  destruct (0 <? population (h !!! prey)) eqn:Hlt;
    [|intros [= <-]; repeat split; lia].
  apply Z.ltb_lt in Hlt.
  intros (product & Hmul & H)%bind_Ok.
  apply bind_Ok in H as (prey_loss & Hint & [= <-]).
  assert (Hp0 : 0 ≤ population (h !!! prey)) by lia.
  pose proof (int_of_product_nonneg _ _ _ _ Hp0 Hge Hmul Hint) as H0.
  pose proof (Z.div_pos prey_loss 2 H0 ltac:(lia)) as Hhalf.
  assert (Hle : prey_loss `div` 2 ≤ prey_loss).
  { apply Z.div_le_upper_bound; lia. }
  rewrite lookup_total_insert_eq. cbn [population set_population].
  split; [|split].
  - destruct (decide (self = prey)) as [-> | Hne].
    + rewrite lookup_total_insert_eq. cbn [population set_population]. lia.
    + rewrite lookup_total_insert_ne by done. lia.
  - intros Hne.
    rewrite (lookup_total_insert_ne _ prey self) by done.
    rewrite lookup_total_insert_eq.
    rewrite (lookup_total_insert_ne _ self prey) by done.
    cbn [population set_population]. lia.
  - intros r Hr1 Hr2. by rewrite !lookup_total_insert_ne.
Qed.

(** X5 on the scenario of the specification: rate 0.02, prey of 200. *)
Lemma predation_population_balance_witness :
  ∃ h', predation 0%nat 1%nat
          (predator_and_prey (chemosynth_a 100 (PInt 0))
                             (chemosynth_a 200 (PInt 0))) = Ok h'
        ∧ population (h' !!! 1%nat) ≤ 200
        ∧ population (h' !!! 0%nat) + population (h' !!! 1%nat) ≤ 300.
Proof.
  assert (Hok : succeeds (predation 0%nat 1%nat
                            (predator_and_prey (chemosynth_a 100 (PInt 0))
                                               (chemosynth_a 200 (PInt 0))))
                = true) by (by vm_compute).
  destruct (predation 0%nat 1%nat
              (predator_and_prey (chemosynth_a 100 (PInt 0))
                                 (chemosynth_a 200 (PInt 0))))
    as [h' | e] eqn:Hrun; [|discriminate Hok].
  exists h'. split; [reflexivity|].
  destruct (predation_population_balance
              (predator_and_prey (chemosynth_a 100 (PInt 0))
                                 (chemosynth_a 200 (PInt 0)))
              0%nat 1%nat h') as (Hprey & Hpair & _).
  - by vm_compute.
  - exact Hrun.
  - destruct (Hpair ltac:(discriminate)) as [_ Hsum].
    split; [exact Hprey | exact Hsum].
Defined.

End Errors_and_balances.

(* ===================================================================== *)
(** * Totals over the predation loop and the replenishment *)
(* ===================================================================== *)

Section Loop_totals.

Implicit Types (h : heap) (self prey r : ref) (species_list : list ref).

Lemma total_population_unchanged species_list h h' :
  (∀ r, r ∈ species_list → h' !!! r = h !!! r) →
  total_population species_list h' = total_population species_list h.
Proof.
  unfold total_population. intros H. f_equal.
  apply list_fmap_ext. intros i r Hr. rewrite H; [done|].
  by eapply list_elem_of_lookup_2.
Qed.

Lemma predation_rates h self prey h' :
  predation self prey h = Ok h' →
  ∀ r, predation_rate (h' !!! r) = predation_rate (h !!! r).
Proof.
  unfold predation.
  destruct (0 <? population (h !!! prey)); [|by intros [= <-]].
  intros (product & Hmul & H)%bind_Ok.
  apply bind_Ok in H as (prey_loss & Hint & [= <-]). intros r.
  destruct (decide (prey = r)) as [-> | Hne1].
  - rewrite lookup_total_insert_eq. cbn [predation_rate set_population].
    destruct (decide (self = r)) as [-> | Hne2].
    + by rewrite lookup_total_insert_eq.
    + by rewrite lookup_total_insert_ne.
  - rewrite lookup_total_insert_ne by done.
    destruct (decide (self = r)) as [-> | Hne2].
    + by rewrite lookup_total_insert_eq.
    + by rewrite lookup_total_insert_ne.
Qed.

(** X6. The predation loop (lines 100-104), over pairwise distinct
    species whose predation rates are not negative, never raises the
    total population of the listed species, and changes no object
    outside the list. *)
Theorem predation_pass_total species_list h h' :
  NoDup species_list →
  (∀ r, r ∈ species_list → float_ge_int (predation_rate (h !!! r)) 0 = true) →
  predation_pass species_list h = Ok h' →
  total_population species_list h' ≤ total_population species_list h
  ∧ (∀ r, r ∉ species_list → h' !!! r = h !!! r).
Proof.
  revert h. induction species_list as [ | a [ | b l] IH]; intros h Hnd Hrates.
  - by intros [= <-].
  - by intros [= <-].
  - cbn [predation_pass]. intros (h1 & H1 & H2)%bind_Ok.
    apply NoDup_cons in Hnd as [Ha Hnd].
    pose proof Hnd as Hnd'. apply NoDup_cons in Hnd' as [Hb Hl].
    assert (Hab : a ≠ b) by (intros ->; apply Ha; left).
    destruct (predation_population_step h a b h1) as (_ & Hpair & Hothers);
      [apply Hrates; left | done | ].
    destruct (Hpair Hab) as [_ Hsum].
    destruct (IH h1 Hnd) as [Htot Hout]; [ | done | ].
    { intros r Hr. rewrite (predation_rates _ _ _ _ H1). apply Hrates. by right. }
    split.
    + unfold total_population in *. cbn [fmap list_fmap sum_list foldr] in *.
      rewrite (Hout a Ha).
      assert (Hrest : total_population l h1 = total_population l h).
      { apply total_population_unchanged. intros r Hr. apply Hothers.
        - intros ->. apply Ha. by right.
        - by intros ->. }
      unfold total_population, sum_list in Hrest. lia.
    + intros r Hr. apply not_elem_of_cons in Hr as [Hra Hr].
      rewrite (Hout r Hr). apply Hothers; [done|].
      intros ->. apply Hr. left.
Qed.


(** X6 on the three species of the script, with populations 100, 120
    and 80. *)
Lemma predation_pass_total_witness :
  ∃ h', predation_pass example_list (example_species (100, 120, 80)) = Ok h'
        ∧ total_population example_list h' ≤ 300.
Proof.
  assert (Hok : succeeds (predation_pass example_list
                            (example_species (100, 120, 80))) = true)
    by (by vm_compute).
  destruct (predation_pass example_list (example_species (100, 120, 80)))
    as [h' | e] eqn:Hrun; [|discriminate Hok].
  exists h'. split; [reflexivity|].
  destruct (predation_pass_total example_list (example_species (100, 120, 80)) h')
    as [Htot _].
  - apply (bool_decide_unpack _). by vm_compute.
  - intros r Hin. unfold example_list in Hin.
    apply elem_of_cons in Hin as [-> | Hin]; [by vm_compute|].
    apply elem_of_cons in Hin as [-> | Hin]; [by vm_compute|].
    apply elem_of_cons in Hin as [-> | Hin]; [by vm_compute|].
    apply elem_of_nil in Hin. destruct Hin.
  - exact Hrun.
  - exact Htot.
Defined.

Lemma replenish_chemicals_generator (chemicals : dict Z) (g : rng) :
  cursor (replenish_chemicals chemicals g).2 = (cursor g + length chemicals)%nat
  ∧ tape (replenish_chemicals chemicals g).2 = tape g.
Proof.
  revert g. induction chemicals as [ | [k q] rest IH]; intros g.
  - cbn. split; [lia | done].
  - cbn [replenish_chemicals]. unfold randint, draw.
    specialize (IH (mkRng (tape g) (S (cursor g)))).
    destruct (replenish_chemicals rest _) as [rest' g2].
    cbn [snd cursor tape length] in *. destruct IH as [-> ->]. split; [lia | done].
Qed.

Lemma replenish_chemicals_sum (chemicals : dict Z) (g : rng) :
  10 * Z.of_nat (length chemicals)
  ≤ sum_list (dict_values (replenish_chemicals chemicals g).1)
    - sum_list (dict_values chemicals)
  ≤ 50 * Z.of_nat (length chemicals).
Proof.
  pose proof (replenish_chemicals_pointwise chemicals g) as Hall.
  revert Hall. generalize (replenish_chemicals chemicals g).1.
  unfold dict_values, sum_list.
  induction chemicals as [ | [k q] rest IH]; intros after Hall.
  - apply Forall2_nil_inv_l in Hall as ->. cbn. lia.
  - apply Forall2_cons_inv_l in Hall as ([k' q'] & rest' & [_ Hq] & Hall & ->).
    specialize (IH rest' Hall). cbn [fmap list_fmap foldr snd length] in *.
    rewrite Nat2Z.inj_succ. lia.
Qed.

(** X7. Whatever the random draws, [replenish_chemicals] raises the
    total of the chemical quantities by at least [10] and at most [50]
    per chemical kind, and takes exactly one draw per kind from the
    generator. *)
Theorem replenish_chemicals_total (chemicals : dict Z) (g : rng) :
  let n := Z.of_nat (length chemicals) in
  let after := replenish_chemicals chemicals g in
  10 * n ≤ sum_list (dict_values after.1) - sum_list (dict_values chemicals) ≤ 50 * n
  ∧ cursor after.2 = (cursor g + length chemicals)%nat
  ∧ tape after.2 = tape g.
Proof.
  intros n after. split; [apply replenish_chemicals_sum | apply replenish_chemicals_generator].
Qed.


End Loop_totals.

(* ===================================================================== *)
(** * Rounding to nearest, from below *)
(* ===================================================================== *)

Section Rounding_below.

Local Abbreviation fexp := (SpecFloat.fexp prec emax).
Local Abbreviation digits p := (Zpos (digits2_pos p)).

(** Dropping the bits of a magnitude below the exponent of the format
    does not take it under a binary64 number that it was not under. *)
Lemma floor_to_format_lower (p : positive) (ex : Z) (my : positive) (ey K : Z) :
  bounded prec emax my ey = true →
  K ≤ ex → K ≤ ey →
  Zpos my * 2 ^ (ey - K) ≤ Zpos p * 2 ^ (ex - K) →
  Zpos my * 2 ^ (ey - K)
  ≤ Zpos p `div` 2 ^ Z.max (fexp (digits p + ex) - ex) 0
    * 2 ^ (ex + Z.max (fexp (digits p + ex) - ex) 0 - K).
Proof.
  intros Hbnd HKx HKy Hle.
  destruct (bounded_spec _ _ Hbnd) as [Hcan Hmax].
  set (n := Z.max (fexp (digits p + ex) - ex) 0).
  assert (Hn0 : 0 ≤ n) by lia.
  assert (H2n : 0 < 2 ^ n) by (apply Z.pow_pos_nonneg; lia).
  assert (H2K : 0 < 2 ^ (ex - K)) by (apply Z.pow_pos_nonneg; lia).
  destruct (decide (n = 0)) as [E0 | Hnz].
  { rewrite E0, Z.pow_0_r, Z.div_1_r, Z.add_0_r. done. }
  assert (Hn : n = fexp (digits p + ex) - ex) by lia.
  set (e1 := ex + n).
  destruct (Z.le_gt_cases e1 ey) as [Hge | Hlt].
  - (* the bound is a multiple of the new unit *)
    set (Ym := Zpos my * 2 ^ (ey - e1)).
    assert (HY : Zpos my * 2 ^ (ey - K) = Ym * 2 ^ (e1 - K)).
    { unfold Ym. rewrite <- Z.mul_assoc, <- Z.pow_add_r by lia.
      f_equal. f_equal; lia. }
    rewrite HY in *.
    apply Z.mul_le_mono_nonneg_r; [apply Z.pow_nonneg; lia|].
    apply Z.div_le_lower_bound; [done|].
    replace (e1 - K) with (n + (ex - K)) in Hle by lia.
    rewrite Z.pow_add_r, Z.mul_assoc in Hle by lia.
    apply Z.mul_le_mono_pos_r in Hle; [lia | done].
  - (* the bound lies in a lower binade *)
    assert (Hdig : digits my + ey < digits p + ex).
    { destruct (Z.lt_ge_cases (digits my + ey) (digits p + ex)) as [? | Hc]; [done|].
      pose proof (fexp_mono _ _ Hc). lia. }
    pose proof (fexp_ge_emin (digits my + ey)) as Hemin.
    assert (He1 : e1 = digits p + ex - prec).
    { unfold e1. rewrite Hn. unfold SpecFloat.fexp in *. lia. }
    assert (Hnp : n = digits p - prec) by lia.
    pose proof (digits2_pos_bounds p) as [Hplo _].
    pose proof (digits2_pos_bounds my) as [_ Hyhi].
    assert (Hq : 2 ^ (prec - 1) ≤ Zpos p `div` 2 ^ n).
    { apply Z.div_le_lower_bound; [done|].
      rewrite <- Z.pow_add_r by (unfold prec; lia).
      replace (n + (prec - 1)) with (digits p - 1) by lia. done. }
    assert (H1 : Zpos my * 2 ^ (ey - K) < 2 ^ (digits my + (ey - K))).
    { rewrite Z.pow_add_r by lia. apply Z.mul_lt_mono_pos_r; [|done].
      apply Z.pow_pos_nonneg; lia. }
    assert (H2 : 2 ^ (digits my + (ey - K)) ≤ 2 ^ (prec - 1 + (e1 - K))).
    { apply Z.pow_le_mono_r; lia. }
    assert (H3 : 2 ^ (prec - 1 + (e1 - K))
                 ≤ Zpos p `div` 2 ^ n * 2 ^ (e1 - K)).
    { rewrite Z.pow_add_r by (unfold prec; lia).
      apply Z.mul_le_mono_nonneg_r; [apply Z.pow_nonneg; lia | done]. }
    fold e1. lia.
Qed.

(** Rounding to nearest never crosses a representable number from
    above either: when the binary64 magnitude [my * 2^ey] is at most the
    exact magnitude [p * 2^ex], it is at most its rounded value (which
    may be an infinity). *)
Lemma binary_round_aux_lower (s : bool) (p : positive) (ex : Z)
    (my : positive) (ey K : Z) :
  bounded prec emax my ey = true →
  K ≤ ex → K ≤ ey →
  Zpos my * 2 ^ (ey - K) ≤ Zpos p * 2 ^ (ex - K) →
  binary_round_aux prec emax s (Zpos p) ex loc_Exact = S754_infinity s
  ∨ ∃ m e,
      binary_round_aux prec emax s (Zpos p) ex loc_Exact = S754_finite s m e
      ∧ ex ≤ e
      ∧ Zpos my * 2 ^ (ey - K) ≤ Zpos m * 2 ^ (e - K).
Proof.
  intros Hbnd HKx HKy Hle.
  assert (HYpos : 0 < Zpos my * 2 ^ (ey - K)).
  { apply Z.mul_pos_pos; [lia|]. apply Z.pow_pos_nonneg; lia. }
  pose proof (floor_to_format_lower p ex my ey K Hbnd HKx HKy Hle) as Hfl.
  unfold binary_round_aux.
  pose proof (shr_fexp_exact_spec (Zpos p) ex ltac:(lia)) as H1.
  cbn [Zdigits2] in H1.
  destruct (shr_fexp prec emax (Zpos p) ex loc_Exact) as [mrs1 e1].
  set (n := Z.max (fexp (digits p + ex) - ex) 0) in *.
  destruct H1 as (He1 & Hm1 & _).
  pose proof (round_nearest_even_bounds mrs1) as [Hb _].
  set (m1 := round_nearest_even (shr_m mrs1) (loc_of_shr_record mrs1)) in *.
  rewrite <- Hm1, <- He1 in Hfl.
  assert (H2e : 0 < 2 ^ (e1 - K)) by (apply Z.pow_pos_nonneg; lia).
  assert (Hm1K : Zpos my * 2 ^ (ey - K) ≤ m1 * 2 ^ (e1 - K)) by nia.
  destruct m1 as [ | p1 | p1] eqn:Em1; [lia | | lia].
  pose proof (floor_to_format_lower p1 e1 my ey K Hbnd ltac:(lia) HKy Hm1K) as Hfl2.
  pose proof (shr_fexp_exact_spec (Zpos p1) e1 ltac:(lia)) as H2.
  cbn [Zdigits2] in H2.
  destruct (shr_fexp prec emax (Zpos p1) e1 loc_Exact) as [mrs2 e2].
  set (j := Z.max (fexp (digits p1 + e1) - e1) 0) in *.
  destruct H2 as (He2 & Hm2 & _).
  rewrite <- Hm2, <- He2 in Hfl2.
  destruct (shr_m mrs2) as [ | p2 | p2]; [lia | | ].
  - destruct (e2 <=? emax - prec); [|by left].
    right. exists p2, e2. split; [done|]. split; [lia | done].
  - assert (0 < 2 ^ (e2 - K)) by (apply Z.pow_pos_nonneg; lia). nia.
Qed.

Lemma binary_round_aux_ge (s : bool) (p : positive) (ex : Z)
    (my : positive) (ey : Z) :
  bounded prec emax my ey = true →
  mag_le (Zpos my) ey (Zpos p) ex →
  binary_round_aux prec emax s (Zpos p) ex loc_Exact = S754_infinity s
  ∨ ∃ m e,
      binary_round_aux prec emax s (Zpos p) ex loc_Exact = S754_finite s m e
      ∧ mag_le (Zpos my) ey (Zpos m) e.
Proof.
  intros Hbnd Hle.
  destruct (binary_round_aux_lower s p ex my ey (Z.min ey ex) Hbnd)
    as [Hz | (m & e & Hf & Hex & Hme)]; [lia | lia | exact Hle | by left | ].
  right. exists m, e. split; [done|].
  apply (mag_le_scale _ _ _ _ (Z.min ey ex)); [lia | lia | done].
Qed.

Lemma binary_round_ge (s : bool) (p : positive) (e : Z)
    (my : positive) (ey : Z) :
  bounded prec emax my ey = true →
  mag_le (Zpos my) ey (Zpos p) e →
  binary_round prec emax s p e = S754_infinity s
  ∨ ∃ m e',
      binary_round prec emax s p e = S754_finite s m e'
      ∧ mag_le (Zpos my) ey (Zpos m) e'.
Proof.
  intros Hbnd Hle.
  destruct (binary_round_unfold s p e) as (m1 & e1 & -> & He1 & Hm1 & Hd1).
  apply binary_round_aux_ge; [done|].
  apply (mag_le_scale _ _ _ _ (Z.min e1 ey)); [lia | lia | ].
  apply (mag_le_scale _ _ _ _ (Z.min e1 ey)) in Hle; [ | lia | lia].
  rewrite Hm1, <- Z.mul_assoc, <- Z.pow_add_r by lia.
  replace (e - e1 + (e1 - Z.min e1 ey)) with (e - Z.min e1 ey) by lia. done.
Qed.

(** A magnitude [z * 2^c] of at most 53 bits, within the range of
    normal numbers, is a binary64 number: [float_round] returns it,
    normalised to a 53-bit mantissa. *)
Lemma float_round_exact (z : positive) (c : Z) :
  digits z ≤ prec → -1021 ≤ c ≤ 971 →
  ∃ m e, float_round (Zpos z) c = S754_finite false m e
         ∧ bounded prec emax m e = true
         ∧ e = digits z + c - prec
         ∧ digits m = prec
         ∧ Zpos m = Zpos z * 2 ^ (c - e).
Proof.
  intros Hd Hc.
  pose proof (Pos2Z.is_pos (digits2_pos z)) as Hdpos.
  destruct (binary_round_unfold false z c) as (m1 & e1 & Hr & He1 & Hm1 & Hdig).
  assert (He1' : e1 = digits z + c - prec).
  { rewrite He1. unfold SpecFloat.fexp, SpecFloat.emin, prec, emax in *. lia. }
  assert (Hb : bounded prec emax m1 e1 = true).
  { apply bounded_intro.
    - rewrite Hdig, He1'. unfold SpecFloat.fexp, SpecFloat.emin, prec, emax in *. lia.
    - unfold prec, emax in *. lia. }
  exists m1, e1. split; [|repeat split; [done | done | lia | done]].
  unfold float_round, binary_normalize.
  by rewrite Hr, (binary_round_aux_canonical false m1 e1 Hb).
Qed.

Lemma digits_le_of_lt (z : positive) (b : Z) :
  0 ≤ b → Zpos z < 2 ^ b → digits z ≤ b.
Proof.
  intros Hb Hz. pose proof (digits2_pos_bounds z) as [Hlo _].
  assert (H : 2 ^ (digits z - 1) < 2 ^ b) by lia.
  apply Z.pow_lt_mono_r_iff in H; lia.
Qed.

End Rounding_below.

(* ===================================================================== *)
(** * The symbiosis gain *)
(* ===================================================================== *)

Section Symbiosis_gain.

Implicit Types (h : heap) (self partner r : ref).

(** A float between [k] and [k + 15/16] truncates to [k]. *)
Lemma trunc_scaled_between (m : positive) (e k K : Z) :
  0 ≤ k → K ≤ e → K ≤ -4 →
  k * 2 ^ (0 - K) ≤ Zpos m * 2 ^ (e - K) →
  Zpos m * 2 ^ (e - K) ≤ (16 * k + 15) * 2 ^ (-4 - K) →
  trunc_scaled (Zpos m) e = k.
Proof.
  intros Hk HKe HK Hlo Hhi.
  set (U := 2 ^ (-4 - K)) in *.
  assert (HU : 0 < U) by (apply Z.pow_pos_nonneg; lia).
  assert (E16 : 2 ^ (0 - K) = 16 * U).
  { unfold U. replace (0 - K) with (4 + (-4 - K)) by lia.
    by rewrite Z.pow_add_r by lia. }
  rewrite E16 in Hlo.
  unfold trunc_scaled. destruct e as [ | e | e].
  - rewrite Z.pow_0_r, Z.mul_1_r.
    replace (0 - K) with (0 - K) in * by lia. rewrite E16 in Hhi. nia.
  - assert (E : 2 ^ (Zpos e - K) = 2 ^ Zpos e * (16 * U)).
    { rewrite <- E16, <- Z.pow_add_r by lia. f_equal; lia. }
    rewrite E in *. pose proof (two_pow_pos (Zpos e) ltac:(lia)). nia.
  - set (W := 2 ^ Zpos e). set (B := 2 ^ (Zneg e - K)) in *.
    assert (HW : 0 < W) by (apply Z.pow_pos_nonneg; lia).
    assert (HB : 0 < B) by (apply Z.pow_pos_nonneg; lia).
    assert (E : 16 * U = B * W).
    { rewrite <- E16. unfold B, W. rewrite <- Z.pow_add_r by lia. f_equal; lia. }
    rewrite Z.quot_div_nonneg by lia.
    assert (H1 : k * W ≤ Zpos m) by nia.
    assert (H2 : Zpos m < (k + 1) * W) by nia.
    apply Z.le_antisymm.
    + assert (Zpos m `div` W < k + 1); [|lia].
      apply Z.div_lt_upper_bound; lia.
    + apply Z.div_le_lower_bound; lia.
Qed.

(** [int(p * 0.1)] is [p // 10] for every population up to [2^52]: the
    literal [0.1] is slightly above one tenth, and the rounded product
    stays between [p // 10] and [p // 10 + 15/16]. *)
Lemma int_of_tenth (p : Z) :
  0 ≤ p ≤ 2 ^ 52 →
  (product ← py_mul (PInt p) (PFloat (float_lit 1 10)); py_int product)
  = Ok (p `div` 10).
Proof.
  intros [Hp0 Hp].
  assert (E52 : 2 ^ 52 = 4503599627370496) by reflexivity.
  assert (E56 : 2 ^ 56 = 72057594037927936) by reflexivity.
  assert (E53 : 2 ^ 53 = 9007199254740992) by reflexivity.
  assert (Elit : float_lit 1 10 = S754_finite false 7205759403792794 (-56))
    by (by vm_compute).
  assert (Hblit : bounded prec emax 7205759403792794 (-56) = true)
    by (by vm_compute).
  assert (Hdlit : Zpos (digits2_pos 7205759403792794) = 53) by (by vm_compute).
  destruct p as [ | z | z]; [by vm_compute | | lia].
  destruct (float_round_exact z 0) as (mp & ep & Hconv & Hbp & Hep & Hdp & Hmp).
  { apply digits_le_of_lt; [unfold prec; lia|]. unfold prec. lia. }
  { lia. }
  pose proof (Pos2Z.is_pos (digits2_pos z)) as Hdz.
  assert (Hdz53 : Zpos (digits2_pos z) ≤ 53).
  { apply digits_le_of_lt; lia. }
  unfold prec in Hep, Hdp.
  unfold py_mul, to_float, float_of_int. rewrite Hconv, Elit.
  cbn [mbind result_bind py_int].
  unfold float_mul, SFmul. cbn [xorb].
  change (Zpos mp * 7205759403792794) with (Zpos (mp * 7205759403792794)).
  set (k := Zpos z `div` 10).
  pose proof (Z.div_mod (Zpos z) 10 ltac:(lia)) as Hdm.
  pose proof (Z.mod_pos_bound (Zpos z) 10 ltac:(lia)) as Hmb.
  fold k in Hdm.
  assert (Hk0 : 0 ≤ k) by (apply Z.div_pos; lia).
  set (K := ep + -56).
  set (X := 2 ^ (0 - ep)) in *.
  assert (HX : 0 < X) by (apply Z.pow_pos_nonneg; lia).
  assert (EK : 2 ^ (0 - K) = 2 ^ 56 * X).
  { unfold K, X. rewrite <- Z.pow_add_r by lia. f_equal; lia. }
  assert (EK4 : 2 ^ (-4 - K) = 2 ^ 52 * X).
  { unfold K, X. rewrite <- Z.pow_add_r by lia. f_equal; lia. }
  (* the bound from above: p // 10 + 15/16 *)
  destruct (float_round_exact (Z.to_pos (16 * k + 15)) (-4))
    as (mu & eu & _ & Hbu & Heu & _ & Hmu).
  { apply digits_le_of_lt; [unfold prec; lia|]. unfold prec.
    rewrite Z2Pos.id by lia. lia. }
  { lia. }
  rewrite Z2Pos.id in Hmu by lia.
  pose proof (Pos2Z.is_pos (digits2_pos (Z.to_pos (16 * k + 15)))) as Hdu.
  assert (Hdu53 : Zpos (digits2_pos (Z.to_pos (16 * k + 15))) ≤ 53).
  { apply digits_le_of_lt; [lia|]. rewrite Z2Pos.id by lia. lia. }
  unfold prec in Heu.
  destruct (binary_round_aux_upper false (mp * 7205759403792794) K
              mu eu K) as [Hz | (m & e & Hf & Hex & Hhi)].
  { pose proof (digits_mul_lower mp 7205759403792794).
    unfold SpecFloat.fexp, SpecFloat.emin, prec, emax in *. unfold K. lia. }
  { done. }
  { lia. }
  { unfold K. lia. }
  { rewrite Z.sub_diag, Z.pow_0_r, Z.mul_1_r, Pos2Z.inj_mul, Hmp, Hmu.
    rewrite <- (Z.mul_assoc (16 * k + 15)), <- Z.pow_add_r by lia.
    replace (-4 - eu + (eu - K)) with (-4 - K) by lia.
    rewrite EK4, E52. fold X. nia. }
  - (* rounded to zero: only when p // 10 = 0 *)
    rewrite Hz. f_equal.
    destruct (decide (k = 0)) as [-> | Hk]; [done|]. exfalso.
    destruct (float_round_exact (Z.to_pos k) 0)
      as (mk & ek & _ & Hbk & Hek & _ & Hmk).
    { apply digits_le_of_lt; [unfold prec; lia|]. unfold prec.
      rewrite Z2Pos.id by lia. lia. }
    { lia. }
    rewrite Z2Pos.id in Hmk by lia.
    pose proof (Pos2Z.is_pos (digits2_pos (Z.to_pos k))) as Hdk.
    assert (Hdk53 : Zpos (digits2_pos (Z.to_pos k)) ≤ 53).
    { apply digits_le_of_lt; [lia|]. rewrite Z2Pos.id by lia. lia. }
    unfold prec in Hek.
    destruct (binary_round_aux_lower false (mp * 7205759403792794) K
                mk ek K) as [Hi | (m & e & Hf & _)].
    { done. }
    { lia. }
    { unfold K. lia. }
    { rewrite Z.sub_diag, Z.pow_0_r, Z.mul_1_r, Pos2Z.inj_mul, Hmp, Hmk.
      rewrite <- (Z.mul_assoc k), <- Z.pow_add_r by lia.
      replace (0 - ek + (ek - K)) with (0 - K) by lia.
      rewrite EK, E56. fold X. nia. }
    + congruence.
    + congruence.
  - rewrite Hf. cbn [int_of_float cond_Zopp]. f_equal.
    rewrite Hmu, <- (Z.mul_assoc (16 * k + 15)), <- Z.pow_add_r in Hhi by lia.
    replace (-4 - eu + (eu - K)) with (-4 - K) in Hhi by lia.
    apply (trunc_scaled_between m e k K); [done | lia | unfold K; lia | | done].
    destruct (decide (k = 0)) as [-> | Hk].
    { rewrite Z.mul_0_l. apply Z.mul_nonneg_nonneg; [lia|].
      apply Z.pow_nonneg. lia. }
    destruct (float_round_exact (Z.to_pos k) 0)
      as (mk & ek & _ & Hbk & Hek & _ & Hmk).
    { apply digits_le_of_lt; [unfold prec; lia|]. unfold prec.
      rewrite Z2Pos.id by lia. lia. }
    { lia. }
    rewrite Z2Pos.id in Hmk by lia.
    pose proof (Pos2Z.is_pos (digits2_pos (Z.to_pos k))) as Hdk.
    assert (Hdk53 : Zpos (digits2_pos (Z.to_pos k)) ≤ 53).
    { apply digits_le_of_lt; [lia|]. rewrite Z2Pos.id by lia. lia. }
    unfold prec in Hek.
    destruct (binary_round_aux_lower false (mp * 7205759403792794) K
                mk ek K) as [Hi | (m' & e' & Hf' & _ & Hlo)].
    { done. }
    { lia. }
    { unfold K. lia. }
    { rewrite Z.sub_diag, Z.pow_0_r, Z.mul_1_r, Pos2Z.inj_mul, Hmp, Hmk.
      rewrite <- (Z.mul_assoc k), <- Z.pow_add_r by lia.
      replace (0 - ek + (ek - K)) with (0 - K) by lia.
      rewrite EK, E56. fold X. nia. }
    + congruence.
    + rewrite Hf in Hf'. injection Hf' as <- <-.
      rewrite Hmk, <- (Z.mul_assoc k), <- Z.pow_add_r in Hlo by lia.
      by replace (0 - ek + (ek - K)) with (0 - K) in Hlo by lia.
Qed.

End Symbiosis_gain.

(* ===================================================================== *)
(** * Mutations *)
(* ===================================================================== *)

Section Mutation.

Implicit Types (h : heap) (self r : ref).

(** X8. With a partner whose population lies between [0] and [2^52],
    [symbiotic_interaction] adds exactly a tenth of the partner's
    population, rounded down, to the energy of [self], and writes
    nothing else: the float product under [int(...)] never reaches the
    next integer in that range. *)
Theorem symbiotic_interaction_gain h self partner :
  symbiosis (h !!! self) = Some partner →
  0 ≤ population (h !!! partner) ≤ 2 ^ 52 →
  symbiotic_interaction self h
  = (e' ← py_add (energy (h !!! self))
               (PInt (population (h !!! partner) `div` 10));
     Ok (<[self := set_energy e' (h !!! self)]> h)).
Proof.
  intros Hsym Hpop. unfold symbiotic_interaction. rewrite Hsym.
  pose proof (int_of_tenth _ Hpop) as Hgain.
  destruct (py_mul _ _) as [product | e]; [|done].
  cbn [mbind result_bind] in *. by rewrite Hgain.
Qed.

(** X8 on the script's "Chemosynth B", whose partner has a population
    of 100: its energy rises from 0 to 10. *)
Lemma symbiotic_interaction_gain_witness :
  symbiotic_interaction 1%nat (example_species (100, 120, 80))
  = Ok (<[1%nat := set_energy (PInt 10) (example_species (100, 120, 80) !!! 1%nat)]>
          (example_species (100, 120, 80))).
Proof.
  rewrite (symbiotic_interaction_gain (example_species (100, 120, 80)) 1%nat 0%nat).
  - reflexivity.
  - by vm_compute.
  - by vm_compute.
Defined.

(** Beyond [2^52] the product can round up to the next integer:
    [int(6814531693087679 * 0.1)] is [681453169308768], one more than
    [6814531693087679 // 10]. *)
Example int_of_tenth_rounds_up :
  (product ← py_mul (PInt 6814531693087679) (PFloat (float_lit 1 10));
   py_int product)
  = Ok (6814531693087679 `div` 10 + 1).
Proof. by vm_compute. Qed.

(** [random.random()] returns zero or a binary64 number below one. *)
Lemma random_cases (g : rng) :
  let k := tape g (cursor g) `mod` 2 ^ 53 in
  0 ≤ k < 2 ^ 53
  ∧ ((k = 0 ∧ (random g).1 = S754_zero false)
     ∨ ∃ (z m : positive) (e : Z),
         k = Zpos z
         ∧ (random g).1 = S754_finite false m e
         ∧ bounded prec emax m e = true
         ∧ e = Zpos (digits2_pos z) - 106
         ∧ Zpos (digits2_pos z) ≤ 53
         ∧ Zpos m = Zpos z * 2 ^ (53 - Zpos (digits2_pos z))).
Proof.
  intros k.
  assert (Hk : 0 ≤ k < 2 ^ 53) by (apply Z.mod_pos_bound; lia).
  split; [done|].
  unfold random, draw. cbn [fst]. fold k.
  destruct k as [ | z | z] eqn:Ek; [by left | | lia].
  right.
  assert (Hd : Zpos (digits2_pos z) ≤ 53) by (apply digits_le_of_lt; lia).
  destruct (float_round_exact z (-53)) as (m & e & Hr & Hb & He & _ & Hm);
    [done | lia | ].
  unfold prec in He.
  exists z, m, e. repeat split; [done | done | lia | done | ].
  rewrite Hm. f_equal; f_equal; lia.
Qed.

Lemma random_le_1 (z m : positive) (e : Z) :
  e = Zpos (digits2_pos z) - 106 →
  Zpos (digits2_pos z) ≤ 53 →
  Zpos m = Zpos z * 2 ^ (53 - Zpos (digits2_pos z)) →
  float_le_int (S754_finite false m e) 1 = true.
Proof.
  intros He Hd Hm.
  pose proof (Pos2Z.is_pos (digits2_pos z)) as Hdpos.
  pose proof (digits2_pos_bounds z) as [_ Hhi].
  unfold float_le_int, float_compare_int. cbn [cond_Zopp].
  destruct e as [ | e | e]; [lia | lia | ].
  assert (Hlt : Zpos m < 1 * 2 ^ Zpos e).
  { assert (H53 : Zpos m < 2 ^ 53).
    { rewrite Hm.
      replace 53 with (Zpos (digits2_pos z) + (53 - Zpos (digits2_pos z))) at 2 by lia.
      rewrite Z.pow_add_r by lia.
      apply Z.mul_lt_mono_pos_r; [apply Z.pow_pos_nonneg; lia | done]. }
    assert (2 ^ 53 ≤ 2 ^ Zpos e) by (apply Z.pow_le_mono_r; lia).
    lia. }
  apply Z.compare_lt_iff in Hlt. by rewrite Hlt.
Qed.

(** The mutation factor [random.uniform(0.9, 1.1)] is a binary64 number
    between the floats [0.9] and [1.1], both included. *)
Lemma uniform_mutation_factor (g : rng) :
  float_between (float_lit 9 10) (float_lit 11 10)
                (uniform (float_lit 9 10) (float_lit 11 10) g).1.
Proof.
  assert (E9 : float_lit 9 10 = S754_finite false 8106479329266893 (-53))
    by (by vm_compute).
  assert (E11 : float_lit 11 10 = S754_finite false 4953959590107546 (-52))
    by (by vm_compute).
  assert (Ed : float_sub (S754_finite false 4953959590107546 (-52))
                         (S754_finite false 8106479329266893 (-53))
               = S754_finite false 7205759403792796 (-55)) by (by vm_compute).
  assert (Hb9 : bounded prec emax 8106479329266893 (-53) = true) by (by vm_compute).
  assert (Hb11 : bounded prec emax 4953959590107546 (-52) = true) by (by vm_compute).
  assert (Hbd : bounded prec emax 7205759403792796 (-55) = true) by (by vm_compute).
  rewrite E9, E11. unfold uniform.
  destruct (random_cases g) as [_ Hu].
  destruct (random g) as [u g1]. cbn [fst] in *. rewrite Ed.
  destruct Hu as [[_ ->] | (z & mu & eu & _ & -> & Hbu & Heu & Hdu & Hmu)].
  { (* random() = 0.0: the factor is 0.9 itself *)
    cbn. unfold mag_le. split; [lia|].
    replace (Z.min (-53) (-52)) with (-53) by lia. cbn. lia. }
  destruct (float_mul_rate_le 7205759403792796 (-55) mu eu Hbd Hbu
              (random_le_1 z mu eu Heu Hdu Hmu))
    as [-> | (mw & ew & -> & Hw)].
  { cbn. unfold mag_le. split; [lia|].
    replace (Z.min (-53) (-52)) with (-53) by lia. cbn. lia. }
  unfold float_add, SFadd. cbn [cond_Zopp].
  pose proof (shl_align_spec 8106479329266893 (-53) (Z.min (-53) ew)) as Ha.
  pose proof (shl_align_spec mw ew (Z.min (-53) ew)) as Hb.
  destruct (shl_align 8106479329266893 (-53) (Z.min (-53) ew)) as [a ea].
  destruct (shl_align mw ew (Z.min (-53) ew)) as [b eb].
  destruct Ha as (Hea & Hma & _), Hb as (Heb & Hmb & _). cbn [fst].
  set (ez := Z.min (-53) ew) in *.
  assert (Hea' : ea = ez) by lia. assert (Heb' : eb = ez) by lia.
  rewrite Hea' in Hma. rewrite Heb' in Hmb.
  change (Zpos a + Zpos b) with (Zpos (a + b)).
  unfold binary_normalize.
  set (K := Z.min ez (-55)).
  set (V := 2 ^ (-55 - K)).
  assert (HV : 0 < V) by (apply Z.pow_pos_nonneg; lia).
  assert (E53 : 2 ^ (-53 - K) = 4 * V).
  { unfold V. replace (-53 - K) with (2 + (-55 - K)) by lia.
    by rewrite Z.pow_add_r by lia. }
  assert (E52 : 2 ^ (-52 - K) = 8 * V).
  { unfold V. replace (-52 - K) with (3 + (-55 - K)) by lia.
    by rewrite Z.pow_add_r by lia. }
  assert (HA : Zpos a * 2 ^ (ez - K) = 8106479329266893 * (4 * V)).
  { rewrite Hma, <- E53, <- Z.mul_assoc, <- Z.pow_add_r by lia.
    f_equal; f_equal; lia. }
  assert (HB : Zpos b * 2 ^ (ez - K) ≤ 7205759403792796 * V).
  { apply (mag_le_scale _ _ _ _ K) in Hw; [ | lia | lia]. fold V in Hw.
    rewrite Hmb, <- Z.mul_assoc, <- Z.pow_add_r by lia.
    replace (ew - ez + (ez - K)) with (ew - K) by lia. done. }
  destruct (binary_round_le false (a + b) ez 4953959590107546 (-52) Hb11)
    as [Hz | (m & e & Hf & Hhi)].
  { apply (mag_le_scale _ _ _ _ K); [lia | lia | ].
    rewrite E52, Pos2Z.inj_add, Z.mul_add_distr_r. lia. }
  - (* not zero: the sum is at least 0.9 *)
    destruct (binary_round_ge false (a + b) ez 8106479329266893 (-53) Hb9)
      as [Hi | (m & e & Hf & _)]; [ | congruence | congruence].
    apply (mag_le_scale _ _ _ _ ez); [lia | lia | ].
    rewrite Z.sub_diag, Z.pow_0_r, Z.mul_1_r, Pos2Z.inj_add, <- Hma. lia.
  - destruct (binary_round_ge false (a + b) ez 8106479329266893 (-53) Hb9)
      as [Hi | (m' & e' & Hf' & Hlo)]; [ | congruence | ].
    { apply (mag_le_scale _ _ _ _ ez); [lia | lia | ].
      rewrite Z.sub_diag, Z.pow_0_r, Z.mul_1_r, Pos2Z.inj_add, <- Hma. lia. }
    rewrite Hf in Hf'. injection Hf' as <- <-.
    rewrite Hf. cbn. done.
Qed.

(** What [evolve] does: one draw and no change, or three draws and
    one rate multiplied by a factor between [0.9] and [1.1]. *)
Lemma evolve_cases self h (g : rng) h' (g' : rng) :
  evolve self (h, g) = (h', g') →
  tape g' = tape g
  ∧ ((h' = h ∧ cursor g' = S (cursor g))
     ∨ (cursor g' = S (S (S (cursor g)))
        ∧ ∃ tr mutation_factor,
            float_between (float_lit 9 10) (float_lit 11 10) mutation_factor
            ∧ h' = <[self := set_rate tr (float_mul (rate_of tr (h !!! self))
                                                    mutation_factor)
                                      (h !!! self)]> h)).
Proof.
  unfold evolve.
  assert (Hg1 : (random g).2 = mkRng (tape g) (S (cursor g))) by done.
  destruct (random g) as [chance g1]. cbn [snd] in Hg1. subst g1.
  destruct (float_ltb chance (float_lit 1 10));
    [|intros [= <- <-]; split; [done | by left]].
  set (g1 := mkRng (tape g) (S (cursor g))).
  assert (Hg2 : (choice_trait g1).2 = mkRng (tape g) (S (S (cursor g)))) by done.
  destruct (choice_trait g1) as [tr g2]. cbn [snd] in Hg2. subst g2.
  set (g2 := mkRng (tape g) (S (S (cursor g)))).
  pose proof (uniform_mutation_factor g2) as Hrange.
  assert (Hg3 : (uniform (float_lit 9 10) (float_lit 11 10) g2).2
                = mkRng (tape g) (S (S (S (cursor g))))) by done.
  destruct (uniform (float_lit 9 10) (float_lit 11 10) g2) as [factor g3].
  cbn [fst snd] in *. subst g3.
  intros [= <- <-]. split; [done|]. right. split; [done|].
  exists tr, factor. split; [exact Hrange|].
  destruct tr; reflexivity.
Qed.

(** X9. [evolve] takes one draw and changes nothing, or takes three
    draws and writes exactly one of the three rates of [self]; it never
    changes a population, an energy reserve, a name, a chemical
    affinity, a partner, or any other object, and it leaves the tape of
    the generator as it was. *)
Theorem evolve_changes_one_rate self h (g : rng) h' (g' : rng) :
  evolve self (h, g) = (h', g') →
  tape g' = tape g
  ∧ (cursor g' = S (cursor g) ∨ cursor g' = S (S (S (cursor g))))
  ∧ (cursor g' = S (cursor g) → h' = h)
  ∧ (∀ r, r ≠ self → h' !!! r = h !!! r)
  ∧ population (h' !!! self) = population (h !!! self)
  ∧ energy (h' !!! self) = energy (h !!! self)
  ∧ name (h' !!! self) = name (h !!! self)
  ∧ chemical_affinity (h' !!! self) = chemical_affinity (h !!! self)
  ∧ symbiosis (h' !!! self) = symbiosis (h !!! self)
  ∧ ((energy_efficiency (h' !!! self) = energy_efficiency (h !!! self)
      ∧ reproduction_rate (h' !!! self) = reproduction_rate (h !!! self))
     ∨ (energy_efficiency (h' !!! self) = energy_efficiency (h !!! self)
        ∧ predation_rate (h' !!! self) = predation_rate (h !!! self))
     ∨ (reproduction_rate (h' !!! self) = reproduction_rate (h !!! self)
        ∧ predation_rate (h' !!! self) = predation_rate (h !!! self))).
Proof.
  intros (Htape & [[-> Hc] | (Hc & tr & factor & _ & ->)])%evolve_cases.
  - split; [exact Htape|]. split; [by left|].
    split; [reflexivity|]. split; [reflexivity|].
    do 5 (split; [reflexivity|]). left. split; reflexivity.
  - split; [exact Htape|]. split; [by right|]. split; [lia|].
    split; [intros r Hr; by rewrite lookup_total_insert_ne|].
    rewrite lookup_total_insert_eq.
    destruct tr; cbn [set_rate];
      do 5 (split; [reflexivity|]).
    + right. right. split; reflexivity.
    + right. left. split; reflexivity.
    + left. split; reflexivity.
Qed.

(** X9 on "Chemosynth A" with every raw draw equal to 7. *)
Lemma evolve_changes_one_rate_witness :
  ∃ h' g',
    evolve 0%nat (single_species (chemosynth_a 100 (PInt 0)), constant_rng 7)
    = (h', g')
    ∧ population (h' !!! 0%nat) = 100.
Proof.
  destruct (evolve 0%nat (single_species (chemosynth_a 100 (PInt 0)), constant_rng 7))
    as [h' g'] eqn:Hev.
  exists h', g'. split; [reflexivity|].
  destruct (evolve_changes_one_rate _ _ _ _ _ Hev) as (_ & _ & _ & _ & Hp & _).
  rewrite Hp. reflexivity.
Defined.

Lemma rate_of_set_rate (tr tr' : trait) (v : float) (s : Species) :
  rate_of tr (set_rate tr' v s) = if decide (tr = tr') then v else rate_of tr s.
Proof. destruct tr, tr'; reflexivity. Qed.

(** X10. A call of [evolve] leaves each of the three rates as it was or
    multiplies it, in float arithmetic, by a mutation factor that lies
    between the floats [0.9] and [1.1] (both included); so a rate that
    is a non-negative real is still not negative after the call. *)
Theorem evolve_rate_change self h (g : rng) h' (g' : rng) (tr : trait) :
  evolve self (h, g) = (h', g') →
  (rate_of tr (h' !!! self) = rate_of tr (h !!! self)
   ∨ ∃ mutation_factor,
       float_between (float_lit 9 10) (float_lit 11 10) mutation_factor
       ∧ rate_of tr (h' !!! self)
         = float_mul (rate_of tr (h !!! self)) mutation_factor)
  ∧ (float_finite (rate_of tr (h !!! self)) = true →
     float_ge_int (rate_of tr (h !!! self)) 0 = true →
     float_ge_int (rate_of tr (h' !!! self)) 0 = true).
Proof.
  intros (_ & [[-> _] | (_ & tr' & factor & Hrange & ->)])%evolve_cases.
  { split; [left; reflexivity | intros _ Hge; exact Hge]. }
  rewrite lookup_total_insert_eq, rate_of_set_rate.
  destruct (decide (tr = tr')) as [<- | Hne];
    [|split; [left; reflexivity | intros _ Hge; exact Hge]].
  split; [right; exists factor; split; [exact Hrange | reflexivity]|].
  intros Hfin Hge.
  apply float_mul_ge_0; [exact Hfin | | exact Hge | ].
  - destruct factor as [ | | | [|] mf ef]; try reflexivity;
      exfalso; revert Hrange; unfold float_between;
      destruct (float_lit 9 10) as [ | | | [|] ? ?];
      destruct (float_lit 11 10) as [ | | | [|] ? ?]; intros Hrange; exact Hrange.
  - destruct factor as [ | | | [|] mf ef];
      try (unfold float_ge_int; rewrite float_compare_int_pos_0; reflexivity);
      exfalso; revert Hrange; unfold float_between;
      destruct (float_lit 9 10) as [ | | | [|] ? ?];
      destruct (float_lit 11 10) as [ | | | [|] ? ?]; intros Hrange; exact Hrange.
Qed.

(** X10 on "Chemosynth A" with every raw draw equal to 7: the
    reproduction rate [0.05] is still not negative. *)
Lemma evolve_rate_change_witness :
  ∃ h' g',
    evolve 0%nat (single_species (chemosynth_a 100 (PInt 0)), constant_rng 7)
    = (h', g')
    ∧ float_ge_int (reproduction_rate (h' !!! 0%nat)) 0 = true.
Proof.
  destruct (evolve 0%nat (single_species (chemosynth_a 100 (PInt 0)), constant_rng 7))
    as [h' g'] eqn:Hev.
  exists h', g'. split; [reflexivity|].
  destruct (evolve_rate_change _ _ _ _ _ Reproduction_rate Hev) as [_ H].
  apply H; by vm_compute.
Defined.

(** A rate can leave the unit interval: with a draw below [0.1], the
    choice of the predation rate and a factor near [1.1], a predation
    rate of [1.0] becomes [1.0999999999999999]. *)
Example evolve_raises_rate_above_one :
  let g := mkRng (λ n, match n with
                       | O => 0
                       | S O => 2
                       | _ => 2 ^ 53 - 1
                       end) 0 in
  float_gt_int (predation_rate ((evolve 0%nat (single_species (voracious 10), g)).1
                                !!! 0%nat)) 1 = true.
Proof. by vm_compute. Qed.

(** [<] on two positive binary64 numbers: by exponent, then by
    mantissa. *)
Lemma float_ltb_finite (m1 : positive) (e1 : Z) (m2 : positive) (e2 : Z) :
  float_ltb (S754_finite false m1 e1) (S754_finite false m2 e2)
  = match e1 ?= e2 with
    | Lt => true
    | Gt => false
    | Eq => (m1 <? m2)%positive
    end.
Proof.
  unfold float_ltb, SFltb, SFcompare, Pos.ltb, Pos.compare.
  by destruct (e1 ?= e2).
Qed.

(** [random.random() < 0.1] in terms of the raw draw: the float [0.1]
    is [7205759403792794 / 2^56], just above [900719925474099 / 2^53]. *)
Lemma random_lt_tenth (g : rng) :
  float_ltb (random g).1 (float_lit 1 10)
  = (tape g (cursor g) `mod` 2 ^ 53 <? 900719925474100).
Proof.
  assert (Elit : float_lit 1 10 = S754_finite false 7205759403792794 (-56))
    by (by vm_compute).
  rewrite Elit. clear Elit.
  pose proof (random_cases g) as [_ Hu].
  destruct Hu as [[Hk Hr] | (z & m & e & Hk & Hr & _ & He & Hd & Hm)];
    rewrite Hr, Hk; [reflexivity|].
  clear Hk Hr.
  remember 900719925474100 as T eqn:ET.
  remember 7205759403792794%positive as c eqn:Ec.
  pose proof (Pos2Z.is_pos (digits2_pos z)) as Hdpos.
  pose proof (digits2_pos_bounds z) as [Hlo Hhi].
  etrans; [apply float_ltb_finite|].
  destruct (Z.compare_spec e (-56)) as [Heq | Hlt | Hgt].
  - assert (Hm8 : Zpos m = Zpos z * 8).
    { rewrite Hm. f_equal. replace (Zpos (digits2_pos z)) with 50 by lia.
      reflexivity. }
    destruct (Pos.ltb_spec m c); symmetry;
      [apply Z.ltb_lt | apply Z.ltb_ge]; lia.
  - symmetry. apply Z.ltb_lt.
    assert (2 ^ Zpos (digits2_pos z) ≤ 2 ^ 49) by (apply Z.pow_le_mono_r; lia).
    assert (E49 : 2 ^ 49 = 562949953421312) by reflexivity.
    lia.
  - symmetry. apply Z.ltb_ge.
    assert (2 ^ 50 ≤ 2 ^ (Zpos (digits2_pos z) - 1)) by (apply Z.pow_le_mono_r; lia).
    assert (E50 : 2 ^ 50 = 1125899906842624) by reflexivity.
    lia.
Qed.

(** X11. [evolve] mutates exactly when the raw draw behind
    [random.random()] is one of the [900719925474100] smallest of its
    [2^53] values, that is when [random() < 0.1] for the float [0.1]:
    otherwise it takes one draw and changes nothing. *)
Theorem evolve_mutation_threshold self h (g : rng) :
  (900719925474100 ≤ tape g (cursor g) `mod` 2 ^ 53 →
   evolve self (h, g) = (h, mkRng (tape g) (S (cursor g))))
  ∧ (tape g (cursor g) `mod` 2 ^ 53 < 900719925474100 →
     cursor (evolve self (h, g)).2 = S (S (S (cursor g)))).
Proof.
  pose proof (random_lt_tenth g) as Hlt.
  unfold evolve.
  assert (Hg1 : (random g).2 = mkRng (tape g) (S (cursor g))) by done.
  destruct (random g) as [chance g1]. cbn [fst snd] in *. subst g1.
  rewrite Hlt. split.
  - intros Hk. by rewrite (proj2 (Z.ltb_ge _ _) Hk).
  - intros Hk. rewrite (proj2 (Z.ltb_lt _ _) Hk). reflexivity.
Qed.

(** X11 with every raw draw equal to 7: a mutation. *)
Lemma evolve_mutation_threshold_witness :
  cursor (evolve 0%nat (single_species (chemosynth_a 100 (PInt 0)),
                        constant_rng 7)).2 = 3%nat.
Proof.
  apply (evolve_mutation_threshold 0%nat
           (single_species (chemosynth_a 100 (PInt 0))) (constant_rng 7)).
  by vm_compute.
Defined.

End Mutation.

(* ===================================================================== *)
(** * What a run never changes *)
(* ===================================================================== *)

Section Run_invariants.

Implicit Types (h : heap) (self prey r : ref) (species_list : list ref)
               (w : world).

Lemma same_identity_refl h : same_identity h h.
Proof. done. Qed.

Lemma same_identity_trans h1 h2 h3 :
  same_identity h1 h2 → same_identity h2 h3 → same_identity h1 h3.
Proof.
  intros H12 H23 r. destruct (H12 r) as (? & ? & ?), (H23 r) as (? & ? & ?).
  repeat split; congruence.
Qed.

Lemma same_identity_insert h self (s : Species) :
  name s = name (h !!! self) →
  chemical_affinity s = chemical_affinity (h !!! self) →
  symbiosis s = symbiosis (h !!! self) →
  same_identity h (<[self := s]> h).
Proof.
  intros H1 H2 H3 r. destruct (decide (self = r)) as [-> | Hne].
  - by rewrite lookup_total_insert_eq.
  - by rewrite lookup_total_insert_ne.
Qed.

Lemma consume_chemicals_identity h self (environment : dict Z) h' environment' :
  consume_chemicals self environment h = Ok (h', environment') →
  same_identity h h' ∧ dict_keys environment' = dict_keys environment.
Proof.
  unfold consume_chemicals.
  intros (avail & Havail & H)%bind_Ok.
  destruct (0 <? avail); [|by injection H as <- <-].
  apply bind_Ok in H as (yield & Hyield & H).
  apply bind_Ok in H as (gained & Hgain & H).
  apply bind_Ok in H as (e' & Hadd & [= <- <-]).
  split; [by apply same_identity_insert | by eapply dict_keys_set_present].
Qed.

Lemma symbiotic_interaction_identity h self h' :
  symbiotic_interaction self h = Ok h' → same_identity h h'.
Proof.
  unfold symbiotic_interaction.
  destruct (symbiosis (h !!! self)) as [partner | ]; [|by intros [= <-]].
  intros (product & Hmul & H)%bind_Ok.
  apply bind_Ok in H as (gain & Hint & H).
  apply bind_Ok in H as (e' & Hadd & [= <-]).
  by apply same_identity_insert.
Qed.

Lemma reproduce_identity h self h' :
  reproduce self h = Ok h' → same_identity h h'.
Proof.
  unfold reproduce.
  destruct (py_ge_int (energy (h !!! self)) (population (h !!! self) * 2));
    [|by intros [= <-]].
  intros (product & Hmul & H)%bind_Ok.
  apply bind_Ok in H as (offspring & Hint & H).
  apply bind_Ok in H as (e' & Hsub & [= <-]).
  eapply same_identity_trans; apply same_identity_insert; try done;
    by rewrite lookup_total_insert_eq.
Qed.

Lemma predation_identity h self prey h' :
  predation self prey h = Ok h' →
  same_identity h h' ∧ (∀ r, r ≠ self → r ≠ prey → h' !!! r = h !!! r).
Proof.
  unfold predation.
  destruct (0 <? population (h !!! prey)); [|by intros [= <-]].
  intros (product & Hmul & H)%bind_Ok.
  apply bind_Ok in H as (prey_loss & Hint & [= <-]).
  split.
  - eapply same_identity_trans; apply same_identity_insert; done.
  - intros r Hr1 Hr2. by rewrite !lookup_total_insert_ne.
Qed.

Lemma predation_pass_identity species_list h h' :
  predation_pass species_list h = Ok h' →
  same_identity h h' ∧ (∀ r, r ∉ species_list → h' !!! r = h !!! r).
Proof.
  revert h. induction species_list as [ | a [ | b l] IH]; intros h.
  - by intros [= <-].
  - by intros [= <-].
  - cbn [predation_pass]. intros (h1 & H1 & H2)%bind_Ok.
    destruct (predation_identity _ _ _ _ H1) as [I1 F1].
    destruct (IH _ H2) as [I2 F2].
    split; [by eapply same_identity_trans|].
    intros r Hr. apply not_elem_of_cons in Hr as [Hra Hr].
    rewrite (F2 r Hr). apply F1; [done|].
    intros ->. apply Hr. left.
Qed.

Lemma evolve_identity self h (g : rng) h' (g' : rng) :
  evolve self (h, g) = (h', g') →
  same_identity h h' ∧ (∀ r, r ≠ self → h' !!! r = h !!! r) ∧ tape g' = tape g.
Proof.
  intros (Htape & [[-> Hc] | (Hc & tr & factor & _ & ->)])%evolve_cases; [done|].
  split; [by apply same_identity_insert; destruct tr|].
  split; [|done]. intros r Hr. by rewrite lookup_total_insert_ne.
Qed.

Lemma evolve_pass_identity species_list h (g : rng) h' (g' : rng) :
  evolve_pass species_list (h, g) = (h', g') →
  same_identity h h' ∧ (∀ r, r ∉ species_list → h' !!! r = h !!! r)
  ∧ tape g' = tape g.
Proof.
  unfold evolve_pass. revert h g.
  induction species_list as [ | a l IH]; intros h g; cbn [foldl].
  - by intros [= <- <-].
  - destruct (evolve a (h, g)) as [h1 g1] eqn:Hev. intros H.
    destruct (evolve_identity _ _ _ _ _ Hev) as (I1 & F1 & T1).
    destruct (IH _ _ H) as (I2 & F2 & T2).
    split; [by eapply same_identity_trans|]. split; [|congruence].
    intros r Hr. apply not_elem_of_cons in Hr as [Hra Hr].
    rewrite (F2 r Hr). by apply F1.
Qed.

Lemma species_turn_identity (species : ref) w w' :
  species_turn species w = Ok w' →
  same_identity (objects w) (objects w')
  ∧ dict_keys (chemicals w') = dict_keys (chemicals w)
  ∧ chemical_affinity (objects w !!! species) ∈ dict_keys (chemicals w).
Proof.
  intros (h1 & env1 & h2 & h3 & series & H1 & H2 & H3 & _ & ->)%species_turn_spec.
  cbn [objects chemicals].
  assert (Hkey : chemical_affinity (objects w !!! species)
                 ∈ dict_keys (chemicals w)).
  { unfold consume_chemicals in H1.
    apply bind_Ok in H1 as (avail & Havail & _).
    by eapply dict_get_Ok_key. }
  apply consume_chemicals_identity in H1 as [I1 K1].
  apply symbiotic_interaction_identity in H2.
  apply reproduce_identity in H3.
  split; [eauto using same_identity_trans | done].
Qed.

Lemma first_pass_identity species_list w w' :
  foldM species_turn species_list w = Ok w' →
  same_identity (objects w) (objects w')
  ∧ dict_keys (chemicals w') = dict_keys (chemicals w)
  ∧ ∀ species, species ∈ species_list →
      chemical_affinity (objects w !!! species) ∈ dict_keys (chemicals w).
Proof.
  revert w. induction species_list as [ | a l IH]; intros w; cbn [foldM].
  - intros [= <-]. split; [done|]. split; [done|].
    intros species Hin. apply elem_of_nil in Hin. destruct Hin.
  - intros (w1 & Hturn & Hrest)%bind_Ok.
    destruct (IH _ Hrest) as (I2 & K2 & A2).
    destruct (species_turn_identity _ _ _ Hturn) as (I1 & K1 & A1).
    split; [by eapply same_identity_trans|]. split; [congruence|].
    intros species Hin. apply elem_of_cons in Hin as [-> | Hin]; [exact A1|].
    specialize (A2 species Hin). destruct (I1 species) as (_ & Ha & _).
    by rewrite <- Ha, <- K1.
Qed.

Lemma replenish_chemicals_keys (environment : dict Z) (g : rng) :
  dict_keys (replenish_chemicals environment g).1 = dict_keys environment.
Proof.
  pose proof (replenish_chemicals_pointwise environment g) as Hall.
  revert Hall. generalize (replenish_chemicals environment g).1.
  unfold dict_keys.
  induction environment as [ | [k q] rest IH]; intros after Hall.
  - by apply Forall2_nil_inv_l in Hall as ->.
  - apply Forall2_cons_inv_l in Hall as ([k' q'] & rest' & [Hk _] & Hall & ->).
    cbn in *. by rewrite (IH rest' Hall), Hk.
Qed.

Lemma generation_identity species_list w w' :
  generation species_list w = Ok w' →
  same_identity (objects w) (objects w')
  ∧ (∀ r, r ∉ species_list → objects w' !!! r = objects w !!! r)
  ∧ dict_keys (chemicals w') = dict_keys (chemicals w)
  ∧ tape (generator w') = tape (generator w).
Proof.
  intros (w1 & h2 & h3 & g3 & env4 & g4 & H1 & H2 & H3 & H4 & ->)%generation_spec.
  destruct (first_pass_identity _ _ _ H1) as (I1 & K1 & _).
  destruct (first_pass_frame _ _ _ H1) as [F1 _].
  destruct (first_pass_history _ _ _ H1) as (_ & _ & G1 & _).
  destruct (predation_pass_identity _ _ _ H2) as [I2 F2].
  destruct (evolve_pass_identity _ _ _ _ _ H3) as (I3 & F3 & T3).
  pose proof (replenish_chemicals_keys (chemicals w1) g3) as K4.
  pose proof (replenish_chemicals_generator (chemicals w1) g3) as [_ T4].
  rewrite H4 in K4, T4. cbn [fst snd] in K4, T4.
  cbn [objects chemicals generator] in *.
  split; [eauto using same_identity_trans|].
  split; [intros r Hr; by rewrite F3, F2, F1|].
  split; congruence.
Qed.

Lemma generations_identity species_list (k : nat) w w' :
  iterM k (generation species_list) w = Ok w' →
  same_identity (objects w) (objects w')
  ∧ (∀ r, r ∉ species_list → objects w' !!! r = objects w !!! r)
  ∧ dict_keys (chemicals w') = dict_keys (chemicals w)
  ∧ tape (generator w') = tape (generator w).
Proof.
  revert w. induction k as [ | k IH]; intros w; cbn [iterM].
  - by intros [= <-].
  - intros (w1 & Hgen & Hrest)%bind_Ok.
    destruct (generation_identity _ _ _ Hgen) as (I1 & F1 & K1 & T1).
    destruct (IH _ Hrest) as (I2 & F2 & K2 & T2).
    split; [by eapply same_identity_trans|].
    split; [intros r Hr; by rewrite F2, F1|].
    split; congruence.
Qed.

(** X12. Whatever the number of generations, a run that completes has
    changed no name, chemical affinity or symbiosis partner of any
    object, has changed no object outside the species list (a partner
    that is not listed is read, never written), and has kept the keys of
    the environment and their order. *)
Theorem run_ecosystem_frame species_list h (environment : dict Z) (g : rng)
    (generations : Z) w :
  run_ecosystem species_list h environment g generations = Ok w →
  same_identity h (objects w)
  ∧ (∀ r, r ∉ species_list → objects w !!! r = h !!! r)
  ∧ dict_keys (chemicals w) = dict_keys environment.
Proof.
  unfold run_ecosystem, initial_world.
  intros (I & F & K & _)%generations_identity. done.
Qed.


(** X12 on the example set-up of the script, run for three generations:
    "Chemosynth B" still has "Chemosynth A" as its partner. *)
Lemma run_ecosystem_frame_witness :
  ∃ w, run_ecosystem example_list (example_species (100, 120, 80))
         INITIAL_CHEMICALS (constant_rng 7) 3 = Ok w
       ∧ symbiosis (objects w !!! 1%nat) = Some 0%nat
       ∧ dict_keys (chemicals w) = ["hydrogen"; "sulfur"; "methane"]%string.
Proof.
  assert (Hok : succeeds (run_ecosystem example_list (example_species (100, 120, 80))
                            INITIAL_CHEMICALS (constant_rng 7) 3) = true)
    by (by vm_compute).
  destruct (run_ecosystem example_list (example_species (100, 120, 80))
              INITIAL_CHEMICALS (constant_rng 7) 3) as [w | e] eqn:Hrun;
    [|discriminate Hok].
  exists w. split; [reflexivity|].
  destruct (run_ecosystem_frame _ _ _ _ _ _ Hrun) as (Hid & _ & Hkeys).
  destruct (Hid 1%nat) as (_ & _ & Hsym).
  split; [rewrite Hsym; by vm_compute | rewrite Hkeys; by vm_compute].
Defined.

Lemma sum_list_nonneg (xs : list Z) : Forall (λ q, 0 ≤ q) xs → 0 ≤ sum_list xs.
Proof.
  unfold sum_list. induction 1 as [ | x xs Hx _ IH]; cbn; lia.
Qed.

Lemma dict_keys_length {V : Type} (d : dict V) : length (dict_keys d) = length d.
Proof. unfold dict_keys. by rewrite length_fmap. Qed.

Lemma generation_total species_list w w' :
  env_nonneg (chemicals w) →
  generation species_list w = Ok w' →
  10 * Z.of_nat (length (chemicals w)) ≤ sum_list (dict_values (chemicals w'))
  ∧ env_nonneg (chemicals w')
  ∧ length (chemicals w') = length (chemicals w).
Proof.
  intros Henv Hgen.
  pose proof (generation_env_nonneg _ _ _ Henv Hgen) as Henv'.
  destruct (generation_identity _ _ _ Hgen) as (_ & _ & K & _).
  assert (Hlen : length (chemicals w') = length (chemicals w)).
  { by rewrite <- !dict_keys_length, K. }
  split; [|done].
  apply generation_spec in Hgen
    as (w1 & h2 & h3 & g3 & env4 & g4 & H1 & H2 & H3 & H4 & ->).
  assert (Henv1 : env_nonneg (chemicals w1)).
  { eapply first_pass_env_nonneg; [|exact H1]. exact Henv. }
  destruct (first_pass_identity _ _ _ H1) as (_ & K1 & _).
  pose proof (replenish_chemicals_sum (chemicals w1) g3) as Hsum.
  rewrite H4 in Hsum. cbn [fst chemicals] in *.
  apply sum_list_nonneg in Henv1.
  assert (length (chemicals w1) = length (chemicals w)).
  { by rewrite <- !dict_keys_length, K1. }
  lia.
Qed.

Lemma generations_totals species_list (k : nat) w w' :
  env_nonneg (chemicals w) →
  iterM k (generation species_list) w = Ok w' →
  ∃ recorded,
    chemical_history w' = chemical_history w ++ recorded
    ∧ (∀ t, recorded !! 0%nat = Some t → t = sum_list (dict_values (chemicals w)))
    ∧ (∀ i t, recorded !! S i = Some t →
              10 * Z.of_nat (length (chemicals w)) ≤ t).
Proof.
  revert w. induction k as [ | k IH]; intros w Henv; cbn [iterM].
  - intros [= <-]. exists []. by rewrite app_nil_r.
  - intros (w1 & Hgen & Hrest)%bind_Ok.
    destruct (generation_total _ _ _ Henv Hgen) as (Hsum & Henv1 & Hlen).
    destruct (generation_history _ _ _ Hgen) as (_ & C1 & _).
    destruct (IH _ Henv1 Hrest) as (rec & C2 & Hfirst & Hlater).
    exists (sum_list (dict_values (chemicals w)) :: rec).
    split; [by rewrite C2, C1, <- app_assoc|]. split.
    + by intros t [= <-].
    + intros i t Ht. cbn in Ht. destruct i as [ | i].
      * rewrite (Hfirst t Ht). exact Hsum.
      * rewrite <- Hlen. by eapply Hlater.
Qed.

(** X13. When no chemical quantity is negative at the start, every
    chemical total recorded after the first generation is at least [10]
    per chemical kind: whatever the species consume, each kind enters
    the next generation with its replenishment of at least 10. *)
Theorem chemical_history_lower_bound species_list h (environment : dict Z)
    (g : rng) (generations : Z) (ph : dict (list Z)) (ch : list Z) :
  env_nonneg environment →
  simulate_ecosystem species_list h environment g generations = Ok (ph, ch) →
  ∀ i t, ch !! S i = Some t → 10 * Z.of_nat (length environment) ≤ t.
Proof.
  intros Henv (w & Hrun & -> & ->)%simulate_ecosystem_Ok.
  unfold run_ecosystem, initial_world in Hrun.
  apply generations_totals in Hrun as (rec & Hch & _ & Hlater); [|done].
  cbn [chemical_history chemicals] in *. rewrite Hch. cbn [app].
  exact Hlater.
Qed.

(** X13 on the example set-up of the script, run for three
    generations: the second recorded total is at least 30. *)
Lemma chemical_history_lower_bound_witness :
  ∃ ph ch,
    simulate_ecosystem example_list (example_species (100, 120, 80))
                       INITIAL_CHEMICALS (constant_rng 7) 3 = Ok (ph, ch)
    ∧ ∃ t, ch !! 1%nat = Some t ∧ 30 ≤ t.
Proof.
  assert (Hok : succeeds (simulate_ecosystem example_list
                            (example_species (100, 120, 80))
                            INITIAL_CHEMICALS (constant_rng 7) 3) = true)
    by (by vm_compute).
  assert (Hlen : match simulate_ecosystem example_list
                         (example_species (100, 120, 80))
                         INITIAL_CHEMICALS (constant_rng 7) 3 with
                 | Ok (_, ch) => length ch
                 | Raise _ => 0%nat
                 end = 3%nat) by (by vm_compute).
  destruct (simulate_ecosystem example_list (example_species (100, 120, 80))
              INITIAL_CHEMICALS (constant_rng 7) 3) as [[ph ch] | e] eqn:Hrun;
    [|discriminate Hok].
  exists ph, ch. split; [reflexivity|].
  destruct ch as [ | t0 [ | t1 ch]]; [discriminate Hlen | discriminate Hlen | ].
  exists t1. split; [reflexivity|].
  apply (chemical_history_lower_bound example_list (example_species (100, 120, 80))
           INITIAL_CHEMICALS (constant_rng 7) 3 ph (t0 :: t1 :: ch)
           ltac:(unfold env_nonneg; repeat constructor; by vm_compute)
           Hrun 0%nat t1 eq_refl).
Defined.

(** X14. The population history returned by a completed run has a key
    for a name exactly when a listed species bears that name, whatever
    the number of generations. *)
Theorem population_history_keys species_list h (environment : dict Z)
    (g : rng) (generations : Z) (ph : dict (list Z)) (ch : list Z) :
  simulate_ecosystem species_list h environment g generations = Ok (ph, ch) →
  ∀ n, n ∈ dict_keys ph ↔ n ∈ names_of species_list h.
Proof.
  intros (w & Hrun & -> & ->)%simulate_ecosystem_Ok.
  unfold run_ecosystem, initial_world in Hrun.
  apply generations_history in Hrun as (_ & _ & Hkeys & _).
  cbn [population_history] in Hkeys. rewrite Hkeys.
  by destruct (init_population_history_spec species_list h) as (_ & Hin & _).
Qed.


(** X14 on the example set-up of the script, run for three
    generations: "Chemosynth B" is a key of the history. *)
Lemma population_history_keys_witness :
  ∃ ph ch,
    simulate_ecosystem example_list (example_species (100, 120, 80))
                       INITIAL_CHEMICALS (constant_rng 7) 3 = Ok (ph, ch)
    ∧ "Chemosynth B"%string ∈ dict_keys ph.
Proof.
  assert (Hok : succeeds (simulate_ecosystem example_list
                            (example_species (100, 120, 80))
                            INITIAL_CHEMICALS (constant_rng 7) 3) = true)
    by (by vm_compute).
  destruct (simulate_ecosystem example_list (example_species (100, 120, 80))
              INITIAL_CHEMICALS (constant_rng 7) 3) as [[ph ch] | e] eqn:Hrun;
    [|discriminate Hok].
  exists ph, ch. split; [reflexivity|].
  apply (population_history_keys _ _ _ _ _ _ _ Hrun).
  apply (bool_decide_unpack _). by vm_compute.
Defined.

(** X15. A run of at least one generation completes only if the
    chemical of every listed species is a key of the environment:
    otherwise [consume_chemicals] raises in the first generation and
    nothing is returned. *)
Theorem run_needs_known_chemicals species_list h (environment : dict Z)
    (g : rng) (generations : Z) (ph : dict (list Z)) (ch : list Z) :
  0 < generations →
  simulate_ecosystem species_list h environment g generations = Ok (ph, ch) →
  ∀ species, species ∈ species_list →
    chemical_affinity (h !!! species) ∈ dict_keys environment.
Proof.
  intros HG (w & Hrun & -> & ->)%simulate_ecosystem_Ok.
  unfold run_ecosystem, initial_world in Hrun.
  destruct (Z.to_nat generations) as [ | k] eqn:Ek; [lia|].
  cbn [iterM] in Hrun. apply bind_Ok in Hrun as (w1 & Hgen & _).
  apply generation_spec in Hgen as (w0 & _ & _ & _ & _ & _ & H1 & _).
  apply first_pass_identity in H1 as (_ & _ & Haff).
  exact Haff.
Qed.

(** X15 on the example set-up of the script, run for three
    generations: the chemical of "Chemosynth C" is a key of the initial
    chemicals. *)
Lemma run_needs_known_chemicals_witness :
  ∃ ph ch,
    simulate_ecosystem example_list (example_species (100, 120, 80))
                       INITIAL_CHEMICALS (constant_rng 7) 3 = Ok (ph, ch)
    ∧ chemical_affinity (example_species (100, 120, 80) !!! 2%nat)
      ∈ dict_keys INITIAL_CHEMICALS.
Proof.
  assert (Hok : succeeds (simulate_ecosystem example_list
                            (example_species (100, 120, 80))
                            INITIAL_CHEMICALS (constant_rng 7) 3) = true)
    by (by vm_compute).
  destruct (simulate_ecosystem example_list (example_species (100, 120, 80))
              INITIAL_CHEMICALS (constant_rng 7) 3) as [[ph ch] | e] eqn:Hrun;
    [|discriminate Hok].
  exists ph, ch. split; [reflexivity|].
  apply (run_needs_known_chemicals example_list (example_species (100, 120, 80))
           INITIAL_CHEMICALS (constant_rng 7) 3 ph ch ltac:(lia) Hrun).
  apply (bool_decide_unpack _). by vm_compute.
Defined.

End Run_invariants.

(* ===================================================================== *)
(** * Construction of the species and the script *)
(* ===================================================================== *)

Section Script.

Implicit Types (h : heap) (self r : ref).

(** X16. Whatever the draw, a species built by [Species.__init__] has a
    population between 50 and 150 and the int [0] as its energy, it has
    taken exactly one draw, and wherever it is stored [reproduce] leaves
    it as it is: it cannot reproduce before it has gained energy. *)
Theorem Species_init_state (n : string) (ee rr pr : float) (ca : string)
    (partner : option ref) (g : rng) h self :
  let s := (Species_init n ee rr pr ca partner g).1 in
  let g' := (Species_init n ee rr pr ca partner g).2 in
  50 ≤ population s ≤ 150
  ∧ energy s = PInt 0
  ∧ nonneg_state s
  ∧ cursor g' = S (cursor g)
  ∧ reproduce self (<[self := s]> h) = Ok (<[self := s]> h).
Proof.
  intros s g'. subst s g'. unfold Species_init.
  pose proof (randint_range 50 150 g ltac:(lia)) as Hr.
  assert (Hc : cursor (randint 50 150 g).2 = S (cursor g)) by done.
  destruct (randint 50 150 g) as [initial g1]. cbn [fst snd] in *.
  cbn [population energy].
  split; [done|]. split; [done|].
  split; [split; [cbn; lia | done]|]. split; [done|].
  unfold reproduce. rewrite lookup_total_insert_eq.
  cbn [population energy py_ge_int].
  by rewrite (proj2 (Z.leb_gt _ _)) by lia.
Qed.

Lemma script_species_spec (g : rng) :
  ∃ pa pb pc,
    script_species g
    = (example_species (pa, pb, pc), mkRng (tape g) (S (S (S (cursor g)))))
    ∧ 50 ≤ pa ≤ 150 ∧ 50 ≤ pb ≤ 150 ∧ 50 ≤ pc ≤ 150.
Proof.
  unfold script_species, Species_init, randint, draw. cbn [tape cursor].
  eexists _, _, _. split; [reflexivity|].
  pose proof (Z.mod_pos_bound (tape g (cursor g)) (150 - 50 + 1) ltac:(lia)).
  pose proof (Z.mod_pos_bound (tape g (S (cursor g))) (150 - 50 + 1) ltac:(lia)).
  pose proof (Z.mod_pos_bound (tape g (S (S (cursor g)))) (150 - 50 + 1) ltac:(lia)).
  lia.
Qed.

Lemma example_species_lookup (pa pb pc : Z) :
  example_species (pa, pb, pc) !!! 0%nat
  = mkSpecies "Chemosynth A" (float_lit 8 10) (float_lit 5 100)
              (float_lit 2 100) "hydrogen" pa (PInt 0) None
  ∧ example_species (pa, pb, pc) !!! 1%nat
    = mkSpecies "Chemosynth B" (float_lit 7 10) (float_lit 4 100)
                (float_lit 3 100) "sulfur" pb (PInt 0) (Some 0%nat)
  ∧ example_species (pa, pb, pc) !!! 2%nat
    = mkSpecies "Chemosynth C" (float_lit 6 10) (float_lit 6 100)
                (float_lit 4 100) "methane" pc (PInt 0) None.
Proof. repeat split; reflexivity. Qed.

Lemma example_species_ok (pa pb pc : Z) (species : ref) :
  0 ≤ pa → 0 ≤ pb → 0 ≤ pc →
  species ∈ example_list →
  species_ok (example_species (pa, pb, pc)) species.
Proof.
  intros Ha Hb Hc Hin.
  destruct (example_species_lookup pa pb pc) as (E0 & E1 & E2).
  unfold example_list in Hin.
  apply elem_of_cons in Hin as [-> | Hin];
    [|apply elem_of_cons in Hin as [-> | Hin];
      [|apply elem_of_cons in Hin as [-> | Hin];
        [|apply elem_of_nil in Hin; destruct Hin]]].
  - split; rewrite E0; cbn [population energy predation_rate reproduction_rate
                             energy_efficiency symbiosis].
    + split; [exact Ha | reflexivity].
    + exact I.
    + repeat split; by vm_compute.
    + repeat split; by vm_compute.
    + repeat split; by vm_compute.
    + intros partner Hp. discriminate Hp.
  - split; rewrite E1; cbn [population energy predation_rate reproduction_rate
                             energy_efficiency symbiosis].
    + split; [exact Hb | reflexivity].
    + exact I.
    + repeat split; by vm_compute.
    + repeat split; by vm_compute.
    + repeat split; by vm_compute.
    + intros partner [= <-]. rewrite E0. exact Ha.
  - split; rewrite E2; cbn [population energy predation_rate reproduction_rate
                             energy_efficiency symbiosis].
    + split; [exact Hc | reflexivity].
    + exact I.
    + repeat split; by vm_compute.
    + repeat split; by vm_compute.
    + repeat split; by vm_compute.
    + intros partner Hp. discriminate Hp.
Qed.

(** X17. Whatever the random draws, the three species of the script
    start with populations between 50 and 150 and satisfy the data
    model, and if the run of the script completes it returns 100
    chemical totals, the first of which is 2300, and a population
    history with exactly the three names as keys, in the order of the
    list, each with a series of 100 values: the lengths that
    [plot_ecosystem] pairs with [range(generations)]. *)
Theorem script_run_histories (g : rng) :
  (∀ species, species ∈ example_list →
     species_ok (script_species g).1 species
     ∧ 50 ≤ population ((script_species g).1 !!! species) ≤ 150)
  ∧ ∀ ph ch,
      script_run g = Ok (ph, ch) →
      length ch = 100%nat
      ∧ ch !! 0%nat = Some 2300
      ∧ dict_keys ph = ["Chemosynth A"; "Chemosynth B"; "Chemosynth C"]%string
      ∧ ∀ n series, dict_get ph n = Ok series → length series = 100%nat.
Proof.
  unfold script_run.
  destruct (script_species_spec g) as (pa & pb & pc & -> & Ha & Hb & Hc).
  cbn [fst].
  destruct (example_species_lookup pa pb pc) as (E0 & E1 & E2).
  split.
  - intros species Hin.
    split; [apply example_species_ok; [lia | lia | lia | exact Hin]|].
    unfold example_list in Hin.
    apply elem_of_cons in Hin as [-> | Hin]; [by rewrite E0|].
    apply elem_of_cons in Hin as [-> | Hin]; [by rewrite E1|].
    apply elem_of_cons in Hin as [-> | Hin]; [by rewrite E2|].
    apply elem_of_nil in Hin. destruct Hin.
  - intros ph ch (w & Hrun & -> & ->)%simulate_ecosystem_Ok.
    destruct (run_ecosystem_history _ _ _ _ _ _ Hrun) as (Hlen & _ & Hseries).
    assert (Hkeys : dict_keys (population_history w)
                    = ["Chemosynth A"; "Chemosynth B"; "Chemosynth C"]%string).
    { unfold run_ecosystem, initial_world in Hrun.
      apply generations_history in Hrun as (_ & _ & -> & _).
      cbn [population_history].
      unfold init_population_history, example_list. cbn [foldl].
      rewrite E0, E1, E2. reflexivity. }
    assert (Hocc : ∀ species, species ∈ example_list →
              occurrences (name (example_species (pa, pb, pc) !!! species))
                          (names_of example_list (example_species (pa, pb, pc)))
              = 1%nat).
    { intros species Hin. apply occurrences_NoDup.
      - unfold names_of, example_list. cbn [fmap list_fmap].
        rewrite E0, E1, E2. cbn [name].
        apply (bool_decide_unpack _). by vm_compute.
      - unfold names_of. apply list_elem_of_fmap.
        exists species. split; [reflexivity | exact Hin]. }
    split; [exact Hlen|]. split; [|split; [exact Hkeys|]].
    + unfold run_ecosystem, initial_world in Hrun.
      apply generations_totals in Hrun as (rec & Hch & Hfirst & _);
        [|unfold env_nonneg; repeat constructor; by vm_compute].
      cbn [chemical_history chemicals app] in *. subst rec.
      destruct (chemical_history w) as [ | t ch']; [discriminate Hlen|].
      cbn [lookup list_lookup]. f_equal. rewrite (Hfirst t eq_refl). reflexivity.
    + intros n series Hget.
      pose proof (dict_get_Ok_key _ _ _ Hget) as Hn. rewrite Hkeys in Hn.
      assert (∃ species, species ∈ example_list
                         ∧ n = name (example_species (pa, pb, pc) !!! species))
        as (species & Hin & ->).
      { apply elem_of_cons in Hn as [-> | Hn];
          [exists 0%nat; rewrite E0; split; [apply (bool_decide_unpack _); by vm_compute | reflexivity]|].
        apply elem_of_cons in Hn as [-> | Hn];
          [exists 1%nat; rewrite E1; split; [apply (bool_decide_unpack _); by vm_compute | reflexivity]|].
        apply elem_of_cons in Hn as [-> | Hn];
          [exists 2%nat; rewrite E2; split; [apply (bool_decide_unpack _); by vm_compute | reflexivity]|].
        apply elem_of_nil in Hn. destruct Hn. }
      destruct (Hseries species Hin) as (series' & Hget' & Hl).
      rewrite Hget in Hget'. injection Hget' as <-.
      rewrite Hl, (Hocc species Hin). reflexivity.
Qed.

(** X17 with every raw draw equal to 7: "Chemosynth B" starts with a
    population of 57 and satisfies the data model. *)
Lemma script_run_histories_witness :
  species_ok (script_species (constant_rng 7)).1 1%nat
  ∧ 50 ≤ population ((script_species (constant_rng 7)).1 !!! 1%nat) ≤ 150.
Proof.
  apply (script_run_histories (constant_rng 7)).
  apply (bool_decide_unpack _). by vm_compute.
Defined.

End Script.
